(** * DualPipe: the bidirectional pipeline scheduler of [dualpipe/dualpipe.py]

    A shallow embedding of the scheduling engine of class [DualPipe]: the
    topology computed by [__init__], the per-step queues and cursors, the
    batched point-to-point layer and the eight-phase program of [step].

    Python integers are [Z]; the two-element lists and tuples indexed by a
    physical phase are records [two A] indexed by a [bool] ([false] is phase
    0, [true] is phase 1, so that [phase ^= self.is_in_second_half] is
    [xorb]); a cursor, being a list index that only grows from 0, is a [nat].
    Every method is a function in a state-and-exception monad: a raised
    exception keeps the state reached so far, as a Python object does.

    The numerical kernels, the criterion, the transport and the micro-batch
    split are collaborators that the scheduler only calls; their results are
    opaque payloads here. *)

From Stdlib Require Import ZArith Lia Bool List.
From stdpp Require Import base list.
Import ListNotations.

Unset Default Proof Using.
Local Open Scope nat_scope.

(** ** Payloads, results and events *)

(** A group of tensors that the scheduler moves as one unit. *)
Inductive tensors : Type :=
  | Microbatch (i : nat)                     (* i-th sub-batch given by scatter *)
  | Received (peer : option Z)               (* buffers allocated by append_irecv *)
  | Outputs (phase : bool) (chunk_id : nat)  (* what self.module[phase] returns *)
  | Grads (phase : bool) (chunk_id : nat).   (* [t.grad for t in inputs] *)

Inductive loss : Type :=
  | Loss (phase : bool) (chunk_id : nat).

(** The assertions of the module, by their place in the source. *)
Inductive assertion : Type :=
  | P2PConfigSet       (* set_p2p_tensor_shapes / set_p2p_tensor_dtype called *)
  | RanksEven          (* "Number of ranks must be even" *)
  | ChunksValid        (* num_chunks > 0, even, >= 2 * num_ranks *)
  | CriterionGiven     (* "Criterion must be provided in training mode ..." *)
  | QueueEmptyAtEnd    (* "WeightGradStore queue should be empty ..." *)
  | PopNonEmpty.       (* WeightGradStore.pop on an empty queue *)

Inductive exn : Type :=
  | AssertionError (a : assertion)
  | IndexError
  | TypeError.

Inductive result (A : Type) : Type :=
  | Ok (a : A)
  | Raise (e : exn).
Arguments Ok {A} a.
Arguments Raise {A} e.

(** A pending communication descriptor. *)
Record P2POp : Type := MkP2POp {
  op_is_send : bool;
  op_peer : option Z;
  op_payload : tensors
}.

(** What the scheduler did, in order.  [EStepIter k i] stands for the
    "Step k, iteration i+1" line logged at the top of each loop body. *)
Inductive event : Type :=
  | EStepIter (k : nat) (i : Z)
  | EIrecv (peer : option Z)
  | EIsend (peer : option Z)
  | ECommit (n : nat)
  | EForward (phase : bool) (chunk_id : nat)
  | EBackward (phase : bool) (chunk_id : nat) (enable_zb : bool)
  | EFused (phase0 : bool) (chunk_id0 : nat) (phase1 : bool) (chunk_id1 : nat)
  | EWeight.

(** ** Pairs indexed by a physical phase *)

Record two (A : Type) : Type := Two { at0 : A; at1 : A }.
Arguments Two {A} at0 at1.
Arguments at0 {A} t.
Arguments at1 {A} t.

Definition get2 {A} (t : two A) (phase : bool) : A :=
  if phase then at1 t else at0 t.

Definition set2 {A} (t : two A) (phase : bool) (v : A) : two A :=
  if phase then Two (at0 t) v else Two v (at1 t).

Definition both {A} (v : A) : two A := Two v v.

(** ** Python list indexing *)

(** [l[i]] accepts [-len <= i < len]; a negative index counts from the end. *)
Definition py_pos {A} (l : list A) (i : Z) : option nat :=
  let len := Z.of_nat (length l) in
  if (0 <=? i)%Z && (i <? len)%Z then Some (Z.to_nat i)
  else if (- len <=? i)%Z && (i <? 0)%Z then Some (Z.to_nat (len + i))
  else None.

Definition py_get {A} (l : list A) (i : Z) : option A :=
  match py_pos l i with
  | Some k => l !! k
  | None => None
  end.

Definition py_set {A} (l : list A) (i : Z) (v : A) : option (list A) :=
  match py_pos l i with
  | Some k => Some (<[k := v]> l)
  | None => None
  end.

(** [range(n)] *)
Definition range (n : Z) : list Z := map Z.of_nat (seq 0 (Z.to_nat n)).

(** ** Topology: [DualPipe.__init__] *)

(** What [__init__] looks at in a shard: its class, and whether that class has
    the attribute [overlaped_forward_backward]. *)
Record shard : Type := MkShard {
  shard_class : nat;
  class_has_overlap : bool
}.

Record topology : Type := MkTopology {
  overlaped_forward_backward : bool;
  num_ranks : Z;
  rank : Z;
  first_rank : option Z;
  prev_rank : option Z;
  next_rank : option Z;
  last_rank : option Z;
  is_first_rank : bool;
  is_last_rank : bool;
  is_in_second_half : bool;
  is_middle_rank : bool
}.

(** The loop filling [rank_inverse_mapping]. *)
Fixpoint fill_inverse (rank_mapping : list Z) (inv : list (option Z))
    (idxs : list Z) : result (list (option Z)) :=
  match idxs with
  | [] => Ok inv
  | i :: idxs' =>
      match py_get rank_mapping i with
      | None => Raise IndexError
      | Some r =>
          match py_set inv r (Some i) with
          | None => Raise IndexError
          | Some inv' => fill_inverse rank_mapping inv' idxs'
          end
      end
  end.

Definition opt_index (l : list (option Z)) (i : Z) : result (option Z) :=
  match py_get l i with
  | Some v => Ok v
  | None => Raise IndexError
  end.

(** [group_size] and [group_rank] are [self.group.size()] and
    [self.group.rank()]. *)
Definition DualPipe_init (modules : shard * shard) (group_size group_rank : Z)
    (rank_mapping : option (list Z)) : result topology :=
  let overlap :=
    Nat.eqb (shard_class (fst modules)) (shard_class (snd modules))
    && class_has_overlap (fst modules) in
  let num_ranks := group_size in
  let rank_mapping :=
    match rank_mapping with
    | None => range num_ranks
    | Some m => m
    end in
  let inv0 := replicate (Z.to_nat (num_ranks + 1)) (@None Z) in
  match fill_inverse rank_mapping inv0 (range num_ranks) with
  | Raise e => Raise e
  | Ok inv =>
      match py_get rank_mapping group_rank with
      | None => Raise IndexError
      | Some rank =>
          match opt_index inv 0, opt_index inv (rank - 1),
                opt_index inv (rank + 1), opt_index inv (num_ranks - 1) with
          | Ok first, Ok prev, Ok next, Ok last =>
              Ok {| overlaped_forward_backward := overlap;
                    num_ranks := num_ranks;
                    rank := rank;
                    first_rank := first;
                    prev_rank := prev;
                    next_rank := next;
                    last_rank := last;
                    is_first_rank := (rank =? 0)%Z;
                    is_last_rank := (rank =? num_ranks - 1)%Z;
                    is_in_second_half := (num_ranks / 2 <=? rank)%Z;
                    is_middle_rank :=
                      (2 <? num_ranks)%Z
                      && ((rank =? num_ranks / 2 - 1)%Z
                          || (rank =? num_ranks / 2)%Z) |}
          | _, _, _, _ => Raise IndexError
          end
      end
  end.

(** ** The state of a scheduler instance *)

(** The six cursor attributes, each a two-element list indexed by the
    physical phase. *)
Record cursors : Type := MkCursors {
  current_f_chunk_id : two nat;
  current_b_chunk_id : two nat;
  current_send_f_chunk_id : two nat;
  current_send_b_chunk_id : two nat;
  current_recv_f_chunk_id : two nat;
  current_recv_b_chunk_id : two nat
}.

Inductive cursor : Type := CF | CB | CSendF | CSendB | CRecvF | CRecvB.

Definition cur_get (c : cursor) (cs : cursors) : two nat :=
  match c with
  | CF => current_f_chunk_id cs
  | CB => current_b_chunk_id cs
  | CSendF => current_send_f_chunk_id cs
  | CSendB => current_send_b_chunk_id cs
  | CRecvF => current_recv_f_chunk_id cs
  | CRecvB => current_recv_b_chunk_id cs
  end.

Definition cur_set (c : cursor) (v : two nat) (cs : cursors) : cursors :=
  match cs with
  | MkCursors f b sf sb rf rb =>
      match c with
      | CF => MkCursors v b sf sb rf rb
      | CB => MkCursors f v sf sb rf rb
      | CSendF => MkCursors f b v sb rf rb
      | CSendB => MkCursors f b sf v rf rb
      | CRecvF => MkCursors f b sf sb v rb
      | CRecvB => MkCursors f b sf sb rf v
      end
  end.

(** The four chunk stores; a slot is [None] once it has been released. *)
Record queues : Type := MkQueues {
  input_chunks : two (list (option tensors));
  output_chunks : two (list (option tensors));
  input_grad_chunks : two (list (option tensors));
  output_grad_chunks : two (list (option tensors))
}.

Inductive queue : Type := QInput | QOutput | QInputGrad | QOutputGrad.

Definition q_get (q : queue) (qs : queues) : two (list (option tensors)) :=
  match q with
  | QInput => input_chunks qs
  | QOutput => output_chunks qs
  | QInputGrad => input_grad_chunks qs
  | QOutputGrad => output_grad_chunks qs
  end.

Definition q_set (q : queue) (v : two (list (option tensors))) (qs : queues)
    : queues :=
  match qs with
  | MkQueues i o ig og =>
      match q with
      | QInput => MkQueues v o ig og
      | QOutput => MkQueues i v ig og
      | QInputGrad => MkQueues i o v og
      | QOutputGrad => MkQueues i o ig v
      end
  end.

(** A deferred weight-gradient computation. *)
Inductive deferred : Type :=
  | Deferred (phase : bool) (chunk_id : nat).

(** Modelled from the spec: [WeightGradStore] of [dualpipe/utils.py], which is
    not part of the sources at hand.  A FIFO queue of deferred units with an
    enable flag: [put] adds a unit to the pending ones, [flush] makes all the
    pending units ready to be drained by later [pop]s, [pop] asserts that the
    queue is not empty and takes the oldest unit, [clear] empties the store. *)
Record WeightGradStore : Type := MkStore {
  enabled : bool;
  cache : list deferred;
  funcs_queue : list deferred
}.

Definition callable : Type := nat.

(** The attributes that [step] assigns itself, before it resets the rest. *)
Record step_attrs : Type := MkAttrs {
  forward_only : bool;
  return_outputs : bool;
  num_half_ranks : Z;
  half_rank : Z
}.

(** The attributes that [_reset_states] assigns. *)
Record per_step : Type := MkPerStep {
  chunks : queues;
  labels : option (two (list tensors));
  loss_chunks : list loss;
  criterion : option callable;
  ids : cursors;
  comm_ops : list P2POp;
  to_free : list tensors
}.

(** The whole state a method can touch.  [p2p_configured] tells whether
    [comm.TENSOR_SHAPES] and [comm.TENSOR_DTYPE] are set.  [log] and [history]
    are ghost: the events so far, and the cursors after each increment. *)
Record state : Type := MkState {
  attrs : step_attrs;
  ps : per_step;
  store : WeightGradStore;
  p2p_configured : bool;
  log : list event;
  history : list cursors
}.

Definition with_attrs (f : step_attrs -> step_attrs) (s : state) : state :=
  MkState (f (attrs s)) (ps s) (store s) (p2p_configured s) (log s) (history s).
Definition with_ps (f : per_step -> per_step) (s : state) : state :=
  MkState (attrs s) (f (ps s)) (store s) (p2p_configured s) (log s) (history s).
Definition with_store (f : WeightGradStore -> WeightGradStore) (s : state)
    : state :=
  MkState (attrs s) (ps s) (f (store s)) (p2p_configured s) (log s) (history s).
Definition with_log (f : list event -> list event) (s : state) : state :=
  MkState (attrs s) (ps s) (store s) (p2p_configured s) (f (log s)) (history s).
Definition with_history (f : list cursors -> list cursors) (s : state)
    : state :=
  MkState (attrs s) (ps s) (store s) (p2p_configured s) (log s) (f (history s)).

Definition with_chunks (f : queues -> queues) (p : per_step) : per_step :=
  MkPerStep (f (chunks p)) (labels p) (loss_chunks p) (criterion p) (ids p)
    (comm_ops p) (to_free p).
Definition with_loss_chunks (f : list loss -> list loss) (p : per_step)
    : per_step :=
  MkPerStep (chunks p) (labels p) (f (loss_chunks p)) (criterion p) (ids p)
    (comm_ops p) (to_free p).
Definition with_ids (f : cursors -> cursors) (p : per_step) : per_step :=
  MkPerStep (chunks p) (labels p) (loss_chunks p) (criterion p) (f (ids p))
    (comm_ops p) (to_free p).
Definition with_comm_ops (f : list P2POp -> list P2POp) (p : per_step)
    : per_step :=
  MkPerStep (chunks p) (labels p) (loss_chunks p) (criterion p) (ids p)
    (f (comm_ops p)) (to_free p).
Definition with_to_free (f : list tensors -> list tensors) (p : per_step)
    : per_step :=
  MkPerStep (chunks p) (labels p) (loss_chunks p) (criterion p) (ids p)
    (comm_ops p) (f (to_free p)).

(** ** The state-and-exception monad *)

Definition M (A : Type) : Type := state -> result A * state.

Definition ret {A} (a : A) : M A := fun s => (Ok a, s).

Definition bind {A B} (m : M A) (k : A -> M B) : M B :=
  fun s =>
    match m s with
    | (Ok a, s') => k a s'
    | (Raise e, s') => (Raise e, s')
    end.

Definition raise {A} (e : exn) : M A := fun s => (Raise e, s).
Definition gets {A} (f : state -> A) : M A := fun s => (Ok (f s), s).
Definition modify (f : state -> state) : M unit := fun s => (Ok tt, f s).

Declare Scope sched_scope.
Delimit Scope sched_scope with sched.
Notation "x <- m ;; k" := (bind m (fun x => k))
  (at level 20, m at level 99, k at level 200, only parsing) : sched_scope.
Notation "m ;; k" := (bind m (fun _ => k))
  (at level 100, k at level 200, right associativity) : sched_scope.
Local Open Scope sched_scope.

Definition assert (b : bool) (a : assertion) : M unit :=
  if b then ret tt else raise (AssertionError a).

Definition when (b : bool) (m : M unit) : M unit :=
  if b then m else ret tt.

(** [for x in xs: body(x)] *)
Fixpoint for_each {A} (xs : list A) (body : A -> M unit) : M unit :=
  match xs with
  | [] => ret tt
  | x :: xs' => body x ;; for_each xs' body
  end.

(** A loop that also updates a local variable of the enclosing function. *)
Fixpoint for_each_with {A V} (xs : list A) (v : V) (body : A -> V -> M V)
    : M V :=
  match xs with
  | [] => ret v
  | x :: xs' => v' <- body x v ;; for_each_with xs' v' body
  end.

Definition emit (e : event) : M unit :=
  modify (with_log (fun l => l ++ [e])).

Definition is_not_None {A} (o : option A) : bool :=
  match o with
  | Some _ => true
  | None => false
  end.

(** An operand that is [None] where a list of tensors is needed. *)
Definition need {A} (o : option A) : M A :=
  match o with
  | Some v => ret v
  | None => raise TypeError
  end.

(** *** Cursors and chunk stores *)

Definition cursor_of (c : cursor) (phase : bool) : M nat :=
  gets (fun s => get2 (cur_get c (ids (ps s))) phase).

(** [self.current_..._chunk_id[phase] += 1]; the new cursors are recorded. *)
Definition incr (c : cursor) (phase : bool) : M unit :=
  modify (fun s =>
    let cs := ids (ps s) in
    let cs' := cur_set c (set2 (cur_get c cs) phase
                                (S (get2 (cur_get c cs) phase))) cs in
    with_history (fun h => h ++ [cs']) (with_ps (with_ids (fun _ => cs')) s)).

Definition q_list (q : queue) (phase : bool) : M (list (option tensors)) :=
  gets (fun s => get2 (q_get q (chunks (ps s))) phase).

Definition q_put (q : queue) (phase : bool) (l : list (option tensors))
    : M unit :=
  modify (with_ps (with_chunks (fun qs => q_set q (set2 (q_get q qs) phase l) qs))).

(** [store[phase][chunk_id]] *)
Definition q_index (q : queue) (phase : bool) (chunk_id : nat)
    : M (option tensors) :=
  l <- q_list q phase ;;
  match l !! chunk_id with
  | Some v => ret v
  | None => raise IndexError
  end.

(** [store[phase][chunk_id] = None] *)
Definition q_release (q : queue) (phase : bool) (chunk_id : nat) : M unit :=
  l <- q_list q phase ;;
  if chunk_id <? length l then q_put q phase (<[chunk_id := None]> l)
  else raise IndexError.

(** [store[phase].append(v)] *)
Definition q_append (q : queue) (phase : bool) (v : tensors) : M unit :=
  l <- q_list q phase ;;
  q_put q phase (l ++ [Some v]).

(** [self.loss_chunks[chunk_id]] *)
Definition loss_at (chunk_id : nat) : M loss :=
  l <- gets (fun s => loss_chunks (ps s)) ;;
  match l !! chunk_id with
  | Some v => ret v
  | None => raise IndexError
  end.

(** [self.loss_chunks.append(v)] *)
Definition loss_append (v : loss) : M unit :=
  modify (with_ps (with_loss_chunks (fun l => l ++ [v]))).

(** [self.labels[phase][chunk_id]]; [self.labels] is [None] on a rank that is
    neither first nor last. *)
Definition labels_at (phase : bool) (chunk_id : nat) : M tensors :=
  lbls <- gets (fun s => labels (ps s)) ;;
  lbls <- need lbls ;;
  match get2 lbls phase !! chunk_id with
  | Some v => ret v
  | None => raise IndexError
  end.

(** *** WeightGradStore *)

Definition store_clear : M unit :=
  modify (with_store (fun w => MkStore (enabled w) [] [])).

Definition store_set_enabled (b : bool) : M unit :=
  modify (with_store (fun w => MkStore b (cache w) (funcs_queue w))).

Definition store_put (d : deferred) : M unit :=
  modify (with_store (fun w => MkStore (enabled w) (cache w ++ [d]) (funcs_queue w))).

Definition store_flush : M unit :=
  modify (with_store (fun w => MkStore (enabled w) [] (funcs_queue w ++ cache w))).

Definition store_pop : M unit :=
  q <- gets (fun s => funcs_queue (store s)) ;;
  match q with
  | [] => raise (AssertionError PopNonEmpty)
  | _ :: q' =>
      modify (with_store (fun w => MkStore (enabled w) (cache w) q')) ;;
      emit EWeight
  end.

(** The backward pass of a shard (through [loss.backward], [run_backward] or
    the fused operation): it defers the weight gradients of its chunk while
    the store is enabled, and computes them at once otherwise. *)
Definition backward_pass (phase : bool) (chunk_id : nat) : M unit :=
  on <- gets (fun s => enabled (store s)) ;;
  when on (store_put (Deferred phase chunk_id)).

(** *** Transport *)

(** Modelled from the spec: [comm.append_irecv] and [comm.append_isend] of
    [dualpipe/comm.py], which is not part of the sources at hand.  Each adds a
    descriptor to the pending list without blocking; the receive returns the
    buffers it allocated. *)
Definition append_irecv (src : option Z) : M tensors :=
  let buffers := Received src in
  modify (with_ps (with_comm_ops (fun ops => ops ++ [MkP2POp false src buffers]))) ;;
  emit (EIrecv src) ;;
  ret buffers.

Definition append_isend (payload : option tensors) (dst : option Z) : M unit :=
  t <- need payload ;;
  modify (with_ps (with_comm_ops (fun ops => ops ++ [MkP2POp true dst t]))) ;;
  emit (EIsend dst).

(** Modelled from the spec: [scatter] of [dualpipe/utils.py], which is not
    part of the sources at hand; it splits a batch into the requested number
    of sub-batches. *)
Definition scatter (num_chunks : Z) : list tensors :=
  map Microbatch (seq 0 (Z.to_nat num_chunks)).

(** ** The methods of [DualPipe] *)

Section Methods.

Variable T : topology.

Definition physical (phase : bool) : bool := xorb phase (is_in_second_half T).

(** [phase] is a physical phase in the next two. *)
Definition is_first_stage (phase : bool) : bool :=
  (is_first_rank T && negb phase) || (is_last_rank T && phase).

Definition is_last_stage (phase : bool) : bool :=
  (is_first_rank T && phase) || (is_last_rank T && negb phase).

Definition _reset_states : M unit :=
  store_clear ;;
  modify (with_ps (fun _ =>
    {| chunks := MkQueues (both []) (both []) (both []) (both []);
       labels := None;
       loss_chunks := [];
       criterion := None;
       ids := MkCursors (both 0) (both 0) (both 0) (both 0) (both 0) (both 0);
       comm_ops := [];
       to_free := [] |})).

Definition _forward_compute_chunk (phase : bool) : M unit :=
  let phase := physical phase in
  chunk_id <- cursor_of CF phase ;;
  incr CF phase ;;
  inputs <- q_index QInput phase chunk_id ;;
  fo <- gets (fun s => forward_only (attrs s)) ;;
  when fo (q_release QInput phase chunk_id) ;;
  let is_last_stage := is_last_stage phase in
  inputs <- need inputs ;;
  emit (EForward phase chunk_id) ;;
  let outputs := Outputs phase chunk_id in
  crit <- gets (fun s => criterion (ps s)) ;;
  when (is_last_stage && is_not_None crit)
    (_ <- labels_at phase chunk_id ;;
     loss_append (Loss phase chunk_id)) ;;
  ro <- gets (fun s => return_outputs (attrs s)) ;;
  when (negb is_last_stage || ro) (q_append QOutput phase outputs).

Definition _backward_compute_chunk (phase : bool) (enable_zb : bool) : M unit :=
  fo <- gets (fun s => forward_only (attrs s)) ;;
  if fo then ret tt else
  let phase := physical phase in
  chunk_id <- cursor_of CB phase ;;
  incr CB phase ;;
  let is_last_stage := is_last_stage phase in
  store_set_enabled enable_zb ;;
  (if is_last_stage then
     _ <- loss_at chunk_id ;;
     backward_pass phase chunk_id
   else
     outputs <- q_index QOutput phase chunk_id ;;
     ro <- gets (fun s => return_outputs (attrs s)) ;;
     when (negb ro) (q_release QOutput phase chunk_id) ;;
     output_grads <- q_index QOutputGrad phase chunk_id ;;
     q_release QOutputGrad phase chunk_id ;;
     _ <- need outputs ;;
     _ <- need output_grads ;;
     backward_pass phase chunk_id) ;;
  emit (EBackward phase chunk_id enable_zb) ;;
  store_set_enabled false ;;
  when enable_zb store_flush ;;
  inputs <- q_index QInput phase chunk_id ;;
  q_release QInput phase chunk_id ;;
  _ <- need inputs ;;
  q_append QInputGrad phase (Grads phase chunk_id).

(** Lines 158-210: the fused computation through the shards' own
    [overlaped_forward_backward]. *)
Definition fused_compute_chunk (phase0 phase1 : bool) : M unit :=
  (* pre-forward *)
  let phase0 := physical phase0 in
  chunk_id0 <- cursor_of CF phase0 ;;
  incr CF phase0 ;;
  inputs0 <- q_index QInput phase0 chunk_id0 ;;
  let is_last_stage0 := is_last_stage phase0 in
  crit <- gets (fun s => criterion (ps s)) ;;
  when (is_last_stage0 && is_not_None crit)
    (_ <- labels_at phase0 chunk_id0 ;; ret tt) ;;
  (* pre-backward *)
  let phase1 := physical phase1 in
  chunk_id1 <- cursor_of CB phase1 ;;
  incr CB phase1 ;;
  let is_last_stage1 := is_last_stage phase1 in
  (if is_last_stage1 then
     _ <- loss_at chunk_id1 ;; ret tt
   else
     outputs1 <- q_index QOutput phase1 chunk_id1 ;;
     ro <- gets (fun s => return_outputs (attrs s)) ;;
     when (negb ro) (q_release QOutput phase1 chunk_id1) ;;
     output_grads1 <- q_index QOutputGrad phase1 chunk_id1 ;;
     q_release QOutputGrad phase1 chunk_id1 ;;
     _ <- need outputs1 ;;
     _ <- need output_grads1 ;;
     ret tt) ;;
  (* forward & backward *)
  _ <- need inputs0 ;;
  backward_pass phase1 chunk_id1 ;;
  emit (EFused phase0 chunk_id0 phase1 chunk_id1) ;;
  let outputs0 := Outputs phase0 chunk_id0 in
  (* post-forward *)
  ro <- gets (fun s => return_outputs (attrs s)) ;;
  when (negb is_last_stage0 || ro) (q_append QOutput phase0 outputs0) ;;
  when (is_last_stage0 && is_not_None crit)
    (loss_append (Loss phase0 chunk_id0)) ;;
  (* post-backward *)
  inputs <- q_index QInput phase1 chunk_id1 ;;
  q_release QInput phase1 chunk_id1 ;;
  _ <- need inputs ;;
  q_append QInputGrad phase1 (Grads phase1 chunk_id1).

Definition _forward_backward_compute_chunk (phase0 phase1 : bool) : M unit :=
  fo <- gets (fun s => forward_only (attrs s)) ;;
  if fo then _forward_compute_chunk phase0 else
  if negb (overlaped_forward_backward T) then
    _forward_compute_chunk phase0 ;;
    _backward_compute_chunk phase1 false
  else fused_compute_chunk phase0 phase1.

Definition _free_tensors : M unit :=
  modify (with_ps (with_to_free (fun _ => []))).

Definition _commit_and_wait_comm : M unit :=
  ops <- gets (fun s => comm_ops (ps s)) ;;
  match ops with
  | [] => ret tt
  | _ =>
      emit (ECommit (length ops)) ;;
      modify (with_ps (with_comm_ops (fun _ => []))) ;;
      _free_tensors
  end.

Definition _recv_forward (phase : bool) : M unit :=
  let phase := physical phase in
  if is_first_stage phase then ret tt else
  incr CRecvF phase ;;
  let prev_or_next := if negb phase then prev_rank T else next_rank T in
  tensors <- append_irecv prev_or_next ;;
  q_append QInput phase tensors.

Definition _send_forward (phase : bool) : M unit :=
  let phase := physical phase in
  if is_last_stage phase then ret tt else
  chunk_id <- cursor_of CSendF phase ;;
  incr CSendF phase ;;
  tensors <- q_index QOutput phase chunk_id ;;
  append_isend tensors (if negb phase then next_rank T else prev_rank T) ;;
  ro <- gets (fun s => return_outputs (attrs s)) ;;
  when (negb ro)
    (t <- need tensors ;; modify (with_ps (with_to_free (fun l => l ++ [t])))).

Definition _recv_backward (phase : bool) : M unit :=
  fo <- gets (fun s => forward_only (attrs s)) ;;
  if fo then ret tt else
  let phase := physical phase in
  if is_last_stage phase then ret tt else
  incr CRecvB phase ;;
  tensors <- append_irecv (if negb phase then next_rank T else prev_rank T) ;;
  q_append QOutputGrad phase tensors.

Definition _send_backward (phase : bool) : M unit :=
  fo <- gets (fun s => forward_only (attrs s)) ;;
  if fo then ret tt else
  let phase := physical phase in
  if is_first_stage phase then ret tt else
  chunk_id <- cursor_of CSendB phase ;;
  incr CSendB phase ;;
  tensors <- q_index QInputGrad phase chunk_id ;;
  q_release QInputGrad phase chunk_id ;;
  append_isend tensors (if negb phase then prev_rank T else next_rank T).

Definition _forward_chunk (phase : bool) (recv send : bool) : M unit :=
  when recv (_recv_forward phase) ;;
  _commit_and_wait_comm ;;
  _forward_compute_chunk phase ;;
  when send (_send_forward phase).

Definition _backward_chunk (phase : bool) (enable_zb recv send : bool)
    : M unit :=
  when recv (_recv_backward phase) ;;
  _commit_and_wait_comm ;;
  _backward_compute_chunk phase enable_zb ;;
  when send (_send_backward phase).

Definition _forward_backward_chunk (phase0 phase1 : bool) (recv0 : bool)
    : M unit :=
  when recv0 (_recv_forward phase0) ;;
  _recv_backward phase1 ;;
  _commit_and_wait_comm ;;
  _forward_backward_compute_chunk phase0 phase1 ;;
  _send_forward phase0 ;;
  _send_backward phase1.

Definition _weight_chunk : M unit :=
  fo <- gets (fun s => forward_only (attrs s)) ;;
  if fo then ret tt else
  _commit_and_wait_comm ;;
  store_pop.

(** *** [step] *)

(** Lines 371-387: the checks, with the attributes assigned between them. *)
Definition validate (grad_enabled : bool) (num_chunks : Z)
    (crit : option callable) (ret_outputs : bool) : M unit :=
  configured <- gets p2p_configured ;;
  assert configured P2PConfigSet ;;
  modify (with_attrs (fun a =>
    MkAttrs (negb grad_enabled) ret_outputs (num_half_ranks a) (half_rank a))) ;;
  let rank := rank T in
  let num_ranks := num_ranks T in
  assert (num_ranks mod 2 =? 0)%Z RanksEven ;;
  assert ((0 <? num_chunks)%Z && (num_chunks mod 2 =? 0)%Z
          && (num_ranks * 2 <=? num_chunks)%Z) ChunksValid ;;
  let num_half_ranks := (num_ranks / 2)%Z in
  let half_rank := Z.min rank (num_ranks - 1 - rank) in
  modify (with_attrs (fun a =>
    MkAttrs (forward_only a) (return_outputs a) num_half_ranks half_rank)) ;;
  fo <- gets (fun s => forward_only (attrs s)) ;;
  when (negb fo && (is_first_rank T || is_last_rank T))
    (assert (is_not_None crit) CriterionGiven).

(** Lines 390-403: reset, then hand the micro-batches to the chunk stores. *)
Definition prepare (num_chunks : Z) (crit : option callable) : M unit :=
  let half_num_chunks := (num_chunks / 2)%Z in
  _reset_states ;;
  let inputs := scatter half_num_chunks in
  let lbls := scatter half_num_chunks in
  (if is_first_rank T then
     modify (with_ps (fun p =>
       MkPerStep (q_set QInput (Two (map Some inputs) []) (chunks p))
         (Some (Two [] lbls)) (loss_chunks p) (criterion p) (ids p)
         (comm_ops p) (to_free p)))
   else if is_last_rank T then
     modify (with_ps (fun p =>
       MkPerStep (q_set QInput (Two [] (map Some inputs)) (chunks p))
         (Some (Two lbls [])) (loss_chunks p) (criterion p) (ids p)
         (comm_ops p) (to_free p)))
   else ret tt) ;;
  modify (with_ps (fun p =>
    MkPerStep (chunks p) (labels p) (loss_chunks p) crit (ids p)
      (comm_ops p) (to_free p))).

(** [for i in range(bound)], with the iteration recorded as the source logs
    it. *)
Definition loop (k : nat) (bound : Z) (body : Z -> M unit) : M unit :=
  for_each (range bound) (fun i => emit (EStepIter k i) ;; body i).

(** Step 1: nF0 *)
Definition phase_1 (step_1 : Z) : M unit :=
  loop 1 step_1 (fun _ => _forward_chunk false true true).

(** Step 2: nF0F1 *)
Definition phase_2 (step_2 : Z) : M unit :=
  _recv_forward false ;;
  loop 2 step_2 (fun i =>
    _forward_chunk false false (is_middle_rank T) ;;
    _recv_forward false ;;
    _forward_chunk true true (negb (is_middle_rank T) || (i <? step_2 - 1)%Z) ;;
    when (negb (is_middle_rank T)) (_send_forward false)).

(** Step 3: nB1W1F1 (use zero bubble) *)
Definition phase_3 (step_3 : Z) : M unit :=
  loop 3 step_3 (fun _ =>
    _backward_chunk true true true true ;;
    _recv_forward true ;;
    _weight_chunk ;;
    _forward_chunk true false true).

(** Step 4 (main step): nF0B1F1B0 *)
Definition phase_4 (step_4 : Z) : M unit :=
  loop 4 step_4 (fun i =>
    (if (i =? 0)%Z then
       if is_middle_rank T then
         _forward_chunk false false false ;;
         _send_forward true ;;
         _backward_chunk true false true false ;;
         _send_forward false ;;
         _send_backward true
       else _forward_backward_chunk false true false
     else _forward_backward_chunk false true true) ;;
    _forward_backward_chunk true false true).

(** Step 5: nB1F1B0 *)
Definition phase_5 (step_5 : Z) : M unit :=
  loop 5 step_5 (fun _ =>
    _backward_chunk true false true true ;;
    _forward_backward_chunk true false true).

(** Step 6: nB1B0 (the second half of the chunks use zero bubble) *)
Definition phase_6 (step_6 half_rank : Z) : M unit :=
  _ <- for_each_with (range step_6) false (fun i enable_zb =>
    emit (EStepIter 6 i) ;;
    let enable_zb :=
      if (i =? step_6 / 2)%Z && (half_rank mod 2 =? 1)%Z then true
      else enable_zb in
    _backward_chunk true enable_zb true true ;;
    let enable_zb :=
      if (i =? step_6 / 2)%Z && (half_rank mod 2 =? 0)%Z then true
      else enable_zb in
    _backward_chunk false enable_zb true true ;;
    ret enable_zb) ;;
  ret tt.

(** Step 7: nWB0 (use zero bubble) *)
Definition phase_7 (step_7 : Z) : M unit :=
  loop 7 step_7 (fun _ =>
    _weight_chunk ;;
    _backward_chunk false true true true).

(** Step 8: nW *)
Definition phase_8 (step_8 : Z) : M unit :=
  loop 8 step_8 (fun _ => _weight_chunk).

(** Lines 406-510. *)
Definition schedule (num_chunks : Z) : M unit :=
  let rank := rank T in
  let num_ranks := num_ranks T in
  let num_half_ranks := (num_ranks / 2)%Z in
  let half_rank := Z.min rank (num_ranks - 1 - rank) in
  let half_num_chunks := (num_chunks / 2)%Z in
  phase_1 ((num_half_ranks - half_rank - 1) * 2)%Z ;;
  phase_2 (half_rank + 1)%Z ;;
  phase_3 (num_half_ranks - half_rank - 1)%Z ;;
  phase_4 (half_num_chunks - num_ranks + half_rank + 1)%Z ;;
  phase_5 (num_half_ranks - half_rank - 1)%Z ;;
  phase_6 (half_rank + 1)%Z half_rank ;;
  phase_7 (num_half_ranks - half_rank - 1)%Z ;;
  phase_8 (half_rank + 1)%Z.

(** Lines 512-531: the final assertion, the last commit, the results and the
    reset. *)
Definition finish (crit : option callable) (ret_outputs : bool)
    : M (option (list loss) * option (list (option tensors))) :=
  q <- gets (fun s => funcs_queue (store s)) ;;
  assert (bool_decide (q = [])) QueueEmptyAtEnd ;;
  _commit_and_wait_comm ;;
  s <- gets (fun s => s) ;;
  let on_end := is_first_rank T || is_last_rank T in
  let loss :=
    if on_end && is_not_None crit then Some (loss_chunks (ps s)) else None in
  let outputs :=
    if on_end && ret_outputs
    then Some (get2 (output_chunks (chunks (ps s))) (is_first_rank T))
    else None in
  _reset_states ;;
  ret (loss, outputs).

Definition step (grad_enabled : bool) (num_chunks : Z)
    (crit : option callable) (ret_outputs : bool)
    : M (option (list loss) * option (list (option tensors))) :=
  validate grad_enabled num_chunks crit ret_outputs ;;
  prepare num_chunks crit ;;
  schedule num_chunks ;;
  finish crit ret_outputs.

End Methods.

Arguments physical T phase : simpl never.

(** ** Reading the event log *)

(** The loop iterations that were started, in order. *)
Definition marks_of (l : list event) : list (nat * Z) :=
  flat_map (fun e => match e with EStepIter k i => [(k, i)] | _ => [] end) l.

(** How many iterations of the loop of "Step k" were started. *)
Definition iterations (k : nat) (l : list event) : nat :=
  length (List.filter (fun m => Nat.eqb (fst m) k) (marks_of l)).

(** The step whose loop body is running after the events [l], from [cur]. *)
Fixpoint last_step (cur : nat) (l : list event) : nat :=
  match l with
  | [] => cur
  | EStepIter k _ :: l' => last_step k l'
  | _ :: l' => last_step cur l'
  end.

(** The backward computations run inside the loop of "Step k": their
    physical phase and the value given to [WeightGradStore.enabled]. *)
Fixpoint backwards_of (k cur : nat) (l : list event) : list (bool * bool) :=
  match l with
  | [] => []
  | EStepIter k' _ :: l' => backwards_of k k' l'
  | EBackward p _ zb :: l' =>
      (if Nat.eqb cur k then [(p, zb)] else []) ++ backwards_of k cur l'
  | _ :: l' => backwards_of k cur l'
  end.

(** The peers of the descriptors that were posted. *)
Definition peers_of (l : list event) : list (option Z) :=
  flat_map (fun e => match e with
                     | EIrecv p => [p]
                     | EIsend p => [p]
                     | _ => []
                     end) l.

(** ** The cursor ordering that the schedule keeps *)

Section Ordering.

Variable T : topology.

(** On a physical phase: nothing is sent before it is computed; a forward
    chunk is computed after it is received unless the phase is the first stage
    of the rank, where nothing is received; a backward chunk is computed after
    its output gradient is received unless the phase is the last stage, where
    none is received; and nothing is sent forward from a last stage nor
    backward from a first stage. *)
Definition cursors_ok (cs : cursors) : Prop :=
  forall p : bool,
    get2 (current_send_f_chunk_id cs) p <= get2 (current_f_chunk_id cs) p
    /\ get2 (current_send_b_chunk_id cs) p <= get2 (current_b_chunk_id cs) p
    /\ (if is_first_stage T p
        then get2 (current_recv_f_chunk_id cs) p = 0
             /\ get2 (current_send_b_chunk_id cs) p = 0
        else get2 (current_f_chunk_id cs) p
             <= get2 (current_recv_f_chunk_id cs) p)
    /\ (if is_last_stage T p
        then get2 (current_recv_b_chunk_id cs) p = 0
             /\ get2 (current_send_f_chunk_id cs) p = 0
        else get2 (current_b_chunk_id cs) p
             <= get2 (current_recv_b_chunk_id cs) p).

End Ordering.

(** ** Assertions on states *)

(** Total correctness: from a state satisfying [P], the computation returns
    normally, in a state satisfying [Q]. *)
Definition hoare {A} (P : state -> Prop) (m : M A) (Q : A -> state -> Prop)
    : Prop :=
  forall s, P s -> exists a s', m s = (Ok a, s') /\ Q a s'.

(** An invariant kept by a computation whether it returns or raises. *)
Definition preserves {A} (I : state -> Prop) (m : M A) : Prop :=
  forall s, I s -> I (snd (m s)).

(** The facts about a topology that the schedule relies on. *)
Record topo_ok (T : topology) : Prop := {
  tk_even : (num_ranks T mod 2 = 0)%Z;
  tk_rank : (0 <= rank T < num_ranks T)%Z;
  tk_first : is_first_rank T = (rank T =? 0)%Z;
  tk_last : is_last_rank T = (rank T =? num_ranks T - 1)%Z;
  tk_half : is_in_second_half T = (num_ranks T / 2 <=? rank T)%Z;
  tk_middle :
    is_middle_rank T
    = (2 <? num_ranks T)%Z
      && ((rank T =? num_ranks T / 2 - 1)%Z || (rank T =? num_ranks T / 2)%Z)
}.

(** A rank at either end of the pipeline. *)
Definition is_end (T : topology) : bool := is_first_rank T || is_last_rank T.

(** Cursors seen by logical direction: the two components are swapped in the
    second half. *)
Definition swap2 {A} (b : bool) (t : two A) : two A :=
  if b then Two (at1 t) (at0 t) else t.

Definition lview (T : topology) (cs : cursors) : cursors :=
  let sw := @swap2 nat (is_in_second_half T) in
  MkCursors (sw (current_f_chunk_id cs)) (sw (current_b_chunk_id cs))
    (sw (current_send_f_chunk_id cs)) (sw (current_send_b_chunk_id cs))
    (sw (current_recv_f_chunk_id cs)) (sw (current_recv_b_chunk_id cs)).

(** [cursors_ok] by logical direction: direction 0 enters at an end rank,
    direction 1 leaves there. *)
Definition lcursors_ok (e : bool) (cs : cursors) : Prop :=
  match cs with
  | MkCursors (Two f0 f1) (Two b0 b1) (Two sf0 sf1) (Two sb0 sb1)
      (Two rf0 rf1) (Two rb0 rb1) =>
      sf0 <= f0 /\ sf1 <= f1 /\ sb0 <= b0 /\ sb1 <= b1
      /\ f1 <= rf1 /\ b0 <= rb0
      /\ (if e then rf0 = 0 /\ sb0 = 0 /\ rb1 = 0 /\ sf1 = 0
          else f0 <= rf0 /\ b1 <= rb1)
  end.

(** Lengths, or first live indices, of the four chunk stores. *)
Record qnums : Type := MkQnums {
  n_input : two nat;
  n_output : two nat;
  n_input_grad : two nat;
  n_output_grad : two nat
}.

Definition qn_get (q : queue) (n : qnums) : two nat :=
  match q with
  | QInput => n_input n
  | QOutput => n_output n
  | QInputGrad => n_input_grad n
  | QOutputGrad => n_output_grad n
  end.

Definition qn_set (q : queue) (v : two nat) (n : qnums) : qnums :=
  match n with
  | MkQnums i o ig og =>
      match q with
      | QInput => MkQnums v o ig og
      | QOutput => MkQnums i v ig og
      | QInputGrad => MkQnums i o v og
      | QOutputGrad => MkQnums i o ig v
      end
  end.

(** A store of [len] slots whose slots from [from] on are not released. *)
Definition qok (l : list (option tensors)) (len from : nat) : Prop :=
  length l = len
  /\ forall i, from <= i -> i < len -> exists t, l !! i = Some (Some t).

(** The numbers that describe a state between two elementary operations, by
    logical direction. *)
Record astate : Type := MkA {
  a_ids : cursors;
  a_len : qnums;
  a_from : qnums;
  a_loss : nat;
  a_enabled : bool;
  a_cache : nat;
  a_queue : nat;
  a_marks : list (nat * Z);
  a_step : nat;
  a_bwd : list (bool * bool)
}.

(** [a'] describes the same state as [a], with less known about which slots
    are still live. *)
Definition a_le (a a' : astate) : Prop :=
  a_ids a = a_ids a' /\ a_len a = a_len a'
  /\ (forall q l, get2 (qn_get q (a_from a)) l <= get2 (qn_get q (a_from a')) l)
  /\ a_loss a = a_loss a' /\ a_enabled a = a_enabled a'
  /\ a_cache a = a_cache a' /\ a_queue a = a_queue a'
  /\ a_marks a = a_marks a' /\ a_step a = a_step a' /\ a_bwd a = a_bwd a'.

Section Representation.

Variable T : topology.
Variables (fo ro : bool) (crit : option callable) (Hn : nat).

Record Rep1 (a : astate) (s : state) : Prop := {
  r_fo : forward_only (attrs s) = fo;
  r_ro : return_outputs (attrs s) = ro;
  r_crit : criterion (ps s) = crit;
  r_ids : lview T (ids (ps s)) = a_ids a;
  r_ok : lcursors_ok (is_end T) (a_ids a);
  r_q : forall q l,
    qok (get2 (q_get q (chunks (ps s))) (physical T l))
      (get2 (qn_get q (a_len a)) l) (get2 (qn_get q (a_from a)) l);
  r_loss : length (loss_chunks (ps s)) = a_loss a;
  r_labels :
    is_end T = true ->
    exists lb, labels (ps s) = Some lb
               /\ length (get2 lb (physical T true)) = Hn;
  r_enabled : enabled (store s) = a_enabled a;
  r_cache : length (cache (store s)) = a_cache a;
  r_queue : length (funcs_queue (store s)) = a_queue a;
  r_hist : Forall (cursors_ok T) (history s);
  r_marks : marks_of (log s) = a_marks a;
  r_step : last_step 0 (log s) = a_step a;
  r_bwd : backwards_of 6 0 (log s) = a_bwd a
}.

End Representation.

(** ** The schedule, by logical direction *)

(** The state between two method calls: the cursors by logical direction, the
    length of the weight-gradient queue, and what the log shows. *)
Record sched : Type := MkS {
  s_ids : cursors;
  s_queue : nat;
  s_marks : list (nat * Z);
  s_step : nat;
  s_bwd : list (bool * bool)
}.

(** [c[l] += 1] *)
Definition bump (c : cursor) (l : bool) (cs : cursors) : cursors :=
  cur_set c (set2 (cur_get c cs) l (S (get2 (cur_get c cs) l))) cs.

Definition s_bump (c : cursor) (l : bool) (x : sched) : sched :=
  MkS (bump c l (s_ids x)) (s_queue x) (s_marks x) (s_step x) (s_bwd x).

Section Expand.

(** [e]: the rank is at an end; [fo], [ro]: forward only, return outputs;
    [crit]: the criterion; [Hn]: the number of chunks per direction. *)
Variables (e fo ro : bool) (crit : option callable) (Hn : nat).

(** Between two method calls the stores are determined by the cursors. *)
Definition expand (x : sched) : astate :=
  match s_ids x with
  | MkCursors (Two f0 f1) (Two b0 b1) (Two sf0 sf1) (Two sb0 sb1)
      (Two rf0 rf1) (Two rb0 rb1) =>
      MkA (s_ids x)
        (MkQnums (Two (if e then Hn else rf0) rf1)
                 (Two f0 (if e && negb ro then 0 else f1))
                 (Two b0 b1)
                 (Two rb0 rb1))
        (MkQnums (if fo then Two f0 f1 else Two b0 b1)
                 (if ro then Two 0 0 else Two b0 b1)
                 (Two sb0 sb1)
                 (Two b0 b1))
        (if e && is_not_None crit then f1 else 0)
        false 0 (s_queue x) (s_marks x) (s_step x) (s_bwd x)
  end.

Definition cur_at (c : cursor) (l : bool) (x : sched) : nat :=
  get2 (cur_get c (s_ids x)) l.
Definition len_at (q : queue) (l : bool) (x : sched) : nat :=
  get2 (qn_get q (a_len (expand x))) l.
Definition from_at (q : queue) (l : bool) (x : sched) : nat :=
  get2 (qn_get q (a_from (expand x))) l.

(** What each method needs in order to return. *)
Definition can_forward (l : bool) (x : sched) : Prop :=
  cur_at CF l x < len_at QInput l x
  /\ from_at QInput l x <= cur_at CF l x
  /\ (e && l = true -> cur_at CF l x < Hn).

Definition can_send_forward (l : bool) (x : sched) : Prop :=
  e && l = false ->
  cur_at CSendF l x < cur_at CF l x /\ cur_at CB l x <= cur_at CSendF l x.

Definition can_backward (l : bool) (x : sched) : Prop :=
  fo = false ->
  (if e && l then is_not_None crit = true /\ cur_at CB l x < cur_at CF l x
   else cur_at CB l x < cur_at CF l x /\ cur_at CB l x < cur_at CRecvB l x)
  /\ cur_at CB l x < len_at QInput l x.

Definition can_send_backward (l : bool) (x : sched) : Prop :=
  fo = false -> e && negb l = false -> cur_at CSendB l x < cur_at CB l x.

(** What each method does. *)
Definition after_recv_forward (l : bool) (x : sched) : sched :=
  if e && negb l then x else s_bump CRecvF l x.

Definition after_send_forward (l : bool) (x : sched) : sched :=
  if e && l then x else s_bump CSendF l x.

Definition after_recv_backward (l : bool) (x : sched) : sched :=
  if fo || (e && l) then x else s_bump CRecvB l x.

Definition after_send_backward (l : bool) (x : sched) : sched :=
  if fo || (e && negb l) then x else s_bump CSendB l x.

Definition after_forward (l : bool) (x : sched) : sched := s_bump CF l x.

Definition after_backward (p : bool) (l zb : bool) (x : sched) : sched :=
  if fo then x
  else MkS (bump CB l (s_ids x)) (if zb then S (s_queue x) else s_queue x)
         (s_marks x) (s_step x)
         (if Nat.eqb (s_step x) 6 then s_bwd x ++ [(p, zb)] else s_bwd x).

(** [ov]: the shards have the fused operation. *)
Definition after_forward_backward (ov : bool) (p1 : bool) (l0 l1 : bool)
    (x : sched) : sched :=
  if fo then s_bump CF l0 x
  else MkS (bump CB l1 (bump CF l0 (s_ids x))) (s_queue x) (s_marks x)
         (s_step x)
         (if ov then s_bwd x
          else if Nat.eqb (s_step x) 6 then s_bwd x ++ [(p1, false)]
               else s_bwd x).

Definition can_weight (x : sched) : Prop := fo = false -> 0 < s_queue x.

Definition after_weight (x : sched) : sched :=
  if fo then x
  else MkS (s_ids x) (Nat.pred (s_queue x)) (s_marks x) (s_step x) (s_bwd x).

Definition after_mark (k : nat) (i : Z) (x : sched) : sched :=
  MkS (s_ids x) (s_queue x) (s_marks x ++ [(k, i)]) k (s_bwd x).

End Expand.

(** The invariant between two method calls. *)
Definition Rep (T : topology) (fo ro : bool) (crit : option callable)
    (Hn : nat) (x : sched) (s : state) : Prop :=
  Rep1 T fo ro crit Hn (expand (is_end T) fo ro crit Hn x) s.

(** ** The invariants of the eight loops *)

Definition cur12 (f0 f1 b0 b1 sf0 sf1 sb0 sb1 rf0 rf1 rb0 rb1 : nat) : cursors :=
  MkCursors (Two f0 f1) (Two b0 b1) (Two sf0 sf1) (Two sb0 sb1)
    (Two rf0 rf1) (Two rb0 rb1).

(** The iterations [(k, 0) .. (k, i-1)] of the loop of "Step k". *)
Definition marks_upto (k : nat) (i : nat) : list (nat * Z) :=
  map (pair k) (range (Z.of_nat i)).

Section Invariants.

(** [n]: half the number of ranks; [h]: the half rank; [c = n - h - 1];
    [d = Hn - 2n + h + 1]; [mid = (h + 1) / 2]; [e], [m]: end rank, middle
    rank; [fo]: forward only; [p1], [p0]: the physical phases of directions 1
    and 0. *)
Variables (n h c d mid : nat) (e m fo odd : bool) (p0 p1 : bool).

Definition z (v : nat) : nat := if e then 0 else v.
Definition t (v : nat) : nat := if fo then 0 else v.

Definition after_step (k : nat) (st0 : nat) (i : nat) : nat :=
  match i with 0 => st0 | S _ => k end.

Definition inv_1 (M : list (nat * Z)) (st0 : nat) (bw : list (bool * bool))
    (i : nat) : sched :=
  MkS (cur12 i 0 0 0 i 0 0 0 (z i) 0 0 0) 0
    (M ++ marks_upto 1 i) (after_step 1 st0 i) bw.

Definition inv_2 (M : list (nat * Z)) (st0 : nat) (bw : list (bool * bool))
    (i : nat) : sched :=
  MkS (cur12 (2 * c + i) i 0 0
         (2 * c + i) (z (if m then Nat.min i h else i)) 0 0
         (z (2 * c + i + 1)) i 0 0) 0
    (M ++ marks_upto 2 i) (after_step 2 st0 i) bw.

Definition inv_3 (M : list (nat * Z)) (st0 : nat) (bw : list (bool * bool))
    (i : nat) : sched :=
  MkS (cur12 (2 * c + h + 1) (h + 1 + i) 0 (t i)
         (2 * c + h + 1) (z ((if m then h else h + 1) + i)) 0 (t i)
         (z (2 * c + h + 2)) (h + 1 + i) 0 (t (z i))) 0
    (M ++ marks_upto 3 i) (after_step 3 st0 i) bw.

Definition inv_4 (M : list (nat * Z)) (st0 : nat) (bw : list (bool * bool))
    (i : nat) : sched :=
  MkS (cur12 (2 * c + h + 1 + i) (n + i) (t i) (t (c + i))
         (2 * c + h + 1 + i)
         (z (if m then h + i + Nat.min i 1 else n + i))
         (t (z i)) (t (c + i))
         (z (2 * c + h + 1 + Nat.max i 1)) (n + i) (t i) (t (z (c + i)))) 0
    (M ++ marks_upto 4 i) (after_step 4 st0 i) bw.

Definition inv_5 (M : list (nat * Z)) (st0 : nat) (bw : list (bool * bool))
    (i : nat) : sched :=
  MkS (cur12 (2 * c + h + 1 + d) (n + d + i) (t (d + i)) (t (c + d + i))
         (2 * c + h + 1 + d) (z (n + d + i)) (t (z (d + i))) (t (c + d + i))
         (z (2 * c + h + 1 + d)) (n + d + i) (t (d + i)) (t (z (c + d + i)))) 0
    (M ++ marks_upto 5 i) (after_step 5 st0 i) bw.

(** Whether zero bubble is on for the backward of direction 1, and of
    direction 0, in iteration [j] of step 6. *)
Definition zb_1 (j : nat) : bool := if odd then mid <=? j else mid <? j.
Definition zb_0 (j : nat) : bool := mid <=? j.

Definition bwd_6 (i : nat) : list (bool * bool) :=
  flat_map (fun j => [(p1, zb_1 j); (p0, zb_0 j)]) (seq 0 i).

Definition inv_6 (M : list (nat * Z)) (st0 : nat) (bw : list (bool * bool))
    (i : nat) : sched :=
  MkS (cur12 (2 * c + h + 1 + d) (n + d + c) (t (d + c + i)) (t (2 * c + d + i))
         (2 * c + h + 1 + d) (z (n + d + c)) (t (z (d + c + i))) (t (2 * c + d + i))
         (z (2 * c + h + 1 + d)) (n + d + c) (t (d + c + i)) (t (z (2 * c + d + i))))
    (t ((i - mid) + (i - (mid + (if odd then 0 else 1)))))
    (M ++ marks_upto 6 i) (after_step 6 st0 i)
    (if fo then bw else bw ++ bwd_6 i).

Definition inv_7 (M : list (nat * Z)) (st0 : nat) (bw : list (bool * bool))
    (i : nat) : sched :=
  MkS (cur12 (2 * c + h + 1 + d) (n + d + c)
         (t (d + c + h + 1 + i)) (t (2 * c + d + h + 1))
         (2 * c + h + 1 + d) (z (n + d + c))
         (t (z (d + c + h + 1 + i))) (t (2 * c + d + h + 1))
         (z (2 * c + h + 1 + d)) (n + d + c)
         (t (d + c + h + 1 + i)) (t (z (2 * c + d + h + 1))))
    (t (h + 1))
    (M ++ marks_upto 7 i) (after_step 7 st0 i) bw.

Definition inv_8 (M : list (nat * Z)) (st0 : nat) (bw : list (bool * bool))
    (i : nat) : sched :=
  MkS (cur12 (2 * c + h + 1 + d) (n + d + c)
         (t (d + 2 * c + h + 1)) (t (2 * c + d + h + 1))
         (2 * c + h + 1 + d) (z (n + d + c))
         (t (z (d + 2 * c + h + 1))) (t (2 * c + d + h + 1))
         (z (2 * c + h + 1 + d)) (n + d + c)
         (t (d + 2 * c + h + 1)) (t (z (2 * c + d + h + 1))))
    (t (h + 1 - i))
    (M ++ marks_upto 8 i) (after_step 8 st0 i) bw.

End Invariants.

(** The marks left by the eight loops. *)
Definition all_marks (c h d : nat) : list (nat * Z) :=
  (((((((([] ++ marks_upto 1 (2 * c)) ++ marks_upto 2 (h + 1))
        ++ marks_upto 3 c) ++ marks_upto 4 d) ++ marks_upto 5 c)
     ++ marks_upto 6 (h + 1)) ++ marks_upto 7 c) ++ marks_upto 8 (h + 1)).

(** ** The parameters of a step *)

(** The schedule parameters of a rank, as natural numbers. *)
Definition half_ranks (T : topology) : nat := Z.to_nat (num_ranks T / 2).
Definition half_rank_of (T : topology) : nat :=
  Z.to_nat (Z.min (rank T) (num_ranks T - 1 - rank T)).
Definition half_chunks (num_chunks : Z) : nat := Z.to_nat (num_chunks / 2).

(** [num_half_ranks - half_rank - 1], the bound of steps 3, 5 and 7. *)
Definition ramp (T : topology) : nat := half_ranks T - half_rank_of T - 1.

(** [half_num_chunks - num_ranks + half_rank + 1], the bound of step 4. *)
Definition steady (T : topology) (num_chunks : Z) : nat :=
  half_chunks num_chunks + half_rank_of T + 1 - 2 * half_ranks T.

(** What [step] accepts. *)
Definition valid_chunks (T : topology) (num_chunks : Z) : Prop :=
  (0 < num_chunks)%Z /\ (num_chunks mod 2 = 0)%Z
  /\ (num_ranks T * 2 <= num_chunks)%Z.

(** A state in which a step can start: the transport is configured, the store
    is not left enabled, and nothing has been recorded yet. *)
Definition ready (s : state) : Prop :=
  p2p_configured s = true /\ enabled (store s) = false
  /\ log s = [] /\ history s = [].

(** The cursors, by logical direction, when phase 8 is over. *)
Definition final_ids (T : topology) (fo : bool) (num_chunks : Z) : cursors :=
  s_ids (inv_8 (half_ranks T) (half_rank_of T) (ramp T) (steady T num_chunks)
           (is_end T) fo [] 0 [] (half_rank_of T + 1)).

(** The state when phase 8 is over. *)
Definition final_sched (T : topology) (fo : bool) (num_chunks : Z) : sched :=
  MkS (final_ids T fo num_chunks) 0
    (all_marks (ramp T) (half_rank_of T) (steady T num_chunks)) 8
    (if fo then []
     else bwd_6 ((half_rank_of T + 1) / 2) (Nat.odd (half_rank_of T))
            (physical T false) (physical T true) (half_rank_of T + 1)).

(** The cursors after [_reset_states]. *)
Definition zero_ids : cursors :=
  MkCursors (both 0) (both 0) (both 0) (both 0) (both 0) (both 0).

(** [step] is the schedule followed by [finish]. *)
Definition until_finish (T : topology) (grad_enabled : bool) (num_chunks : Z)
    (crit : option callable) (ro : bool) : M unit :=
  validate T grad_enabled num_chunks crit ro ;;
  prepare T num_chunks crit ;;
  schedule T num_chunks.

(** ** What [__init__] builds *)

(** A rank mapping is an optional permutation of the ranks of the group. *)
Definition valid_mapping (group_size : Z) (rank_mapping : option (list Z))
    : Prop :=
  match rank_mapping with
  | None => True
  | Some m => Permutation m (range group_size)
  end.

(** What [__init__] guarantees, for a valid rank mapping. *)
Record init_facts (modules : shard * shard) (group_size : Z) (T : topology)
    : Prop := {
  if_ranks : num_ranks T = group_size;
  if_rank : (0 <= rank T < group_size)%Z;
  if_first : is_first_rank T = (rank T =? 0)%Z;
  if_last : is_last_rank T = (rank T =? group_size - 1)%Z;
  if_half : is_in_second_half T = (group_size / 2 <=? rank T)%Z;
  if_middle :
    is_middle_rank T
    = (2 <? group_size)%Z
      && ((rank T =? group_size / 2 - 1)%Z || (rank T =? group_size / 2)%Z);
  if_overlap :
    overlaped_forward_backward T
    = Nat.eqb (shard_class (fst modules)) (shard_class (snd modules))
      && class_has_overlap (fst modules);
  if_prev : prev_rank T = None <-> rank T = 0%Z;
  if_next : next_rank T = None <-> rank T = (group_size - 1)%Z
}.

(** Every descriptor posted so far names a peer. *)
Definition peers_named (s : state) : Prop :=
  Forall (fun p : option Z => p <> None) (peers_of (log s)).

(** ** The cursors and the counts of a completed step *)

(** The cursors of a physical phase when phase 8 is over: everything was
    computed; a first stage received nothing and sent nothing backward; a last
    stage sent nothing forward and received no gradient; a forward-only step
    did nothing backward. *)
Definition final_cursors (T : topology) (fo : bool) (Hn : nat) (cs : cursors)
    : Prop :=
  forall p : bool,
    get2 (current_f_chunk_id cs) p = Hn
    /\ get2 (current_recv_f_chunk_id cs) p
       = (if is_first_stage T p then 0 else Hn)
    /\ get2 (current_send_f_chunk_id cs) p
       = (if is_last_stage T p then 0 else Hn)
    /\ get2 (current_b_chunk_id cs) p = (if fo then 0 else Hn)
    /\ get2 (current_recv_b_chunk_id cs) p
       = (if fo || is_last_stage T p then 0 else Hn)
    /\ get2 (current_send_b_chunk_id cs) p
       = (if fo || is_first_stage T p then 0 else Hn).

(** The state of a new instance, once the transport has been configured. *)
Definition fresh_state : state :=
  MkState (MkAttrs false false 0 0)
    (MkPerStep (MkQueues (both []) (both []) (both []) (both [])) None [] None
       zero_ids [] [])
    (MkStore false [] []) true [] [].

(** The iteration counts of the spec's table (section 4.6), in order. *)
Definition claimed_counts (T : topology) (num_chunks : Z) : list Z :=
  let numHalfRanks := (num_ranks T / 2)%Z in
  let halfRank := Z.min (rank T) (num_ranks T - 1 - rank T) in
  let halfNumChunks := (num_chunks / 2)%Z in
  [ (numHalfRanks - halfRank - 1) * 2;
    halfRank + 1;
    numHalfRanks - halfRank - 1;
    halfNumChunks - num_ranks T + halfRank + 1;
    numHalfRanks - halfRank - 1;
    halfRank + 1;
    numHalfRanks - halfRank - 1;
    halfRank + 1 ]%Z.

(** The marks of loops 1, 2, ... run one after the other with the given
    numbers of iterations. *)
Definition marks_for (counts : list Z) : list (nat * Z) :=
  flat_map (fun kb => map (pair (fst kb)) (range (snd kb)))
    (combine (seq 1 (length counts)) counts).

(** The iteration counts of steps 1 to 8 that a log shows. *)
Definition counts_of (l : list event) : list Z :=
  map (fun k => Z.of_nat (iterations k l)) (seq 1 8).

(** ** Instances and the spec's own wording *)

(** [T] is what [__init__] returned for a valid rank mapping. *)
Definition constructed (modules : shard * shard) (group_size group_rank : Z)
    (rank_mapping : option (list Z)) (T : topology) : Prop :=
  valid_mapping group_size rank_mapping
  /\ DualPipe_init modules group_size group_rank rank_mapping = Ok T.

(** The criterion is supplied where a training step needs it. *)
Definition criterion_given (T : topology) (grad_enabled : bool)
    (crit : option callable) : Prop :=
  grad_enabled = true -> is_end T = true -> is_not_None crit = true.

(** Build an instance, then run one step on it. *)
Definition construct_and_step (modules : shard * shard)
    (group_size group_rank : Z) (rank_mapping : option (list Z))
    (grad_enabled : bool) (num_chunks : Z) (crit : option callable)
    (ro : bool) (s : state)
    : result (option (list loss) * option (list (option tensors))) * state :=
  match DualPipe_init modules group_size group_rank rank_mapping with
  | Ok T => step T grad_enabled num_chunks crit ro s
  | Raise e => (Raise e, s)
  end.

(** Two shards of one class, with or without the fused operation. *)
Definition twin_shards (overlap : bool) : shard * shard :=
  (MkShard 0 overlap, MkShard 0 overlap).

(** Rank 2 of 6, as [__init__] builds it with the default mapping. *)
Definition rank_2_of_6 : topology :=
  {| overlaped_forward_backward := false;
     num_ranks := 6;
     rank := 2;
     first_rank := Some 0%Z;
     prev_rank := Some 1%Z;
     next_rank := Some 3%Z;
     last_rank := Some 5%Z;
     is_first_rank := false;
     is_last_rank := false;
     is_in_second_half := false;
     is_middle_rank := true |}.

(** The ordering as the spec words it: on the given phase,
    [send <= compute <= recv] for the forward and for the backward cursors. *)
Definition claimed_order (cs : cursors) : bool :=
  forallb (fun p : bool =>
    (get2 (current_send_f_chunk_id cs) p <=? get2 (current_f_chunk_id cs) p)
    && (get2 (current_f_chunk_id cs) p <=? get2 (current_recv_f_chunk_id cs) p)
    && (get2 (current_send_b_chunk_id cs) p <=? get2 (current_b_chunk_id cs) p)
    && (get2 (current_b_chunk_id cs) p <=? get2 (current_recv_b_chunk_id cs) p))
    [false; true].

(** The final cursors as the spec words them: all six equal [Hn] on both
    phases. *)
Definition claimed_final (Hn : nat) (cs : cursors) : bool :=
  forallb (fun p : bool =>
    forallb (fun c => get2 (cur_get c cs) p =? Hn)
      [CF; CB; CSendF; CSendB; CRecvF; CRecvB])
    [false; true].

(** Rank 0 of 2, as [__init__] builds it with the default mapping. *)
Definition rank_0_of_2 (overlap : bool) : topology :=
  {| overlaped_forward_backward := overlap;
     num_ranks := 2;
     rank := 0;
     first_rank := Some 0%Z;
     prev_rank := None;
     next_rank := Some 1%Z;
     last_rank := Some 1%Z;
     is_first_rank := true;
     is_last_rank := false;
     is_in_second_half := false;
     is_middle_rank := false |}.

(** The part of [step] that runs before the schedule. *)
Definition until_schedule (T : topology) (grad_enabled : bool)
    (num_chunks : Z) (crit : option callable) (ro : bool) : M unit :=
  validate T grad_enabled num_chunks crit ro ;;
  prepare T num_chunks crit.

(** A fresh instance that finds the store left enabled, as a step that was
    interrupted during a deferring backward pass leaves it. *)
Definition stale_state : state :=
  MkState (attrs fresh_state) (ps fresh_state) (MkStore true [] []) true [] [].

(** The preconditions of [step], as the spec lists them. *)
Definition preconditions (T : topology) (grad_enabled : bool) (num_chunks : Z)
    (crit : option callable) (s : state) : bool :=
  (num_ranks T mod 2 =? 0)%Z
  && ((0 <? num_chunks)%Z && (num_chunks mod 2 =? 0)%Z
      && (num_ranks T * 2 <=? num_chunks)%Z)
  && p2p_configured s
  && (negb (grad_enabled && (is_first_rank T || is_last_rank T))
      || is_not_None crit).

Definition is_fused (e : event) : bool :=
  match e with
  | EFused _ _ _ _ => true
  | _ => false
  end.

(** Two shards of different classes that both have the fused operation. *)
Definition unlike_shards : shard * shard := (MkShard 0 true, MkShard 1 true).

(** Whether zero bubble is on for the backward pass of the given direction in
    iteration [i] of step 6, as the spec words it: off before iteration
    [(half_rank + 1) / 2], on after it, and in that iteration on for
    direction 0, and for direction 1 when [half_rank] is odd. *)
Definition claimed_zero_bubble (half_rank i : nat) (direction : bool) : bool :=
  let mid := (half_rank + 1) / 2 in
  if i <? mid then false
  else if mid <? i then true
  else if direction then Nat.odd half_rank else true.

(** Step 6 as the spec words it: [half_rank + 1] iterations of a backward of
    direction 1 and a backward of direction 0. *)
Definition phase_6_claimed (T : topology) (half_rank : nat) : M unit :=
  loop 6 (Z.of_nat half_rank + 1) (fun i =>
    _backward_chunk T true
      (claimed_zero_bubble half_rank (Z.to_nat i) true) true true ;;
    _backward_chunk T false
      (claimed_zero_bubble half_rank (Z.to_nat i) false) true true).

(** The backward passes of step 6 as the spec words them, by physical
    phase. *)
Definition claimed_backwards (T : topology) (half_rank : nat)
    : list (bool * bool) :=
  flat_map (fun i =>
    [(physical T true, claimed_zero_bubble half_rank i true);
     (physical T false, claimed_zero_bubble half_rank i false)])
    (seq 0 (half_rank + 1)).

(** Rank 1 of 4, as [__init__] builds it with the default mapping. *)
Definition rank_1_of_4 : topology :=
  {| overlaped_forward_backward := false;
     num_ranks := 4;
     rank := 1;
     first_rank := Some 0%Z;
     prev_rank := Some 0%Z;
     next_rank := Some 2%Z;
     last_rank := Some 3%Z;
     is_first_rank := false;
     is_last_rank := false;
     is_in_second_half := false;
     is_middle_rank := true |}.

(** Step 2 without the staggered sends of a middle rank. *)
Definition phase_2_plain (T : topology) (step_2 : Z) : M unit :=
  _recv_forward T false ;;
  loop 2 step_2 (fun i =>
    _forward_chunk T false false false ;;
    _recv_forward T false ;;
    _forward_chunk T true true true ;;
    _send_forward T false).

(** Step 4 without the separate first iteration of a middle rank. *)
Definition phase_4_plain (T : topology) (step_4 : Z) : M unit :=
  loop 4 step_4 (fun i =>
    (if (i =? 0)%Z then _forward_backward_chunk T false true false
     else _forward_backward_chunk T false true true) ;;
    _forward_backward_chunk T true false true).

(** ** Assertions on mappings, logs and stores *)

(** The mapping that [__init__] uses: the one given, or the identity. *)
Definition mapping_of (group_size : Z) (rank_mapping : option (list Z))
    : list Z :=
  match rank_mapping with
  | None => range group_size
  | Some m => m
  end.

(** [g] is the rank in the process group of the stage [r] of the pipeline. *)
Definition hosts (m : list Z) (group_size : Z) (g : option Z) (r : Z) : Prop :=
  exists g', g = Some g' /\ (0 <= g' < group_size)%Z /\ py_get m g' = Some r.

(** What holds of the result and of the final state if the computation
    returns from [s]. *)
Definition wp {A} (m : M A) (Q : A -> state -> Prop) (s : state) : Prop :=
  match m s with
  | (Ok a, s') => Q a s'
  | (Raise _, _) => True
  end.

(** An invariant of the calls that return. *)
Definition keeps {A} (I : state -> Prop) (m : M A) : Prop :=
  forall s, I s -> wp m (fun _ => I) s.

(** The chunks whose forward pass was computed on a physical phase, in
    order. *)
Definition forwards_of (p : bool) (l : list event) : list nat :=
  flat_map (fun e =>
    match e with
    | EForward p' c => if Bool.eqb p' p then [c] else []
    | EFused p' c _ _ => if Bool.eqb p' p then [c] else []
    | _ => []
    end) l.

(** The chunks whose backward pass was computed on a physical phase, in
    order. *)
Definition backward_ids (p : bool) (l : list event) : list nat :=
  flat_map (fun e =>
    match e with
    | EBackward p' c _ => if Bool.eqb p' p then [c] else []
    | EFused _ _ p' c => if Bool.eqb p' p then [c] else []
    | _ => []
    end) l.

(** The forward and the backward passes computed so far are those of the
    chunks below the compute cursors, each once and in order. *)
Definition each_once (s : state) : Prop :=
  forall p : bool,
    forwards_of p (log s) = seq 0 (get2 (current_f_chunk_id (ids (ps s))) p)
    /\ backward_ids p (log s)
       = seq 0 (get2 (current_b_chunk_id (ids (ps s))) p).

(** The losses that the last stage of the rank has appended when the forward
    cursors are [cs]: those of the chunks below the cursor of the physical
    phase that ends on this rank, phase 1 on the first rank and phase 0 on the
    last. *)
Definition losses_upto (T : topology) (crit : option callable) (cs : cursors)
    : list loss :=
  if is_not_None crit then
    if is_first_rank T
    then map (Loss true) (seq 0 (get2 (current_f_chunk_id cs) true))
    else if is_last_rank T
         then map (Loss false) (seq 0 (get2 (current_f_chunk_id cs) false))
         else []
  else [].

(** The outputs of the chunks [0 .. n-1] of a physical phase. *)
Definition outputs_upto (p : bool) (n : nat) : list (option tensors) :=
  map (fun i => Some (Outputs p i)) (seq 0 n).

(** What the loss and output stores hold between two method calls. *)
Definition results_inv (T : topology) (crit : option callable) (ro : bool)
    (s : state) : Prop :=
  criterion (ps s) = crit
  /\ return_outputs (attrs s) = ro
  /\ loss_chunks (ps s) = losses_upto T crit (ids (ps s))
  /\ (ro = true ->
      forall p : bool,
        get2 (output_chunks (chunks (ps s))) p
        = outputs_upto p (get2 (current_f_chunk_id (ids (ps s))) p)).



(** The events of a training step only: a backward pass, alone or fused, and
    a deferred weight-gradient computation. *)
Definition is_training_event (e : event) : bool :=
  match e with
  | EBackward _ _ _ | EFused _ _ _ _ | EWeight => true
  | _ => false
  end.

(** The training events logged are [l] and the switch of the weight-gradient
    store is [en]. *)
Definition untrained (l : list event) (en : bool) (s : state) : Prop :=
  List.filter is_training_event (log s) = l /\ enabled (store s) = en.

(** The same, in forward-only mode. *)
Definition forward_only_with (l : list event) (en : bool) (s : state) : Prop :=
  forward_only (attrs s) = true /\ untrained l en s.

(** Two states of the same instance: they differ at most in what was
    recorded about the run (the log and the cursor history). *)
Definition same_instance (s s' : state) : Prop :=
  attrs s = attrs s' /\ ps s = ps s' /\ store s = store s'
  /\ p2p_configured s = p2p_configured s'.

(** A computation whose result and effect do not depend on the records. *)
Definition unobserved {A} (m : M A) : Prop :=
  forall s s', same_instance s s' ->
    fst (m s) = fst (m s') /\ same_instance (snd (m s)) (snd (m s')).

(** What a step does not reset: the configuration of the transport and the
    switch of the weight-gradient store. *)
Definition same_setup (s s' : state) : Prop :=
  p2p_configured s = p2p_configured s'
  /\ enabled (store s) = enabled (store s').

(** A state as a step can find it: everything is left over from an earlier
    use. *)
Definition littered_state : state :=
  MkState (MkAttrs true true 7 3)
    (MkPerStep
       (MkQueues (Two [Some (Microbatch 5)] []) (both [None])
          (both []) (Two [] [Some (Grads true 2)]))
       (Some (Two [] [Microbatch 1])) [Loss false 4] (Some 9)
       (MkCursors (Two 3 1) (Two 2 0) (both 1) (both 0) (Two 0 4) (both 2))
       [MkP2POp true (Some 1%Z) (Outputs false 0)] [Outputs false 0])
    (MkStore false [Deferred false 0] [Deferred true 1]) true
    [EWeight] [zero_ids].

(** How many descriptors were posted. *)
Definition posted (l : list event) : nat := length (peers_of l).

(** How many descriptors were handed to [dist.batch_isend_irecv]. *)
Definition committed (l : list event) : nat :=
  list_sum (flat_map (fun e => match e with ECommit n => [n] | _ => [] end) l).

(** The send and receive cursors, added up. *)
Definition transfers (cs : cursors) : nat :=
  match cs with
  | MkCursors _ _ (Two sf0 sf1) (Two sb0 sb1) (Two rf0 rf1) (Two rb0 rb1) =>
      sf0 + sf1 + sb0 + sb1 + rf0 + rf1 + rb0 + rb1
  end.

(** Every descriptor posted is either committed or pending, and there is one
    for each advance of a send or receive cursor. *)
Definition comm_inv (s : state) : Prop :=
  posted (log s) = committed (log s) + length (comm_ops (ps s))
  /\ posted (log s) = transfers (ids (ps s)).


(** Reading a log from left to right with [k] deferred weight gradients
    waiting: a backward pass under zero bubble defers one more, a weight
    computation takes one, and must find one.  The result is the number still
    waiting at the end, or [None] if a weight computation found none. *)
Fixpoint pending_after (k : nat) (l : list event) : option nat :=
  match l with
  | [] => Some k
  | EBackward _ _ true :: l' => pending_after (S k) l'
  | EWeight :: l' =>
      match k with
      | 0 => None
      | S k' => pending_after k' l'
      end
  | _ :: l' => pending_after k l'
  end.

(** Between two method calls the weight-gradient store is switched off, its
    cache is empty and its queue holds the deferred weight gradients that the
    log shows waiting. *)
Definition zb_inv (s : state) : Prop :=
  enabled (store s) = false
  /\ cache (store s) = []
  /\ pending_after 0 (log s) = Some (length (funcs_queue (store s))).

(** Reading a log from left to right with [k] chunks of phase [p] forwarded
    and not yet sent backward: a forward pass on [p] adds one, a backward pass
    on [p] takes one, and must find one; in a fused computation the backward
    pass is looked at first.  The result is the number left at the end, or
    [None] if a backward pass found no forwarded chunk. *)
Fixpoint lag (p : bool) (k : nat) (l : list event) : option nat :=
  match l with
  | [] => Some k
  | e :: l' =>
      let back (p' : bool) (k : nat) : option nat :=
        if Bool.eqb p' p then match k with 0 => None | S k' => Some k' end
        else Some k in
      let fore (p' : bool) (k : nat) : nat :=
        if Bool.eqb p' p then S k else k in
      match e with
      | EForward p' _ => lag p (fore p' k) l'
      | EBackward p' _ _ =>
          match back p' k with
          | Some k' => lag p k' l'
          | None => None
          end
      | EFused p0 _ p1 _ =>
          match back p1 k with
          | Some k' => lag p (fore p0 k') l'
          | None => None
          end
      | _ => lag p k l'
      end
  end.

(** The compute cursors keep the backward pass behind the forward pass. *)
Definition behind (cs : cursors) : Prop :=
  forall p : bool,
    get2 (current_b_chunk_id cs) p <= get2 (current_f_chunk_id cs) p.

(** How many losses the rank can have appended: one for each forward pass on
    the phase that ends there. *)
Definition loss_bound (T : topology) (cs : cursors) : nat :=
  if is_first_rank T then get2 (current_f_chunk_id cs) true
  else if is_last_rank T then get2 (current_f_chunk_id cs) false
  else 0.

(** What a backward pass consumes was produced by a forward pass. *)
Definition order_inv (T : topology) (s : state) : Prop :=
  (forall p : bool,
     length (get2 (output_chunks (chunks (ps s))) p)
     <= get2 (current_f_chunk_id (ids (ps s))) p)
  /\ length (loss_chunks (ps s)) <= loss_bound T (ids (ps s))
  /\ behind (ids (ps s))
  /\ Forall behind (history s)
  /\ forall p : bool,
       lag p 0 (log s)
       = Some (get2 (current_f_chunk_id (ids (ps s))) p
               - get2 (current_b_chunk_id (ids (ps s))) p).

(** The slots below [k] have been released. *)
Definition released_upto (k : nat) (l : list (option tensors)) : Prop :=
  forall i x, l !! i = Some x -> i < k -> x = None.

(** Every slot has been released. *)
Definition all_released (l : list (option tensors)) : Prop :=
  Forall (fun x => x = None) l.

(** What the four stores of a physical phase hold between two method calls:
    how long they are, and which of their slots have been released. *)
Definition release_at (T : topology) (fo ro : bool) (Hn : nat) (p : bool)
    (s : state) : Prop :=
  let cs := ids (ps s) in
  let q := chunks (ps s) in
  let f := get2 (current_f_chunk_id cs) p in
  let b := get2 (current_b_chunk_id cs) p in
  let inputs := get2 (input_chunks q) p in
  let outputs := get2 (output_chunks q) p in
  let input_grads := get2 (input_grad_chunks q) p in
  let output_grads := get2 (output_grad_chunks q) p in
  (length inputs
   = (if is_first_stage T p then Hn
      else get2 (current_recv_f_chunk_id cs) p)
   /\ f <= length inputs /\ b <= length inputs
   /\ released_upto (if fo then f else b) inputs)
  /\ (length outputs = (if is_last_stage T p && negb ro then 0 else f)
      /\ (is_last_stage T p = false -> b <= length outputs)
      /\ (ro = false -> released_upto b outputs))
  /\ (length output_grads = get2 (current_recv_b_chunk_id cs) p
      /\ (if is_last_stage T p then length output_grads = 0
          else b <= length output_grads)
      /\ released_upto b output_grads)
  /\ (length input_grads = b
      /\ get2 (current_send_b_chunk_id cs) p <= b
      /\ released_upto (get2 (current_send_b_chunk_id cs) p) input_grads).

Definition release_inv (T : topology) (fo ro : bool) (Hn : nat) (s : state)
    : Prop :=
  forward_only (attrs s) = fo
  /\ return_outputs (attrs s) = ro
  /\ release_at T fo ro Hn false s
  /\ release_at T fo ro Hn true s.

(** ** Basic facts *)

Lemma get2_set2_same {A} (t : two A) p v : get2 (set2 t p v) p = v.
Proof. destruct p; reflexivity. Qed.

Lemma get2_set2_other {A} (t : two A) p v : get2 (set2 t p v) (negb p) = get2 t (negb p).
Proof. destruct p; reflexivity. Qed.

Lemma range_0 : range 0 = [].
Proof. reflexivity. Qed.

Lemma range_S (n : nat) :
  range (Z.of_nat (S n)) = range (Z.of_nat n) ++ [Z.of_nat n].
Proof.
  unfold range. rewrite !Nat2Z.id, seq_S, map_app. reflexivity.
Qed.

Lemma range_length (n : nat) : length (range (Z.of_nat n)) = n.
Proof. unfold range. rewrite length_map, length_seq, Nat2Z.id. reflexivity. Qed.

Lemma marks_of_app l1 l2 : marks_of (l1 ++ l2) = marks_of l1 ++ marks_of l2.
Proof. unfold marks_of. apply flat_map_app. Qed.

Lemma peers_of_app l1 l2 : peers_of (l1 ++ l2) = peers_of l1 ++ peers_of l2.
Proof. unfold peers_of. apply flat_map_app. Qed.

Lemma last_step_app l1 : forall cur l2,
  last_step cur (l1 ++ l2) = last_step (last_step cur l1) l2.
Proof.
  induction l1 as [|e l1 IH]; intros cur l2; [reflexivity|].
  destruct e; simpl; apply IH.
Qed.

Lemma backwards_of_app k l1 : forall cur l2,
  backwards_of k cur (l1 ++ l2)
  = backwards_of k cur l1 ++ backwards_of k (last_step cur l1) l2.
Proof.
  induction l1 as [|e l1 IH]; intros cur l2; [reflexivity|].
  destruct e; simpl; rewrite ?IH; try reflexivity.
  rewrite <- app_assoc. reflexivity.
Qed.

(** ** Facts about a topology *)

Section TopologyFacts.

Variable T : topology.
Hypothesis HT : topo_ok T.

Lemma topo_half :
  exists n : Z, (1 <= n)%Z /\ num_ranks T = (2 * n)%Z /\ (num_ranks T / 2 = n)%Z.
Proof.
  destruct HT as [He Hr _ _ _ _].
  exists (num_ranks T / 2)%Z.
  pose proof (Z.div_mod (num_ranks T) 2 ltac:(lia)) as Hd.
  rewrite He in Hd. split; [lia|]. split; [lia|reflexivity].
Qed.

Lemma topo_flags :
  (is_first_rank T = true -> is_in_second_half T = false /\ is_last_rank T = false)
  /\ (is_last_rank T = true -> is_in_second_half T = true).
Proof.
  destruct topo_half as (n & Hn1 & HN & Hdiv).
  destruct HT as [_ Hr Hf Hl Hh _].
  rewrite Hf, Hl, Hh, Hdiv. split.
  - intros H%Z.eqb_eq. split; [apply Z.leb_gt | apply Z.eqb_neq]; lia.
  - intros H%Z.eqb_eq. apply Z.leb_le. lia.
Qed.

Lemma first_stage_physical l :
  is_first_stage T (physical T l) = is_end T && negb l.
Proof.
  destruct topo_flags as [H1 H2].
  unfold is_first_stage, is_end, physical.
  destruct (is_first_rank T), (is_last_rank T), l;
    try (destruct H1 as [-> H1]; [reflexivity|]; try discriminate H1);
    try (rewrite H2 by reflexivity);
    try reflexivity; destruct (is_in_second_half T); reflexivity.
Qed.

Lemma last_stage_physical l :
  is_last_stage T (physical T l) = is_end T && l.
Proof.
  destruct topo_flags as [H1 H2].
  unfold is_last_stage, is_end, physical.
  destruct (is_first_rank T), (is_last_rank T), l;
    try (destruct H1 as [-> H1]; [reflexivity|]; try discriminate H1);
    try (rewrite H2 by reflexivity);
    try reflexivity; destruct (is_in_second_half T); reflexivity.
Qed.

Lemma physical_involutive p : physical T (xorb p (is_in_second_half T)) = p.
Proof. unfold physical. destruct p, (is_in_second_half T); reflexivity. Qed.

Lemma lview_get c cs l :
  get2 (cur_get c cs) (physical T l) = get2 (cur_get c (lview T cs)) l.
Proof.
  unfold lview, physical. destruct (is_in_second_half T), c, l; reflexivity.
Qed.

Lemma lview_set c cs l v :
  lview T (cur_set c (set2 (cur_get c cs) (physical T l) v) cs)
  = cur_set c (set2 (cur_get c (lview T cs)) l v) (lview T cs).
Proof.
  unfold lview, physical. destruct cs.
  destruct (is_in_second_half T), c, l; reflexivity.
Qed.

Lemma lview_cursors_ok cs :
  lcursors_ok (is_end T) (lview T cs) -> cursors_ok T cs.
Proof.
  intros H p.
  rewrite <- (physical_involutive p).
  set (l := xorb p (is_in_second_half T)).
  rewrite first_stage_physical, last_stage_physical.
  pose proof (fun c => lview_get c cs l) as Hg.
  remember (lview T cs) as lc eqn:E.
  pose proof (Hg CF) as Hf. pose proof (Hg CB) as Hb.
  pose proof (Hg CSendF) as Hsf. pose proof (Hg CSendB) as Hsb.
  pose proof (Hg CRecvF) as Hrf. pose proof (Hg CRecvB) as Hrb.
  simpl in Hf, Hb, Hsf, Hsb, Hrf, Hrb.
  rewrite Hf, Hb, Hsf, Hsb, Hrf, Hrb.
  destruct lc as [[f0 f1] [b0 b1] [sf0 sf1] [sb0 sb1] [rf0 rf1] [rb0 rb1]].
  simpl in H. destruct (is_end T), l; simpl; lia.
Qed.

End TopologyFacts.

(** ** Rules of the logic *)

Lemma hoare_ret {A} (P : state -> Prop) (v : A) (Q : A -> state -> Prop) :
  (forall s, P s -> Q v s) -> hoare P (ret v) Q.
Proof. intros H s Hs. exists v, s. split; [reflexivity | auto]. Qed.

Lemma hoare_bind {A B} (P : state -> Prop) (m : M A) (Q : A -> state -> Prop)
    (k : A -> M B) (R : B -> state -> Prop) :
  hoare P m Q -> (forall v, hoare (Q v) (k v) R) -> hoare P (bind m k) R.
Proof.
  intros Hm Hk s Hs. destruct (Hm s Hs) as (v & s1 & E1 & H1).
  destruct (Hk v s1 H1) as (w & s2 & E2 & H2).
  exists w, s2. split; [|assumption]. unfold bind. rewrite E1. exact E2.
Qed.

Lemma hoare_conseq {A} (P P' : state -> Prop) (m : M A)
    (Q Q' : A -> state -> Prop) :
  hoare P' m Q' -> (forall s, P s -> P' s) -> (forall v s, Q' v s -> Q v s) ->
  hoare P m Q.
Proof.
  intros Hm Hp Hq s Hs. destruct (Hm s (Hp s Hs)) as (v & s1 & E1 & H1).
  exists v, s1. split; [assumption | auto].
Qed.

Lemma hoare_pure {A} (phi : Prop) (P : state -> Prop) (m : M A)
    (Q : A -> state -> Prop) :
  (phi -> hoare P m Q) -> hoare (fun s => phi /\ P s) m Q.
Proof. intros H s [Hphi Hs]. exact (H Hphi s Hs). Qed.

Lemma hoare_gets {A} (P : state -> Prop) (f : state -> A) (v : A) :
  (forall s, P s -> f s = v) -> hoare P (gets f) (fun x s => x = v /\ P s).
Proof. intros H s Hs. exists (f s), s. split; [reflexivity | auto]. Qed.

Lemma hoare_modify (P Q : state -> Prop) (f : state -> state) :
  (forall s, P s -> Q (f s)) -> hoare P (modify f) (fun _ s => Q s).
Proof. intros H s Hs. exists tt, (f s). split; [reflexivity | auto]. Qed.

Lemma hoare_for_each {A} (Inv : nat -> state -> Prop) (xs : list A)
    (body : A -> M unit) :
  (forall i x, xs !! i = Some x -> hoare (Inv i) (body x) (fun _ => Inv (S i))) ->
  hoare (Inv 0) (for_each xs body) (fun _ => Inv (length xs)).
Proof.
  revert Inv. induction xs as [|x xs IH]; intros Inv Hbody.
  - apply hoare_ret. auto.
  - simpl. eapply hoare_bind.
    + apply (Hbody 0 x). reflexivity.
    + intros []. apply (IH (fun i => Inv (S i))).
      intros i y Hy. apply (Hbody (S i) y). exact Hy.
Qed.

Lemma hoare_for_each_with {A V} (Inv : nat -> V -> state -> Prop)
    (xs : list A) (v0 : V) (body : A -> V -> M V) :
  (forall i x v, xs !! i = Some x ->
     hoare (Inv i v) (body x v) (fun v' => Inv (S i) v')) ->
  hoare (Inv 0 v0) (for_each_with xs v0 body) (fun v => Inv (length xs) v).
Proof.
  revert Inv v0. induction xs as [|x xs IH]; intros Inv v0 Hbody.
  - apply hoare_ret. auto.
  - simpl. eapply hoare_bind.
    + apply (Hbody 0 x v0). reflexivity.
    + intros v. apply (IH (fun i => Inv (S i))).
      intros i y w Hy. apply (Hbody (S i) y w). exact Hy.
Qed.

Lemma range_lookup (n i : nat) x :
  range (Z.of_nat n) !! i = Some x -> x = Z.of_nat i /\ i < n.
Proof.
  unfold range. rewrite Nat2Z.id, list_lookup_fmap.
  destruct (seq 0 n !! i) as [j|] eqn:E; [|discriminate].
  apply lookup_seq in E. simpl. intros [= <-]. split; [f_equal|]; lia.
Qed.

Lemma preserves_ret {A} (I : state -> Prop) (v : A) : preserves I (ret v).
Proof. intros s Hs. exact Hs. Qed.

Lemma preserves_raise {A} (I : state -> Prop) e : preserves I (@raise A e).
Proof. intros s Hs. exact Hs. Qed.

Lemma preserves_gets {A} (I : state -> Prop) (f : state -> A) :
  preserves I (gets f).
Proof. intros s Hs. exact Hs. Qed.

Lemma preserves_bind {A B} (I : state -> Prop) (m : M A) (k : A -> M B) :
  preserves I m -> (forall v, preserves I (k v)) -> preserves I (bind m k).
Proof.
  intros Hm Hk s Hs. unfold bind. specialize (Hm s Hs).
  destruct (m s) as [[v|e] s1]; simpl in *; [apply Hk|]; assumption.
Qed.

Lemma preserves_modify (I : state -> Prop) (f : state -> state) :
  (forall s, I s -> I (f s)) -> preserves I (modify f).
Proof. intros H s Hs. apply H, Hs. Qed.

Lemma preserves_for_each {A} (I : state -> Prop) (xs : list A) body :
  (forall x, preserves I (body x)) -> preserves I (for_each xs body).
Proof.
  intros H. induction xs as [|x xs IH]; simpl.
  - apply preserves_ret.
  - apply preserves_bind; [apply H | intros []; exact IH].
Qed.

Lemma preserves_for_each_with {A V} (I : state -> Prop) (xs : list A) (v : V)
    body :
  (forall x w, preserves I (body x w)) -> preserves I (for_each_with xs v body).
Proof.
  intros H. revert v. induction xs as [|x xs IH]; intros v; simpl.
  - apply preserves_ret.
  - apply preserves_bind; [apply H | intros w; apply IH].
Qed.

(** ** Specifications of the elementary operations *)

Section Elementary.

Variable T : topology.
Hypothesis HT : topo_ok T.
Variables (fo ro : bool) (crit : option callable) (Hn : nat).

Local Abbreviation R := (Rep1 T fo ro crit Hn).

Ltac rep_inv H :=
  destruct H as [Hfo Hro Hcrit Hids Hok Hq Hloss Hlab Hen Hca Hqu Hhist Hmk Hst Hbw].

Lemma qok_lookup l len from i :
  qok l len from -> from <= i -> i < len -> exists t, l !! i = Some (Some t).
Proof. intros [_ H]. apply H. Qed.

Lemma qok_release l len from :
  qok l len from -> qok (<[from := None]> l) len (S from).
Proof.
  intros [Hl H]. split; [rewrite length_insert; exact Hl|].
  intros i Hi Hlt. rewrite list_lookup_insert_ne by lia. apply H; lia.
Qed.

Lemma qok_append l len from t :
  qok l len from -> qok (l ++ [Some t]) (S len) from.
Proof.
  intros [Hl H]. split; [rewrite length_app; simpl; lia|].
  intros i Hi Hlt. destruct (decide (i < len)) as [Hlt'|Hge].
  - rewrite lookup_app_l by lia. apply H; lia.
  - assert (i = length l) as -> by lia.
    exists t. rewrite lookup_app_r by lia. rewrite Nat.sub_diag. reflexivity.
Qed.

#[local] Instance queue_eq_dec : EqDecision queue.
Proof. solve_decision. Defined.

Lemma physical_inj l l' : physical T l = physical T l' -> l = l'.
Proof. unfold physical. destruct l, l', (is_in_second_half T); simpl; congruence. Qed.

(** The stores of the other [(queue, direction)] pairs are not touched. *)
Lemma get2_q_set q l v qs q' l' :
  get2 (q_get q' (q_set q (set2 (q_get q qs) (physical T l) v) qs)) (physical T l')
  = if decide (q = q' /\ l = l') then v
    else get2 (q_get q' qs) (physical T l').
Proof.
  destruct (decide _) as [[-> ->]|Hne].
  - destruct qs, q'; simpl; apply get2_set2_same.
  - destruct (decide (q = q')) as [->|Hq].
    + assert (l' = negb l) as -> by (destruct l, l'; tauto).
      assert (physical T (negb l) = negb (physical T l)) as ->
        by (unfold physical; destruct l, (is_in_second_half T); reflexivity).
      destruct qs, q'; simpl; apply get2_set2_other.
    + destruct qs, q, q'; try congruence; reflexivity.
Qed.

Lemma get2_qn_set q l v n q' l' :
  get2 (qn_get q' (qn_set q (set2 (qn_get q n) l v) n)) l'
  = if decide (q = q' /\ l = l') then v else get2 (qn_get q' n) l'.
Proof.
  destruct (decide _) as [[-> ->]|Hne].
  - destruct n, q'; simpl; apply get2_set2_same.
  - destruct (decide (q = q')) as [->|Hq].
    + assert (l' = negb l) as -> by (destruct l, l'; tauto).
      destruct n, q'; simpl; apply get2_set2_other.
    + destruct n, q, q'; try congruence; reflexivity.
Qed.

Lemma Rep1_weaken a a' s : a_le a a' -> R a s -> R a' s.
Proof.
  intros (E1 & E2 & Hle & E3 & E4 & E5 & E6 & E7 & E8 & E9) H. rep_inv H.
  constructor; try assumption; try congruence.
  intros q l. destruct (Hq q l) as [Hlen Hsome]. split; [congruence|].
  intros i Hi Hlt. apply Hsome; [|rewrite E2; exact Hlt].
  specialize (Hle q l). lia.
Qed.

Lemma gets_fo_spec a :
  hoare (R a) (gets (fun s => forward_only (attrs s))) (fun v s => v = fo /\ R a s).
Proof. apply hoare_gets. intros s H. apply (r_fo _ _ _ _ _ _ _ H). Qed.

Lemma gets_ro_spec a :
  hoare (R a) (gets (fun s => return_outputs (attrs s))) (fun v s => v = ro /\ R a s).
Proof. apply hoare_gets. intros s H. apply (r_ro _ _ _ _ _ _ _ H). Qed.

Lemma gets_crit_spec a :
  hoare (R a) (gets (fun s => criterion (ps s))) (fun v s => v = crit /\ R a s).
Proof. apply hoare_gets. intros s H. apply (r_crit _ _ _ _ _ _ _ H). Qed.

Lemma cursor_of_spec c l a :
  hoare (R a) (cursor_of c (physical T l))
    (fun v s => v = get2 (cur_get c (a_ids a)) l /\ R a s).
Proof.
  apply hoare_gets. intros s H.
  rewrite <- (r_ids _ _ _ _ _ _ _ H). apply lview_get.
Qed.

Lemma incr_spec c l ids len from lo en ca qu mk st bw :
  lcursors_ok (is_end T)
    (cur_set c (set2 (cur_get c ids) l (S (get2 (cur_get c ids) l))) ids) ->
  hoare (R (MkA ids len from lo en ca qu mk st bw)) (incr c (physical T l))
    (fun _ => R (MkA (cur_set c (set2 (cur_get c ids) l (S (get2 (cur_get c ids) l))) ids)
                   len from lo en ca qu mk st bw)).
Proof.
  intros Hok. apply hoare_modify. intros s [].
  simpl in *. subst ids.
  assert (E : lview T (cur_set c (set2 (cur_get c (ids (ps s))) (physical T l)
                 (S (get2 (cur_get c (ids (ps s))) (physical T l)))) (ids (ps s)))
            = cur_set c (set2 (cur_get c (lview T (ids (ps s)))) l
                 (S (get2 (cur_get c (lview T (ids (ps s)))) l))) (lview T (ids (ps s)))).
  { rewrite lview_set, lview_get. reflexivity. }
  constructor; simpl; auto.
  apply Forall_app. split; [assumption|].
  constructor; [|constructor].
  apply lview_cursors_ok; [assumption|]. rewrite E. exact Hok.
Qed.

Lemma q_index_spec q l i a :
  get2 (qn_get q (a_from a)) l <= i -> i < get2 (qn_get q (a_len a)) l ->
  hoare (R a) (q_index q (physical T l) i)
    (fun v s => (exists t, v = Some t) /\ R a s).
Proof.
  intros Hfrom Hlen s H. unfold q_index, q_list, bind, gets.
  destruct (qok_lookup _ _ _ i (r_q _ _ _ _ _ _ _ H q l) Hfrom Hlen) as [t Et].
  rewrite Et. exists (Some t), s. split; [reflexivity|]. split; [eauto|assumption].
Qed.

Lemma q_release_spec q l i ids len from lo en ca qu mk st bw :
  i = get2 (qn_get q from) l -> i < get2 (qn_get q len) l ->
  hoare (R (MkA ids len from lo en ca qu mk st bw))
    (q_release q (physical T l) i)
    (fun _ => R (MkA ids len
                   (qn_set q (set2 (qn_get q from) l (S (get2 (qn_get q from) l))) from)
                   lo en ca qu mk st bw)).
Proof.
  intros -> Hlt s H. unfold q_release, q_list, q_put, bind, gets, modify.
  pose proof (r_q _ _ _ _ _ _ _ H q l) as Hq0. simpl in Hq0.
  destruct Hq0 as [Hlen Hsome].
  rewrite (proj2 (Nat.ltb_lt _ _)) by lia.
  eexists tt, _. split; [reflexivity|].
  rep_inv H. constructor; simpl in *; auto.
  intros q' l'. rewrite get2_q_set, get2_qn_set.
  destruct (decide _) as [[<- <-]|_]; [|apply Hq].
  apply qok_release. split; assumption.
Qed.

Lemma q_append_spec q l t ids len from lo en ca qu mk st bw :
  hoare (R (MkA ids len from lo en ca qu mk st bw))
    (q_append q (physical T l) t)
    (fun _ => R (MkA ids
                   (qn_set q (set2 (qn_get q len) l (S (get2 (qn_get q len) l))) len)
                   from lo en ca qu mk st bw)).
Proof.
  intros s H. unfold q_append, q_list, q_put, bind, gets, modify.
  eexists tt, _. split; [reflexivity|].
  rep_inv H. constructor; simpl in *; auto.
  intros q' l'. rewrite get2_q_set, get2_qn_set.
  destruct (decide _) as [[<- <-]|_]; [|apply Hq].
  apply qok_append, Hq.
Qed.

Lemma emit_spec e ids len from lo en ca qu mk st bw :
  hoare (R (MkA ids len from lo en ca qu mk st bw)) (emit e)
    (fun _ => R (MkA ids len from lo en ca qu (mk ++ marks_of [e])
                   (last_step st [e]) (bw ++ backwards_of 6 st [e]))).
Proof.
  apply hoare_modify. intros s H; rep_inv H. constructor; try assumption.
  - unfold with_log; simpl log. rewrite marks_of_app. simpl in Hmk. rewrite Hmk. reflexivity.
  - unfold with_log; simpl log. rewrite last_step_app. simpl in Hst. rewrite Hst. reflexivity.
  - unfold with_log; simpl log. rewrite backwards_of_app. simpl in Hbw, Hst.
    rewrite Hbw, Hst. reflexivity.
Qed.

Lemma emit_mark_spec k i ids len from lo en ca qu mk st bw :
  hoare (R (MkA ids len from lo en ca qu mk st bw)) (emit (EStepIter k i))
    (fun _ => R (MkA ids len from lo en ca qu (mk ++ [(k, i)]) k bw)).
Proof.
  eapply hoare_conseq; [apply emit_spec | intros ? H; exact H |].
  intros ? s H. simpl in H. rewrite app_nil_r in H. exact H.
Qed.

Lemma emit_backward_spec p cid zb ids len from lo en ca qu mk st bw :
  hoare (R (MkA ids len from lo en ca qu mk st bw)) (emit (EBackward p cid zb))
    (fun _ => R (MkA ids len from lo en ca qu mk st
                   (if Nat.eqb st 6 then bw ++ [(p, zb)] else bw))).
Proof.
  eapply hoare_conseq; [apply emit_spec | intros ? H; exact H |].
  intros ? s H. simpl in H. rewrite !app_nil_r in H.
  destruct (Nat.eqb st 6); [exact H|]. rewrite app_nil_r in H. exact H.
Qed.

Lemma emit_forward_spec p cid a :
  hoare (R a) (emit (EForward p cid)) (fun _ => R a).
Proof.
  destruct a. eapply hoare_conseq; [apply emit_spec | intros ? H; exact H |].
  intros ? s H. simpl in H. rewrite !app_nil_r in H. exact H.
Qed.

Lemma emit_fused_spec p0 c0 p1 c1 a :
  hoare (R a) (emit (EFused p0 c0 p1 c1)) (fun _ => R a).
Proof.
  destruct a. eapply hoare_conseq; [apply emit_spec | intros ? H; exact H |].
  intros ? s H. simpl in H. rewrite !app_nil_r in H. exact H.
Qed.

Lemma store_set_enabled_spec b ids len from lo en ca qu mk st bw :
  hoare (R (MkA ids len from lo en ca qu mk st bw)) (store_set_enabled b)
    (fun _ => R (MkA ids len from lo b ca qu mk st bw)).
Proof. apply hoare_modify. intros s H; rep_inv H. constructor; simpl in *; auto. Qed.

Lemma backward_pass_spec p cid ids len from lo en ca qu mk st bw :
  hoare (R (MkA ids len from lo en ca qu mk st bw)) (backward_pass p cid)
    (fun _ => R (MkA ids len from lo en (if en then S ca else ca) qu mk st bw)).
Proof.
  intros s H. unfold backward_pass, bind, gets, when, store_put, modify, ret.
  rewrite (r_enabled _ _ _ _ _ _ _ H). simpl.
  destruct en; eexists tt, _; (split; [reflexivity|]); [|exact H].
  rep_inv H. constructor; simpl in *; auto.
  rewrite length_app. simpl. lia.
Qed.

Lemma store_flush_spec ids len from lo en ca qu mk st bw :
  hoare (R (MkA ids len from lo en ca qu mk st bw)) store_flush
    (fun _ => R (MkA ids len from lo en 0 (ca + qu) mk st bw)).
Proof.
  apply hoare_modify. intros s H; rep_inv H. constructor; simpl in *; auto.
  rewrite length_app. lia.
Qed.

Lemma store_pop_spec ids len from lo en ca qu mk st bw :
  hoare (R (MkA ids len from lo en ca (S qu) mk st bw)) store_pop
    (fun _ => R (MkA ids len from lo en ca qu mk st bw)).
Proof.
  intros s H. unfold store_pop, bind, gets.
  pose proof (r_queue _ _ _ _ _ _ _ H) as Hq0. simpl in Hq0.
  destruct (funcs_queue (store s)) as [|d q'] eqn:E; [discriminate|].
  unfold modify, emit, modify. eexists tt, _. split; [reflexivity|].
  rep_inv H. constructor; simpl in *; auto.
  - rewrite marks_of_app, Hmk. simpl. apply app_nil_r.
  - rewrite last_step_app, Hst. reflexivity.
  - rewrite backwards_of_app, Hbw. simpl. apply app_nil_r.
Qed.

Lemma append_irecv_spec peer a :
  hoare (R a) (append_irecv peer) (fun _ => R a).
Proof.
  intros s H. unfold append_irecv, bind, modify, emit, modify, ret.
  eexists _, _. split; [reflexivity|].
  rep_inv H. constructor; simpl in *; auto.
  - rewrite marks_of_app, Hmk. simpl. apply app_nil_r.
  - rewrite last_step_app, Hst. reflexivity.
  - rewrite backwards_of_app, Hbw. simpl. apply app_nil_r.
Qed.

Lemma append_isend_spec t peer a :
  hoare (R a) (append_isend (Some t) peer) (fun _ => R a).
Proof.
  intros s H. unfold append_isend, need, bind, modify, emit, modify, ret.
  eexists _, _. split; [reflexivity|].
  rep_inv H. constructor; simpl in *; auto.
  - rewrite marks_of_app, Hmk. simpl. apply app_nil_r.
  - rewrite last_step_app, Hst. reflexivity.
  - rewrite backwards_of_app, Hbw. simpl. apply app_nil_r.
Qed.

Lemma to_free_spec f a :
  hoare (R a) (modify (with_ps (with_to_free f))) (fun _ => R a).
Proof. apply hoare_modify. intros s H; rep_inv H. constructor; simpl in *; auto. Qed.

Lemma commit_spec a :
  hoare (R a) _commit_and_wait_comm (fun _ => R a).
Proof.
  intros s H. unfold _commit_and_wait_comm, bind, gets.
  destruct (comm_ops (ps s)) as [|o ops].
  - exists tt, s. split; [reflexivity | assumption].
  - unfold emit, modify, _free_tensors, modify. eexists tt, _.
    split; [reflexivity|].
    rep_inv H. constructor; simpl in *; auto.
    + rewrite marks_of_app, Hmk. simpl. apply app_nil_r.
    + rewrite last_step_app, Hst. reflexivity.
    + rewrite backwards_of_app, Hbw. simpl. apply app_nil_r.
Qed.

Lemma loss_at_spec i a :
  i < a_loss a -> hoare (R a) (loss_at i) (fun _ => R a).
Proof.
  intros Hi s H. unfold loss_at, bind, gets.
  pose proof (r_loss _ _ _ _ _ _ _ H) as Hl.
  destruct (lookup_lt_is_Some_2 (loss_chunks (ps s)) i ltac:(lia)) as [v Ev].
  rewrite Ev. exists v, s. split; [reflexivity | assumption].
Qed.

Lemma loss_append_spec v ids len from lo en ca qu mk st bw :
  hoare (R (MkA ids len from lo en ca qu mk st bw)) (loss_append v)
    (fun _ => R (MkA ids len from (S lo) en ca qu mk st bw)).
Proof.
  apply hoare_modify. intros s H; rep_inv H. constructor; simpl in *; auto.
  rewrite length_app. simpl. lia.
Qed.

Lemma labels_at_spec i a :
  is_end T = true -> i < Hn ->
  hoare (R a) (labels_at (physical T true) i) (fun _ => R a).
Proof.
  intros He Hi s H. unfold labels_at, bind, gets.
  destruct (r_labels _ _ _ _ _ _ _ H He) as (lb & El & Hlen).
  rewrite El. simpl.
  destruct (lookup_lt_is_Some_2 (get2 lb (physical T true)) i ltac:(lia)) as [v Ev].
  rewrite Ev. exists v, s. split; [reflexivity | assumption].
Qed.

End Elementary.

(** ** Specifications of the methods, by logical direction *)

Lemma hoare_bind_assoc {A B C} (P : state -> Prop) (m : M A) (k : A -> M B)
    (k' : B -> M C) (Q : C -> state -> Prop) :
  hoare P (bind m (fun x => bind (k x) k')) Q -> hoare P (bind (bind m k) k') Q.
Proof.
  intros H s Hs. destruct (H s Hs) as (v & s' & E & Hq).
  exists v, s'. split; [|assumption].
  unfold bind in *. destruct (m s) as [[a|e] s1]; [|exact E].
  exact E.
Qed.

Lemma hoare_post {A} (P : state -> Prop) (m : M A) (Q Q' : A -> state -> Prop) :
  hoare P m Q' -> (forall v s, Q' v s -> Q v s) -> hoare P m Q.
Proof. intros H HQ. eapply hoare_conseq; [exact H | auto | exact HQ]. Qed.

Lemma hoare_ret_bind {A B} (P : state -> Prop) (v : A) (k : A -> M B)
    (Q : B -> state -> Prop) :
  hoare P (k v) Q -> hoare P (bind (ret v) k) Q.
Proof. intros H s Hs. exact (H s Hs). Qed.

(** Symbolic execution of a method, one elementary operation at a time. *)

Ltac norm :=
  cbv beta iota zeta delta
    [a_ids a_len a_from a_loss a_enabled a_cache a_queue a_marks a_step a_bwd
     s_ids s_queue s_marks s_step s_bwd s_bump
     current_f_chunk_id current_b_chunk_id current_send_f_chunk_id
     current_send_b_chunk_id current_recv_f_chunk_id current_recv_b_chunk_id
     n_input n_output n_input_grad n_output_grad
     cur_get cur_set get2 set2 qn_get qn_set at0 at1 bump expand
     andb orb negb when is_not_None need].

Ltac norm_in H :=
  cbv beta iota zeta delta
    [a_ids a_len a_from a_loss a_enabled a_cache a_queue a_marks a_step a_bwd
     s_ids s_queue s_marks s_step s_bwd s_bump
     current_f_chunk_id current_b_chunk_id current_send_f_chunk_id
     current_send_b_chunk_id current_recv_f_chunk_id current_recv_b_chunk_id
     n_input n_output n_input_grad n_output_grad
     cur_get cur_set get2 set2 qn_get qn_set at0 at1 bump expand
     andb orb negb when is_not_None need] in H.

Ltac side :=
  norm;
  repeat match goal with
         | H : is_end _ = _ |- _ => rewrite H
         end;
  cbn [lcursors_ok andb orb negb];
  try lia.

Ltac hop :=
  lazymatch goal with
  | |- hoare _ (gets (fun s => forward_only (attrs s))) _ => apply gets_fo_spec
  | |- hoare _ (gets (fun s => return_outputs (attrs s))) _ => apply gets_ro_spec
  | |- hoare _ (gets (fun s => criterion (ps s))) _ => apply gets_crit_spec
  | |- hoare _ (cursor_of _ _) _ => apply cursor_of_spec; assumption
  | |- hoare _ (incr _ _) _ => apply incr_spec; [assumption | side]
  | |- hoare _ (q_index _ _ _) _ => apply q_index_spec; norm; try lia
  | |- hoare _ (q_release _ _ _) _ => apply q_release_spec; norm; try lia
  | |- hoare _ (q_append _ _ _) _ => apply q_append_spec
  | |- hoare _ (emit (EStepIter _ _)) _ => apply emit_mark_spec
  | |- hoare _ (emit (EBackward _ _ _)) _ => apply emit_backward_spec
  | |- hoare _ (emit (EForward _ _)) _ => apply emit_forward_spec
  | |- hoare _ (emit (EFused _ _ _ _)) _ => apply emit_fused_spec
  | |- hoare _ (store_set_enabled _) _ => apply store_set_enabled_spec
  | |- hoare _ (backward_pass _ _) _ => apply backward_pass_spec
  | |- hoare _ store_flush _ => apply store_flush_spec
  | |- hoare _ store_pop _ => apply store_pop_spec
  | |- hoare _ (append_irecv _) _ => apply append_irecv_spec
  | |- hoare _ (append_isend _ _) _ => apply append_isend_spec
  | |- hoare _ (modify (with_ps (with_to_free _))) _ => apply to_free_spec
  | |- hoare _ (_commit_and_wait_comm) _ => apply commit_spec
  | |- hoare _ (loss_at _) _ => apply loss_at_spec; norm; try lia
  | |- hoare _ (loss_append _) _ => apply loss_append_spec
  | |- hoare _ (labels_at _ _) _ => apply labels_at_spec; norm; try (assumption || lia)
  | |- hoare _ (ret _) _ => apply hoare_ret; intros ? H; exact H
  end.

Ltac hpure :=
  cbv beta;
  try lazymatch goal with
  | |- hoare (fun s => (exists t, _ = Some t) /\ _) _ _ =>
      apply hoare_pure; intros [? ->]
  | |- hoare (fun s => _ = _ /\ _) _ _ => apply hoare_pure; intros ->
  end.

Ltac hstep :=
  norm;
  lazymatch goal with
  | |- hoare _ (bind (bind _ _) _) _ => apply hoare_bind_assoc
  | |- hoare _ (bind (ret _) _) _ => apply hoare_ret_bind
  | |- hoare _ (bind _ _) _ => eapply hoare_bind; [hop | intros ?; hpure]
  end.

Ltac weaken H :=
  eapply Rep1_weaken; [|exact H];
  unfold a_le; norm;
  repeat split; try reflexivity; try (intros [] []; norm; lia); try lia.

Ltac close H := norm; norm_in H; first [exact H | weaken H].

Ltac hlast :=
  norm;
  first
    [ apply hoare_ret; intros ? H; close H
    | eapply hoare_post; [ hop | intros ? ? H; close H ] ].

Ltac hsteps := repeat hstep; try hlast.

Ltac open_sched x :=
  destruct x as [[[f0 f1] [b0 b1] [sf0 sf1] [sb0 sb1] [rf0 rf1] [rb0 rb1]]
                 qu mk st bw].

Ltac skip := apply hoare_ret; intros ? H; exact H.

Section MethodSpecs.

Variable T : topology.
Hypothesis HT : topo_ok T.
Variables (fo ro : bool) (crit : option callable) (Hn : nat).

Local Abbreviation R := (Rep1 T fo ro crit Hn).
Local Abbreviation X := (expand (is_end T) fo ro crit Hn).
Local Abbreviation Rep' := (Rep T fo ro crit Hn).

Lemma hoare_ok {A} x (m : M A) Q :
  (lcursors_ok (is_end T) (s_ids x) -> hoare (Rep' x) m Q) -> hoare (Rep' x) m Q.
Proof.
  intros H s Hs. apply H; [|exact Hs].
  pose proof (r_ok _ _ _ _ _ _ _ Hs) as Hok.
  unfold expand in Hok.
  destruct (s_ids x) as [[? ?] [? ?] [? ?] [? ?] [? ?] [? ?]]. exact Hok.
Qed.

Lemma recv_forward_spec l x :
  hoare (Rep' x) (_recv_forward T l)
    (fun _ => Rep' (after_recv_forward (is_end T) l x)).
Proof.
  apply hoare_ok; intros Hok. unfold Rep, _recv_forward, after_recv_forward.
  cbv zeta. rewrite (first_stage_physical T HT).
  open_sched x.
  destruct l, (is_end T) eqn:He; norm; simpl in Hok; try skip; hsteps.
Qed.

Lemma recv_backward_spec l x :
  hoare (Rep' x) (_recv_backward T l)
    (fun _ => Rep' (after_recv_backward (is_end T) fo l x)).
Proof.
  apply hoare_ok; intros Hok. unfold Rep, _recv_backward, after_recv_backward.
  cbv zeta. rewrite (last_stage_physical T HT).
  open_sched x. hstep.
  destruct fo, l, (is_end T) eqn:He; norm; simpl in Hok; try skip; hsteps.
Qed.

Lemma send_forward_spec l x :
  can_send_forward (is_end T) l x ->
  hoare (Rep' x) (_send_forward T l)
    (fun _ => Rep' (after_send_forward (is_end T) l x)).
Proof.
  intros Hcan. apply hoare_ok; intros Hok. unfold Rep, _send_forward, after_send_forward.
  unfold can_send_forward, cur_at, len_at, from_at in Hcan.
  cbv zeta. rewrite (last_stage_physical T HT).
  open_sched x.
  destruct l, (is_end T) eqn:He, ro; norm; simpl in Hok, Hcan;
    try skip; specialize (Hcan eq_refl); hsteps.
Qed.

Lemma send_backward_spec l x :
  can_send_backward (is_end T) fo l x ->
  hoare (Rep' x) (_send_backward T l)
    (fun _ => Rep' (after_send_backward (is_end T) fo l x)).
Proof.
  intros Hcan. apply hoare_ok; intros Hok. unfold Rep, _send_backward, after_send_backward.
  unfold can_send_backward, cur_at in Hcan.
  cbv zeta. rewrite (first_stage_physical T HT).
  open_sched x. hstep.
  destruct fo, l, (is_end T) eqn:He; norm; simpl in Hok, Hcan;
    try skip; specialize (Hcan eq_refl eq_refl); hsteps.
Qed.

Lemma forward_compute_spec l x :
  can_forward (is_end T) fo ro crit Hn l x ->
  hoare (Rep' x) (_forward_compute_chunk T l) (fun _ => Rep' (after_forward l x)).
Proof.
  intros Hcan. apply hoare_ok; intros Hok. unfold Rep, _forward_compute_chunk, after_forward.
  unfold can_forward, cur_at, len_at, from_at in Hcan.
  cbv zeta. rewrite (last_stage_physical T HT).
  open_sched x.
  destruct l, (is_end T) eqn:He, fo, ro, crit; norm; simpl in Hok, Hcan;
    destruct Hcan as (Hc1 & Hc2 & Hc3); try specialize (Hc3 eq_refl);
    hsteps.
Qed.

Lemma backward_compute_spec l zb x :
  can_backward (is_end T) fo ro crit Hn l x ->
  hoare (Rep' x) (_backward_compute_chunk T l zb)
    (fun _ => Rep' (after_backward fo (physical T l) l zb x)).
Proof.
  intros Hcan. apply hoare_ok; intros Hok. unfold Rep, _backward_compute_chunk, after_backward.
  unfold can_backward, cur_at, len_at, from_at in Hcan.
  cbv zeta. rewrite (last_stage_physical T HT).
  open_sched x. hstep.
  destruct fo; [skip|]. specialize (Hcan eq_refl).
  destruct l, (is_end T) eqn:He, ro, crit, zb; norm; simpl in Hok, Hcan;
    destruct Hcan as (Hc1 & Hc2); try (destruct Hc1 as [Hc0 Hc1]);
    try discriminate Hc0; hsteps.
Qed.

Lemma fused_compute_spec l0 x :
  fo = false ->
  can_forward (is_end T) fo ro crit Hn l0 x ->
  can_backward (is_end T) fo ro crit Hn (negb l0) x ->
  hoare (Rep' x) (fused_compute_chunk T l0 (negb l0))
    (fun _ => Rep' (after_forward_backward fo true (physical T (negb l0))
                     l0 (negb l0) x)).
Proof.
  intros Hfo Hcan Hcanb. apply hoare_ok; intros Hok.
  unfold Rep, fused_compute_chunk, after_forward_backward.
  unfold can_forward, can_backward, cur_at, len_at, from_at in Hcan, Hcanb.
  cbv zeta. rewrite !(last_stage_physical T HT).
  open_sched x. subst fo. specialize (Hcanb eq_refl).
  destruct l0, (is_end T) eqn:He, ro, crit; norm; simpl in Hok, Hcan, Hcanb;
    destruct Hcan as (Hc1 & Hc2 & Hc3); try specialize (Hc3 eq_refl);
    destruct Hcanb as (Hb1 & Hb2); try (destruct Hb1 as [Hb0 Hb1]);
    try discriminate Hb0; hsteps.
Qed.

Lemma weight_spec x :
  can_weight fo x -> hoare (Rep' x) (_weight_chunk) (fun _ => Rep' (after_weight fo x)).
Proof.
  intros Hcan. unfold Rep, _weight_chunk, after_weight, can_weight in *.
  open_sched x. hstep. destruct fo; [skip|]. specialize (Hcan eq_refl).
  simpl in Hcan. destruct qu as [|qu]; [lia|]. hsteps.
Qed.

Lemma mark_spec k i x :
  hoare (Rep' x) (emit (EStepIter k i)) (fun _ => Rep' (after_mark k i x)).
Proof. unfold Rep, after_mark. open_sched x. hsteps. Qed.

Lemma commit_wait_spec x :
  hoare (Rep' x) _commit_and_wait_comm (fun _ => Rep' x).
Proof. apply commit_spec. Qed.

Lemma Rep_eq x x' s : x = x' -> Rep' x s -> Rep' x' s.
Proof. intros ->. auto. Qed.

Lemma hoare_if {A} (b : bool) (P : state -> Prop) (m1 m2 : M A) Q :
  (b = true -> hoare P m1 Q) -> (b = false -> hoare P m2 Q) ->
  hoare P (if b then m1 else m2) Q.
Proof. destruct b; auto. Qed.

Lemma forward_backward_compute_spec l0 x :
  can_forward (is_end T) fo ro crit Hn l0 x ->
  can_backward (is_end T) fo ro crit Hn (negb l0) x ->
  hoare (Rep' x) (_forward_backward_compute_chunk T l0 (negb l0))
    (fun _ => Rep' (after_forward_backward fo (overlaped_forward_backward T)
                     (physical T (negb l0)) l0 (negb l0) x)).
Proof.
  intros Hcan Hcanb. unfold _forward_backward_compute_chunk.
  eapply hoare_bind; [apply gets_fo_spec|]. intros v. apply hoare_pure. intros ->.
  apply hoare_if; intros Hfo.
  - eapply hoare_conseq;
      [apply (forward_compute_spec l0 x Hcan) | intros ? H; exact H |].
    intros ? s. apply Rep_eq. unfold after_forward_backward. rewrite Hfo.
    reflexivity.
  - apply hoare_if; intros Hov.
    + apply negb_true_iff in Hov.
      eapply hoare_bind; [apply forward_compute_spec; exact Hcan|]. intros ?.
      eapply hoare_conseq;
        [apply (backward_compute_spec (negb l0) false (after_forward l0 x))
        | intros ? H; exact H |].
      * revert Hcanb. open_sched x.
        unfold can_backward, cur_at, len_at, from_at, after_forward.
        destruct l0, (is_end T); norm; intros Hb Hf; specialize (Hb Hf);
          exact Hb.
      * intros ? s. apply Rep_eq.
        unfold after_forward_backward, after_backward. rewrite Hfo, Hov.
        open_sched x. destruct l0; reflexivity.
    + apply negb_false_iff in Hov.
      eapply hoare_conseq;
        [apply (fused_compute_spec l0 x Hfo Hcan Hcanb) | intros ? H; exact H |].
      intros ? s. apply Rep_eq. rewrite Hov. reflexivity.
Qed.

End MethodSpecs.

(** Symbolic execution of a phase, one method at a time. *)

Ltac known :=
  repeat match goal with
         | H : is_end _ = _ |- _ => progress rewrite H
         | H : is_middle_rank _ = _ |- _ => progress rewrite H
         end.

Ltac mnorm :=
  known;
  cbv beta iota zeta delta
    [after_recv_forward after_send_forward after_recv_backward
     after_send_backward after_forward after_backward after_forward_backward
     after_weight after_mark
     s_ids s_queue s_marks s_step s_bwd s_bump
     current_f_chunk_id current_b_chunk_id current_send_f_chunk_id
     current_send_b_chunk_id current_recv_f_chunk_id current_recv_b_chunk_id
     cur_get cur_set get2 set2 at0 at1 bump andb orb negb when];
  cbn [Nat.eqb Nat.pred].

Ltac prove_can :=
  unfold can_forward, can_send_forward, can_backward, can_send_backward,
    can_weight, cur_at, len_at, from_at;
  known; norm; cbn [Nat.eqb];
  repeat match goal with
         | |- _ -> _ => intro
         | |- _ /\ _ => split
         end;
  try discriminate; try assumption; try lia.

Ltac mop :=
  lazymatch goal with
  | |- hoare _ (_recv_forward _ _) _ => apply recv_forward_spec; assumption
  | |- hoare _ (_recv_backward _ _) _ => apply recv_backward_spec; assumption
  | |- hoare _ (_send_forward _ _) _ => apply send_forward_spec; first [assumption | prove_can]
  | |- hoare _ (_send_backward _ _) _ => apply send_backward_spec; first [assumption | prove_can]
  | |- hoare _ (_forward_compute_chunk _ _) _ =>
      apply forward_compute_spec; first [assumption | prove_can]
  | |- hoare _ (_backward_compute_chunk _ _ _) _ =>
      apply backward_compute_spec; first [assumption | prove_can]
  | |- hoare _ (_forward_backward_compute_chunk _ ?dir _) _ =>
      apply forward_backward_compute_spec with (l0 := dir);
      first [assumption | prove_can]
  | |- hoare _ (_weight_chunk) _ => apply weight_spec; first [assumption | prove_can]
  | |- hoare _ (_commit_and_wait_comm) _ => apply commit_wait_spec
  | |- hoare _ (emit (EStepIter _ _)) _ => apply mark_spec
  end.

Ltac mstep :=
  mnorm;
  lazymatch goal with
  | |- hoare _ (bind (bind _ _) _) _ => apply hoare_bind_assoc
  | |- hoare _ (bind (ret _) _) _ => apply hoare_ret_bind
  | |- hoare _ (bind _ _) _ => eapply hoare_bind; [mop | intros ?; cbv beta]
  end.

(** ** The eight phases *)

Lemma after_step_pos k st i : 1 <= i -> after_step k st i = k.
Proof. destruct i; [lia | reflexivity]. Qed.

Lemma marks_snoc k M i :
  (M ++ marks_upto k i) ++ [(k, Z.of_nat i)] = M ++ marks_upto k (S i).
Proof.
  unfold marks_upto. rewrite range_S, map_app, app_assoc. reflexivity.
Qed.

Lemma cursors_eq f0 f1 b0 b1 sf0 sf1 sb0 sb1 rf0 rf1 rb0 rb1
    f0' f1' b0' b1' sf0' sf1' sb0' sb1' rf0' rf1' rb0' rb1' :
  f0 = f0' -> f1 = f1' -> b0 = b0' -> b1 = b1' -> sf0 = sf0' -> sf1 = sf1' ->
  sb0 = sb0' -> sb1 = sb1' -> rf0 = rf0' -> rf1 = rf1' -> rb0 = rb0' ->
  rb1 = rb1' ->
  MkCursors (Two f0 f1) (Two b0 b1) (Two sf0 sf1) (Two sb0 sb1) (Two rf0 rf1)
    (Two rb0 rb1)
  = MkCursors (Two f0' f1') (Two b0' b1') (Two sf0' sf1') (Two sb0' sb1')
      (Two rf0' rf1') (Two rb0' rb1').
Proof. intros; subst; reflexivity. Qed.

Lemma sched_eq_intro ids ids' q q' M M' st st' bw bw' :
  ids = ids' -> q = q' -> M = M' -> st = st' -> bw = bw' ->
  MkS ids q M st bw = MkS ids' q' M' st' bw'.
Proof. intros; subst; reflexivity. Qed.

Lemma marks_start k M : M = M ++ marks_upto k 0.
Proof. unfold marks_upto. simpl. rewrite app_nil_r. reflexivity. Qed.

Lemma bwd_6_S md od p0 p1 i :
  bwd_6 md od p0 p1 (S i)
  = bwd_6 md od p0 p1 i ++ [(p1, zb_1 md od i); (p0, zb_0 md i)].
Proof. unfold bwd_6. rewrite seq_S, flat_map_app. simpl. reflexivity. Qed.

Section Phases.

Variable T : topology.
Hypothesis HT : topo_ok T.
Variables (fo ro : bool) (crit : option callable) (Hn : nat).

Local Abbreviation Rep' := (Rep T fo ro crit Hn).

Lemma hoare_loop k (bound : nat) (Inv : nat -> sched) (body : Z -> M unit) :
  (forall i, i < bound ->
     hoare (Rep' (after_mark k (Z.of_nat i) (Inv i))) (body (Z.of_nat i))
       (fun _ => Rep' (Inv (S i)))) ->
  hoare (Rep' (Inv 0)) (loop k (Z.of_nat bound) body) (fun _ => Rep' (Inv bound)).
Proof.
  intros Hbody. unfold loop.
  eapply hoare_post.
  - apply (hoare_for_each (fun i => Rep' (Inv i))).
    intros i x Hx. apply range_lookup in Hx. destruct Hx as [-> Hi].
    eapply hoare_bind; [apply mark_spec|]. intros ?. apply Hbody, Hi.
  - intros ? s H. rewrite range_length in H. exact H.
Qed.

Variables (n h c d mid : nat) (odd : bool).
Hypothesis Hc : c + h + 1 = n.
Hypothesis Hd : d + 2 * n = Hn + h + 1.
Hypothesis Hend : is_end T = true -> h = 0.
Hypothesis Hmiddle : is_middle_rank T = true -> c = 0 /\ is_end T = false /\ 1 <= h.
Hypothesis Hcrit : is_end T = true -> fo = false -> is_not_None crit = true.
Hypothesis Hmid : h + 1 = 2 * mid + (if odd then 0 else 1).

Ltac sched_eq :=
  unfold inv_1, inv_2, inv_3, inv_4, inv_5, inv_6, inv_7, inv_8, cur12, z, t,
    after_step;
  mnorm;
  apply sched_eq_intro;
  [ apply cursors_eq; lia
  | lia
  | first [reflexivity | apply marks_snoc | apply marks_start]
  | reflexivity
  | try reflexivity;
    try (destruct (overlaped_forward_backward _); reflexivity) ].

Ltac mlast :=
  mnorm;
  first
    [ apply hoare_ret; intros ?; apply Rep_eq; sched_eq
    | eapply hoare_post; [mop | intros ? ?; apply Rep_eq; sched_eq] ].

Ltac msteps := repeat mstep; try mlast.

Ltac unfold_inv :=
  unfold inv_1, inv_2, inv_3, inv_4, inv_5, inv_6, inv_7, inv_8, cur12, z, t,
    after_step.

Ltac flags :=
  let E := fresh "E" in
  let Em := fresh "Em" in
  (destruct (is_end T) eqn:E;
   [ specialize (Hend eq_refl) | clear Hend ]);
  (destruct (is_middle_rank T) eqn:Em;
   [ destruct (Hmiddle eq_refl) as (Hm1 & Hm2 & Hm3); try discriminate Hm2
   | clear Hmiddle ]);
  (destruct fo;
   [ clear Hcrit | try specialize (Hcrit eq_refl eq_refl) ]).

Lemma phase_1_spec M st0 bw :
  hoare (Rep' (inv_1 (is_end T) M st0 bw 0)) (phase_1 T (Z.of_nat (2 * c)))
    (fun _ => Rep' (inv_1 (is_end T) M st0 bw (2 * c))).
Proof.
  unfold phase_1. apply hoare_loop. intros i Hi.
  unfold _forward_chunk. unfold_inv. flags; msteps.
Qed.

Lemma phase_2_spec M st0 bw :
  hoare (Rep' (inv_1 (is_end T) M st0 bw (2 * c))) (phase_2 T (Z.of_nat (h + 1)))
    (fun _ => Rep' (inv_2 h c (is_end T) (is_middle_rank T)
                      (M ++ marks_upto 1 (2 * c)) (after_step 1 st0 (2 * c)) bw
                      (h + 1))).
Proof.
  unfold phase_2.
  eapply hoare_bind.
  - eapply hoare_post; [apply recv_forward_spec; assumption|].
    intros ? s. apply (Rep_eq _ _ _ _ _ _
      (inv_2 h c (is_end T) (is_middle_rank T)
         (M ++ marks_upto 1 (2 * c)) (after_step 1 st0 (2 * c)) bw 0)).
    destruct (is_end T), (is_middle_rank T); sched_eq.
  - intros ?. apply hoare_loop. intros i Hi.
    unfold _forward_chunk. unfold_inv.
    flags; try destruct (Z.ltb_spec (Z.of_nat i) (Z.of_nat (h + 1) - 1));
      msteps.
Qed.

Lemma phase_3_spec M st0 bw :
  hoare (Rep' (inv_3 h c (is_end T) (is_middle_rank T) fo M st0 bw 0))
    (phase_3 T (Z.of_nat c))
    (fun _ => Rep' (inv_3 h c (is_end T) (is_middle_rank T) fo M st0 bw c)).
Proof.
  unfold phase_3. apply hoare_loop. intros i Hi.
  unfold _backward_chunk, _forward_chunk. unfold_inv. flags; msteps.
Qed.

Lemma phase_4_spec M st0 bw :
  hoare (Rep' (inv_4 n h c (is_end T) (is_middle_rank T) fo M st0 bw 0))
    (phase_4 T (Z.of_nat d))
    (fun _ => Rep' (inv_4 n h c (is_end T) (is_middle_rank T) fo M st0 bw d)).
Proof.
  unfold phase_4. apply hoare_loop. intros i Hi.
  unfold _forward_backward_chunk, _backward_chunk, _forward_chunk. unfold_inv.
  destruct i as [|i].
  - change (Z.of_nat 0 =? 0)%Z with true. flags; msteps.
  - replace (Z.of_nat (S i) =? 0)%Z with false
      by (symmetry; apply Z.eqb_neq; lia).
    flags; msteps.
Qed.

Lemma phase_5_spec M st0 bw :
  hoare (Rep' (inv_5 n h c d (is_end T) fo M st0 bw 0))
    (phase_5 T (Z.of_nat c))
    (fun _ => Rep' (inv_5 n h c d (is_end T) fo M st0 bw c)).
Proof.
  unfold phase_5. apply hoare_loop. intros i Hi.
  unfold _forward_backward_chunk, _backward_chunk, _forward_chunk. unfold_inv.
  flags; msteps.
Qed.

Lemma phase_7_spec M st0 bw :
  hoare (Rep' (inv_7 n h c d (is_end T) fo M st0 bw 0))
    (phase_7 T (Z.of_nat c))
    (fun _ => Rep' (inv_7 n h c d (is_end T) fo M st0 bw c)).
Proof.
  unfold phase_7. apply hoare_loop. intros i Hi.
  unfold _backward_chunk. unfold_inv. flags; msteps.
Qed.

Lemma phase_8_spec M st0 bw :
  hoare (Rep' (inv_8 n h c d (is_end T) fo M st0 bw 0))
    (phase_8 (Z.of_nat (h + 1)))
    (fun _ => Rep' (inv_8 n h c d (is_end T) fo M st0 bw (h + 1))).
Proof.
  unfold phase_8. apply hoare_loop. intros i Hi.
  unfold_inv. flags; msteps.
Qed.

Lemma test_mid i : (Z.of_nat i =? Z.of_nat (h + 1) / 2)%Z = (i =? mid).
Proof.
  assert (E : (Z.of_nat (h + 1) / 2 = Z.of_nat mid)%Z).
  { symmetry. apply Z.div_unique with (r := if odd then 0%Z else 1%Z);
      destruct odd; lia. }
  rewrite E. destruct (Nat.eqb_spec i mid), (Z.eqb_spec (Z.of_nat i) (Z.of_nat mid));
    try reflexivity; lia.
Qed.

Lemma test_parity :
  (Z.of_nat h mod 2 =? 1)%Z = odd /\ (Z.of_nat h mod 2 =? 0)%Z = negb odd.
Proof.
  assert (E : (Z.of_nat h mod 2 = if odd then 1 else 0)%Z).
  { symmetry. apply Z.mod_unique with (q := (Z.of_nat mid - if odd then 1 else 0)%Z);
      destruct odd; lia. }
  rewrite E. destruct odd; split; reflexivity.
Qed.

Lemma phase_6_spec M st0 bw :
  hoare
    (Rep' (inv_6 n h c d mid (is_end T) fo odd (physical T false)
             (physical T true) M st0 bw 0))
    (phase_6 T (Z.of_nat (h + 1)) (Z.of_nat h))
    (fun _ =>
       Rep' (inv_6 n h c d mid (is_end T) fo odd (physical T false)
               (physical T true) M st0 bw (h + 1))).
Proof.
  unfold phase_6.
  eapply hoare_bind; [|intros ?; apply hoare_ret; intros ? H; exact H].
  eapply hoare_conseq.
  - apply (hoare_for_each_with
      (fun i v s => v = (mid <? i)
         /\ Rep' (inv_6 n h c d mid (is_end T) fo odd (physical T false)
                    (physical T true) M st0 bw i) s)).
    intros i x v Hx. apply range_lookup in Hx. destruct Hx as [-> Hi].
    apply hoare_pure. intros ->.
    rewrite test_mid. destruct test_parity as [-> ->].
    eapply hoare_bind; [apply mark_spec|]. intros ?.
    unfold _backward_chunk. unfold_inv.
    assert (Hfin : forall (w : bool) (x x' : sched),
              w = (mid <? S i) -> x = x' ->
              hoare (Rep' x) (ret w)
                (fun w' s => w' = (mid <? S i) /\ Rep' x' s)).
    { intros w x x' -> ->. apply hoare_ret. auto. }
    destruct odd; destruct (Nat.eqb_spec i mid); destruct (Nat.ltb_spec mid i);
      try lia; cbv [andb negb];
      flags; repeat mstep; mnorm;
      (apply Hfin;
       [ symmetry; first [apply Nat.ltb_lt | apply Nat.ltb_ge]; lia
       | sched_eq;
         try (rewrite bwd_6_S, <- !app_assoc; cbn [app]; unfold zb_1, zb_0;
              repeat f_equal; symmetry;
              first [apply Nat.leb_le | apply Nat.leb_gt | apply Nat.ltb_lt
                    | apply Nat.ltb_ge]; lia) ]).
  - intros s H. split; [reflexivity | exact H].
  - intros ? s [_ H]. rewrite range_length in H. exact H.
Qed.

Hypothesis Hdpos : 1 <= d.

Ltac connect :=
  intros ?; apply Rep_eq; flags; sched_eq.

Lemma schedule_spec (num_chunks : Z) :
  (num_ranks T / 2 = Z.of_nat n)%Z ->
  num_ranks T = Z.of_nat (2 * n) ->
  Z.min (rank T) (num_ranks T - 1 - rank T) = Z.of_nat h ->
  (num_chunks / 2 = Z.of_nat Hn)%Z ->
  hoare (Rep' (inv_1 (is_end T) [] 0 [] 0)) (schedule T num_chunks)
    (fun _ =>
       Rep' (MkS (s_ids (inv_8 n h c d (is_end T) fo [] 0 [] (h + 1))) 0
               (all_marks c h d) 8
               (if fo then []
                else bwd_6 mid odd (physical T false) (physical T true) (h + 1)))).
Proof.
  intros HN HN2 Hh HH. unfold schedule. cbv zeta.
  rewrite Hh, HN, HN2, HH.
  replace ((Z.of_nat n - Z.of_nat h - 1) * 2)%Z with (Z.of_nat (2 * c)) by lia.
  replace (Z.of_nat h + 1)%Z with (Z.of_nat (h + 1)) by lia.
  replace (Z.of_nat n - Z.of_nat h - 1)%Z with (Z.of_nat c) by lia.
  replace (Z.of_nat Hn - Z.of_nat (2 * n) + Z.of_nat h + 1)%Z
    with (Z.of_nat d) by lia.
  set (M1 := ([] : list (nat * Z)) ++ marks_upto 1 (2 * c)).
  set (s1 := after_step 1 0 (2 * c)).
  set (M2 := M1 ++ marks_upto 2 (h + 1)). set (s2 := after_step 2 s1 (h + 1)).
  set (M3 := M2 ++ marks_upto 3 c). set (s3 := after_step 3 s2 c).
  set (M4 := M3 ++ marks_upto 4 d). set (s4 := after_step 4 s3 d).
  set (M5 := M4 ++ marks_upto 5 c). set (s5 := after_step 5 s4 c).
  set (M6 := M5 ++ marks_upto 6 (h + 1)). set (s6 := after_step 6 s5 (h + 1)).
  set (M7 := M6 ++ marks_upto 7 c). set (s7 := after_step 7 s6 c).
  eapply hoare_bind; [apply (phase_1_spec [] 0 [])|]. intros ?.
  eapply hoare_bind; [apply (phase_2_spec [] 0 [])|]. intros ?.
  eapply hoare_bind.
  { eapply hoare_conseq;
      [apply (phase_3_spec M2 s2 []) | connect | intros ? ? H; exact H]. }
  intros ?. eapply hoare_bind.
  { eapply hoare_conseq;
      [apply (phase_4_spec M3 s3 []) | connect | intros ? ? H; exact H]. }
  intros ?. eapply hoare_bind.
  { eapply hoare_conseq;
      [apply (phase_5_spec M4 s4 []) | connect | intros ? ? H; exact H]. }
  intros ?. eapply hoare_bind.
  { eapply hoare_conseq;
      [apply (phase_6_spec M5 s5 []) | connect | intros ? ? H; exact H]. }
  intros ?. eapply hoare_bind.
  { eapply hoare_conseq;
      [apply (phase_7_spec M6 s6
                (if fo then []
                 else [] ++ bwd_6 mid odd (physical T false) (physical T true)
                              (h + 1)))
      | connect | intros ? ? H; exact H]. }
  intros ?.
  eapply hoare_conseq;
    [apply (phase_8_spec M7 s7
              (if fo then []
               else [] ++ bwd_6 mid odd (physical T false) (physical T true)
                            (h + 1)))
    | connect |].
  intros ? ?. apply Rep_eq. unfold inv_8.
  rewrite (after_step_pos 8) by lia. flags; sched_eq.
Qed.

End Phases.

(** ** A whole step *)

Section Parameters.

Variable T : topology.
Hypothesis HT : topo_ok T.

Lemma half_ranks_spec :
  (num_ranks T / 2 = Z.of_nat (half_ranks T))%Z
  /\ num_ranks T = Z.of_nat (2 * half_ranks T).
Proof.
  destruct (topo_half T HT) as (k & Hk & HN & Hdiv). unfold half_ranks.
  rewrite Hdiv. split; lia.
Qed.

Lemma half_rank_spec :
  Z.min (rank T) (num_ranks T - 1 - rank T) = Z.of_nat (half_rank_of T)
  /\ ramp T + half_rank_of T + 1 = half_ranks T.
Proof.
  destruct (topo_half T HT) as (k & Hk & HN & Hdiv).
  pose proof (tk_rank T HT) as Hr.
  unfold ramp, half_rank_of, half_ranks. rewrite Hdiv. split; lia.
Qed.

Lemma end_half_rank : is_end T = true -> half_rank_of T = 0.
Proof.
  pose proof (tk_rank T HT) as Hr.
  unfold is_end, half_rank_of. rewrite (tk_first T HT), (tk_last T HT).
  intros [H%Z.eqb_eq | H%Z.eqb_eq]%orb_true_iff; lia.
Qed.

Lemma middle_half_rank :
  is_middle_rank T = true ->
  ramp T = 0 /\ is_end T = false /\ 1 <= half_rank_of T.
Proof.
  destruct (topo_half T HT) as (k & Hk & HN & Hdiv).
  pose proof (tk_rank T HT) as Hr.
  unfold is_end, ramp, half_rank_of, half_ranks.
  rewrite (tk_middle T HT), (tk_first T HT), (tk_last T HT), Hdiv.
  intros [H1%Z.ltb_lt H2]%andb_true_iff.
  assert (rank T = k - 1 \/ rank T = k)%Z as Hrk.
  { apply orb_true_iff in H2. destruct H2 as [H2%Z.eqb_eq | H2%Z.eqb_eq]; lia. }
  split; [lia|]. split; [|lia].
  apply orb_false_iff. split; apply Z.eqb_neq; lia.
Qed.

Lemma steady_spec num_chunks :
  valid_chunks T num_chunks ->
  (num_chunks / 2 = Z.of_nat (half_chunks num_chunks))%Z
  /\ steady T num_chunks + 2 * half_ranks T
     = half_chunks num_chunks + half_rank_of T + 1
  /\ 1 <= steady T num_chunks.
Proof.
  intros (Hpos & Heven & Hge).
  destruct (topo_half T HT) as (k & Hk & HN & Hdiv).
  pose proof (Z.div_mod num_chunks 2 ltac:(lia)) as Hdm. rewrite Heven in Hdm.
  unfold steady, half_chunks, half_ranks. rewrite Hdiv. lia.
Qed.

Lemma mid_spec (h : nat) :
  h + 1 = 2 * ((h + 1) / 2) + (if Nat.odd h then 0 else 1).
Proof.
  pose proof (Nat.div_mod_eq (h + 1) 2) as Hdm.
  assert (Hp : (h + 1) mod 2 = if Nat.odd h then 0 else 1).
  { replace (h + 1) with (S h) by lia.
    destruct (Nat.odd h) eqn:Ho.
    - apply Nat.odd_spec in Ho. destruct Ho as [k ->].
      replace (S (2 * k + 1)) with (0 + (k + 1) * 2) by lia.
      apply Nat.Div0.mod_add.
    - apply (f_equal negb) in Ho. rewrite Nat.negb_odd in Ho. simpl in Ho.
      apply Nat.even_spec in Ho. destruct Ho as [k ->].
      replace (S (2 * k)) with (1 + k * 2) by lia.
      rewrite Nat.Div0.mod_add. reflexivity. }
  lia.
Qed.

End Parameters.

Section WholeStep.

Variable T : topology.
Hypothesis HT : topo_ok T.

Lemma qok_nil from : qok [] 0 from.
Proof. split; [reflexivity|]. intros i _ Hi. lia. Qed.

Lemma qok_scatter k from : qok (map Some (scatter (Z.of_nat k))) k from.
Proof.
  unfold scatter. rewrite Nat2Z.id. split.
  - rewrite !length_map, length_seq. reflexivity.
  - intros i _ Hi. exists (Microbatch i).
    rewrite !list_lookup_fmap, lookup_seq_lt by lia. reflexivity.
Qed.

Lemma prepare_spec (num_chunks : Z) (crit : option callable) (fo ro : bool)
    (s : state) :
  (num_chunks / 2 = Z.of_nat (half_chunks num_chunks))%Z ->
  forward_only (attrs s) = fo -> return_outputs (attrs s) = ro ->
  enabled (store s) = false -> log s = [] -> history s = [] ->
  exists s',
    prepare T num_chunks crit s = (Ok tt, s')
    /\ Rep T fo ro crit (half_chunks num_chunks) (inv_1 (is_end T) [] 0 [] 0) s'.
Proof.
  intros HH Hfo Hro Hen Hlog Hhist.
  destruct (topo_flags T HT) as [H1 H2].
  exists (snd (prepare T num_chunks crit s)).
  unfold prepare. cbv zeta. rewrite HH.
  unfold _reset_states, store_clear, bind, modify, ret.
  split.
  { destruct (is_first_rank T), (is_last_rank T); reflexivity. }
  unfold Rep, inv_1, cur12, z, marks_upto, after_step, expand. simpl s_ids.
  cbv iota beta.
  constructor.
  - destruct (is_first_rank T), (is_last_rank T); exact Hfo.
  - destruct (is_first_rank T), (is_last_rank T); exact Hro.
  - destruct (is_first_rank T), (is_last_rank T); reflexivity.
  - unfold lview. destruct (is_first_rank T), (is_last_rank T),
      (is_in_second_half T), (is_end T); reflexivity.
  - simpl. destruct (is_end T); lia.
  - intros q l. unfold is_end, physical.
    destruct (is_first_rank T) eqn:Ef.
    + destruct (H1 eq_refl) as [Hs Hl]. rewrite ?Hs, ?Hl.
      destruct q, l, fo, ro; simpl;
        first [apply qok_nil | apply qok_scatter].
    + destruct (is_last_rank T) eqn:El.
      * rewrite (H2 eq_refl).
        destruct q, l, fo, ro; simpl;
          first [apply qok_nil | apply qok_scatter].
      * destruct q, l, fo, ro, (is_in_second_half T); simpl; apply qok_nil.
  - simpl. destruct (is_first_rank T), (is_last_rank T), (is_end T),
      (is_not_None crit); reflexivity.
  - unfold is_end, physical. intros He.
    destruct (is_first_rank T) eqn:Ef.
    + destruct (H1 eq_refl) as [Hs Hl]. rewrite ?Hs, ?Hl.
      eexists. split; [reflexivity|].
      simpl. unfold scatter. rewrite length_map, length_seq, Nat2Z.id.
      reflexivity.
    + destruct (is_last_rank T) eqn:El; [|discriminate He].
      rewrite (H2 eq_refl). eexists. split; [reflexivity|].
      simpl. unfold scatter. rewrite length_map, length_seq, Nat2Z.id.
      reflexivity.
  - destruct (is_first_rank T), (is_last_rank T); exact Hen.
  - destruct (is_first_rank T), (is_last_rank T); reflexivity.
  - destruct (is_first_rank T), (is_last_rank T); reflexivity.
  - destruct (is_first_rank T), (is_last_rank T); simpl; rewrite Hhist;
      constructor.
  - destruct (is_first_rank T), (is_last_rank T); simpl; rewrite Hlog;
      reflexivity.
  - destruct (is_first_rank T), (is_last_rank T); simpl; rewrite Hlog;
      reflexivity.
  - destruct (is_first_rank T), (is_last_rank T); simpl; rewrite Hlog;
      reflexivity.
Qed.

Lemma validate_spec (grad_enabled : bool) (num_chunks : Z)
    (crit : option callable) (ro : bool) (s : state) :
  p2p_configured s = true -> valid_chunks T num_chunks ->
  (grad_enabled = true -> is_end T = true -> is_not_None crit = true) ->
  validate T grad_enabled num_chunks crit ro s
  = (Ok tt,
     with_attrs (fun _ =>
       MkAttrs (negb grad_enabled) ro (num_ranks T / 2)
         (Z.min (rank T) (num_ranks T - 1 - rank T))) s).
Proof.
  intros Hp (Hpos & Heven & Hge) Hcrit.
  unfold validate, bind, gets, assert, modify, when, ret. rewrite Hp.
  rewrite (tk_even T HT). simpl.
  rewrite (proj2 (Z.ltb_lt _ _) Hpos), Heven, (proj2 (Z.leb_le _ _) Hge).
  simpl. fold (is_end T).
  destruct grad_enabled; simpl; [|reflexivity].
  destruct (is_end T); simpl; [|reflexivity].
  rewrite Hcrit by reflexivity. reflexivity.
Qed.

Lemma finish_spec (crit : option callable) (ro : bool) (s1 : state) :
  funcs_queue (store s1) = [] ->
  exists r s2,
    finish T crit ro s1 = (Ok r, s2)
    /\ history s2 = history s1
    /\ marks_of (log s2) = marks_of (log s1)
    /\ backwards_of 6 0 (log s2) = backwards_of 6 0 (log s1)
    /\ peers_of (log s2) = peers_of (log s1)
    /\ ids (ps s2) = zero_ids
    /\ funcs_queue (store s2) = []
    /\ attrs s2 = attrs s1.
Proof.
  intros Hq. unfold finish, bind, gets, assert. rewrite Hq. simpl.
  unfold _commit_and_wait_comm, bind, gets.
  destruct (comm_ops (ps s1)) as [|o ops] eqn:Ec.
  - simpl. eexists _, _. split; [reflexivity|]. simpl.
    repeat split; reflexivity.
  - simpl. eexists _, _. split; [reflexivity|]. simpl.
    rewrite marks_of_app, backwards_of_app, peers_of_app. simpl.
    rewrite !app_nil_r. repeat split; reflexivity.
Qed.

Lemma step_until_finish grad_enabled num_chunks crit ro s :
  step T grad_enabled num_chunks crit ro s
  = bind (until_finish T grad_enabled num_chunks crit ro)
      (fun _ => finish T crit ro) s.
Proof.
  unfold step, until_finish, bind.
  destruct (validate T grad_enabled num_chunks crit ro s) as [[[]|e] s1];
    [|reflexivity].
  destruct (prepare T num_chunks crit s1) as [[[]|e] s2]; [|reflexivity].
  destruct (schedule T num_chunks s2) as [[[]|e] s3]; reflexivity.
Qed.

Lemma step_run (grad_enabled : bool) (num_chunks : Z)
    (crit : option callable) (ro : bool) (s0 : state) :
  valid_chunks T num_chunks -> ready s0 ->
  (grad_enabled = true -> is_end T = true -> is_not_None crit = true) ->
  exists s1 r s2,
    until_finish T grad_enabled num_chunks crit ro s0 = (Ok tt, s1)
    /\ Rep T (negb grad_enabled) ro crit (half_chunks num_chunks)
         (final_sched T (negb grad_enabled) num_chunks) s1
    /\ finish T crit ro s1 = (Ok r, s2)
    /\ step T grad_enabled num_chunks crit ro s0 = (Ok r, s2).
Proof.
  intros Hvalid (Hp & Hen & Hlog & Hhist) Hcrit.
  destruct (half_ranks_spec T HT) as [HN HN2].
  destruct (half_rank_spec T HT) as [Hh Hc].
  destruct (steady_spec T HT num_chunks Hvalid) as (HH & Hd & Hdpos).
  pose proof (validate_spec grad_enabled num_chunks crit ro s0 Hp Hvalid Hcrit)
    as Ev.
  set (sv := with_attrs _ s0) in Ev.
  destruct (prepare_spec num_chunks crit (negb grad_enabled) ro sv HH)
    as (sp & Ep & Hrep); try reflexivity; try assumption.
  destruct (schedule_spec T HT (negb grad_enabled) ro crit
              (half_chunks num_chunks) (half_ranks T) (half_rank_of T)
              (ramp T) (steady T num_chunks) ((half_rank_of T + 1) / 2)
              (Nat.odd (half_rank_of T)) Hc Hd (end_half_rank T HT)
              (middle_half_rank T HT)) with (num_chunks := num_chunks) (s := sp)
    as ([] & s1 & Es & Hfin); try assumption.
  { intros He Hfo. apply Hcrit; [|exact He].
    destruct grad_enabled; [reflexivity | discriminate Hfo]. }
  { apply mid_spec. }
  assert (Eu : until_finish T grad_enabled num_chunks crit ro s0 = (Ok tt, s1)).
  { unfold until_finish, bind. rewrite Ev, Ep. exact Es. }
  assert (Hq : funcs_queue (store s1) = []).
  { pose proof (r_queue _ _ _ _ _ _ _ Hfin) as Hlen.
    unfold expand in Hlen. simpl s_ids in Hlen.
    destruct (inv_8 _ _ _ _ _ _ _ _ _ _) as [[[? ?] [? ?] [? ?] [? ?] [? ?] [? ?]] ? ? ? ?].
    simpl in Hlen. destruct (funcs_queue (store s1)); [reflexivity|discriminate]. }
  destruct (finish_spec crit ro s1 Hq) as (r & s2 & Ef & _).
  exists s1, r, s2. split; [exact Eu|]. split; [exact Hfin|].
  split; [exact Ef|].
  rewrite step_until_finish. unfold bind. rewrite Eu. exact Ef.
Qed.

End WholeStep.

(** ** Facts about [__init__] *)

Lemma elem_of_range n v : v ∈ range n <-> (0 <= v < n)%Z.
Proof.
  unfold range. rewrite list_elem_of_fmap. split.
  - intros (k & -> & Hk). apply elem_of_seq in Hk. lia.
  - intros Hv. exists (Z.to_nat v). split; [lia|]. apply elem_of_seq. lia.
Qed.

Lemma py_get_elem {A} (l : list A) i v : py_get l i = Some v -> v ∈ l.
Proof.
  unfold py_get. destruct (py_pos l i) as [k|]; [|discriminate].
  apply list_elem_of_lookup_2.
Qed.

Lemma py_get_nonneg {A} (l : list A) (k : nat) :
  k < length l -> py_get l (Z.of_nat k) = l !! k.
Proof.
  intros Hk. unfold py_get, py_pos.
  rewrite (proj2 (Z.leb_le _ _)) by lia.
  rewrite (proj2 (Z.ltb_lt _ _)) by lia. simpl. rewrite Nat2Z.id. reflexivity.
Qed.

Lemma py_get_last {A} (l : list A) :
  0 < length l -> py_get l (-1) = l !! (length l - 1).
Proof.
  intros Hl. unfold py_get, py_pos. simpl.
  rewrite (proj2 (Z.leb_le _ _)) by lia. simpl.
  replace (Z.to_nat (Z.of_nat (length l) + -1)) with (length l - 1) by lia.
  reflexivity.
Qed.

Lemma fill_inverse_ok (m : list Z) (L sz : nat) :
  sz < L ->
  forall idxs inv,
    length inv = L ->
    (forall i, i ∈ idxs ->
       exists r, py_get m i = Some r /\ (0 <= r < Z.of_nat sz)%Z) ->
    exists inv',
      fill_inverse m inv idxs = Ok inv'
      /\ length inv' = L
      /\ inv' !! sz = inv !! sz
      /\ forall v, v < sz ->
           (exists j, inv !! v = Some (Some j))
           \/ (exists i, i ∈ idxs /\ py_get m i = Some (Z.of_nat v)) ->
           exists j, inv' !! v = Some (Some j).
Proof.
  intros Hsz. induction idxs as [|i idxs IH]; intros inv Hlen Hin.
  - exists inv. split; [reflexivity|]. split; [assumption|].
    split; [reflexivity|].
    intros v Hv [H|(i & Hi & _)]; [exact H|]. inversion Hi.
  - destruct (Hin i) as (r & Er & Hr); [left|].
    simpl. rewrite Er.
    assert (Epos : py_pos inv r = Some (Z.to_nat r)).
    { unfold py_pos. rewrite (proj2 (Z.leb_le _ _)) by lia.
      rewrite (proj2 (Z.ltb_lt _ _)) by lia. reflexivity. }
    unfold py_set. rewrite Epos.
    destruct (IH (<[Z.to_nat r := Some i]> inv)) as (inv' & E & Hl & Hs & Hv).
    { rewrite length_insert. exact Hlen. }
    { intros j Hj. apply Hin. right. exact Hj. }
    exists inv'. split; [exact E|]. split; [exact Hl|]. split.
    { rewrite Hs. apply list_lookup_insert_ne. lia. }
    intros v Hlt Hcase. apply Hv; [exact Hlt|].
    destruct (decide (v = Z.to_nat r)) as [->|Hne].
    + left. exists i. apply list_lookup_insert_eq. lia.
    + destruct Hcase as [(j & Ej)|(k & Hk & Ek)].
      * left. exists j. rewrite list_lookup_insert_ne by lia. exact Ej.
      * apply elem_of_cons in Hk. destruct Hk as [->|Hk].
        -- rewrite Er in Ek. injection Ek as ->. lia.
        -- right. exists k. split; assumption.
Qed.

Lemma init_spec modules group_size group_rank rank_mapping T :
  valid_mapping group_size rank_mapping ->
  DualPipe_init modules group_size group_rank rank_mapping = Ok T ->
  init_facts modules group_size T.
Proof.
  intros Hvalid. unfold DualPipe_init.
  set (m := match rank_mapping with None => range group_size | Some m => m end).
  assert (Hperm : Permutation m (range group_size)).
  { subst m. destruct rank_mapping; [exact Hvalid | reflexivity]. }
  assert (Hmem : forall v, v ∈ m <-> (0 <= v < group_size)%Z).
  { intros v. rewrite Hperm. apply elem_of_range. }
  assert (Hlen : length m = Z.to_nat group_size).
  { rewrite (Permutation_length Hperm). unfold range.
    rewrite length_map, length_seq. reflexivity. }
  destruct (py_get m group_rank) as [r|] eqn:Er.
  2:{ destruct (fill_inverse _ _ _); discriminate. }
  assert (Hr : (0 <= r < group_size)%Z) by (apply Hmem, (py_get_elem _ _ _ Er)).
  set (sz := Z.to_nat group_size).
  destruct (fill_inverse_ok m (S sz) sz ltac:(lia) (range group_size)
              (replicate (Z.to_nat (group_size + 1)) None))
    as (inv & E & Hl & Hs & Hv).
  { rewrite length_replicate. lia. }
  { intros i Hi. apply elem_of_range in Hi.
    destruct (lookup_lt_is_Some_2 m (Z.to_nat i) ltac:(lia)) as [v Ev].
    exists v. split.
    - rewrite <- (Z2Nat.id i) by lia. rewrite py_get_nonneg by lia. exact Ev.
    - apply list_elem_of_lookup_2 in Ev. apply Hmem in Ev. lia. }
  rewrite E.
  assert (Hnone : inv !! sz = Some None).
  { rewrite Hs. apply lookup_replicate_2. lia. }
  assert (Hsome : forall v, v < sz -> exists j, inv !! v = Some (Some j)).
  { intros v Hlt. apply Hv; [exact Hlt|]. right.
    assert (Hin : Z.of_nat v ∈ m) by (apply Hmem; lia).
    apply list_elem_of_lookup_1 in Hin. destruct Hin as [k Ek].
    pose proof (lookup_lt_Some _ _ _ Ek) as Hk.
    exists (Z.of_nat k). split; [apply elem_of_range; lia|].
    rewrite py_get_nonneg by lia. exact Ek. }
  assert (Hidx : forall v, (0 <= v < group_size)%Z ->
            exists j, opt_index inv v = Ok (Some j)).
  { intros v Hv'. destruct (Hsome (Z.to_nat v) ltac:(lia)) as [j Ej].
    exists j. unfold opt_index. rewrite <- (Z2Nat.id v) by lia.
    rewrite py_get_nonneg by lia. rewrite Ej. reflexivity. }
  assert (Hend : opt_index inv group_size = Ok None).
  { unfold opt_index. rewrite <- (Z2Nat.id group_size) by lia.
    rewrite py_get_nonneg by lia. fold sz. rewrite Hnone. reflexivity. }
  assert (Hneg : opt_index inv (-1) = Ok None).
  { unfold opt_index. rewrite py_get_last by lia. rewrite Hl.
    replace (S sz - 1) with sz by lia. rewrite Hnone. reflexivity. }
  destruct (Hidx 0%Z ltac:(lia)) as [j0 ->].
  destruct (Hidx (group_size - 1)%Z ltac:(lia)) as [jl El].
  assert (Hprev : exists p, opt_index inv (r - 1) = Ok p /\ (p = None <-> r = 0%Z)).
  { destruct (Z.eq_dec r 0%Z) as [->|Hne].
    - exists None. split; [exact Hneg | tauto].
    - destruct (Hidx (r - 1)%Z ltac:(lia)) as [j Ej]. exists (Some j).
      split; [exact Ej|]. split; [discriminate | lia]. }
  assert (Hnext : exists p, opt_index inv (r + 1) = Ok p
                            /\ (p = None <-> r = (group_size - 1)%Z)).
  { destruct (Z.eq_dec r (group_size - 1)%Z) as [->|Hne].
    - exists None. replace (group_size - 1 + 1)%Z with group_size by lia.
      split; [exact Hend | tauto].
    - destruct (Hidx (r + 1)%Z ltac:(lia)) as [j Ej]. exists (Some j).
      split; [exact Ej|]. split; [discriminate | lia]. }
  destruct Hprev as (p & -> & Hp). destruct Hnext as (q & -> & Hq).
  rewrite El. intros [= <-]. constructor; simpl; auto.
Qed.

Lemma init_topo_ok modules group_size group_rank rank_mapping T :
  valid_mapping group_size rank_mapping ->
  DualPipe_init modules group_size group_rank rank_mapping = Ok T ->
  (group_size mod 2 = 0)%Z ->
  topo_ok T.
Proof.
  intros Hv Hi He. destruct (init_spec _ _ _ _ _ Hv Hi).
  constructor; rewrite ?if_ranks0; assumption.
Qed.

(** ** No descriptor is posted to a missing peer *)

Lemma preserves_emit (e : event) :
  Forall (fun p : option Z => p <> None) (peers_of [e]) ->
  preserves peers_named (emit e).
Proof.
  intros He. apply preserves_modify. intros s Hs. unfold peers_named.
  simpl. rewrite peers_of_app. apply Forall_app. split; assumption.
Qed.

Ltac pres_step :=
  first
    [ apply preserves_ret
    | apply preserves_raise
    | apply preserves_gets
    | apply preserves_bind; [|intros ?]
    | apply preserves_modify; intros ? H; exact H
    | apply preserves_emit; simpl; apply Forall_nil_2
    | apply preserves_for_each; intros ?
    | apply preserves_for_each_with; intros ? ?
    | match goal with
      | |- preserves _ (if ?b then _ else _) => destruct b
      | |- preserves _ (match ?o with _ => _ end) => destruct o
      end ].

Ltac pres := cbv zeta; repeat pres_step.

Lemma preserves_append_irecv src :
  src <> None -> preserves peers_named (append_irecv src).
Proof.
  intros Hsrc. unfold append_irecv. pres.
  apply preserves_emit. simpl. constructor; [exact Hsrc | constructor].
Qed.

Lemma preserves_append_isend payload dst :
  dst <> None -> preserves peers_named (append_isend payload dst).
Proof.
  intros Hdst. unfold append_isend, need. pres.
  apply preserves_emit. simpl. constructor; [exact Hdst | constructor].
Qed.

Section Peers.

Variable T : topology.
Hypothesis Hprev : prev_rank T = None -> is_first_rank T = true.
Hypothesis Hnext : next_rank T = None -> is_last_rank T = true.

Lemma recv_peer_named p :
  is_first_stage T p = false ->
  (if negb p then prev_rank T else next_rank T) <> None.
Proof.
  unfold is_first_stage. intros Hst Hnone.
  destruct p; simpl in *.
  - rewrite (Hnext Hnone) in Hst. rewrite orb_true_r in Hst. discriminate.
  - rewrite (Hprev Hnone) in Hst. discriminate.
Qed.

Lemma send_peer_named p :
  is_last_stage T p = false ->
  (if negb p then next_rank T else prev_rank T) <> None.
Proof.
  unfold is_last_stage. intros Hst Hnone.
  destruct p; simpl in *.
  - rewrite (Hprev Hnone) in Hst. discriminate.
  - rewrite (Hnext Hnone) in Hst. rewrite orb_true_r in Hst. discriminate.
Qed.

Ltac unfold_ops :=
  unfold cursor_of, incr, q_index, q_release, q_append, q_list, q_put,
    loss_at, loss_append, labels_at, store_clear, store_set_enabled,
    store_put, store_flush, store_pop, backward_pass, when, need, assert,
    _free_tensors.

Lemma preserves_recv_forward l : preserves peers_named (_recv_forward T l).
Proof.
  unfold _recv_forward. cbv zeta.
  destruct (is_first_stage T (physical T l)) eqn:E; [apply preserves_ret|].
  apply preserves_bind; [unfold_ops; pres|]. intros ?.
  apply preserves_bind; [apply preserves_append_irecv, recv_peer_named, E|].
  intros ?. unfold_ops. pres.
Qed.

Lemma preserves_send_forward l : preserves peers_named (_send_forward T l).
Proof.
  unfold _send_forward. cbv zeta.
  destruct (is_last_stage T (physical T l)) eqn:E; [apply preserves_ret|].
  apply preserves_bind; [unfold_ops; pres|]. intros ?.
  apply preserves_bind; [unfold_ops; pres|]. intros ?.
  apply preserves_bind; [unfold_ops; pres|]. intros ?.
  apply preserves_bind; [apply preserves_append_isend, send_peer_named, E|].
  intros ?. unfold_ops. pres.
Qed.

Lemma preserves_recv_backward l : preserves peers_named (_recv_backward T l).
Proof.
  unfold _recv_backward. cbv zeta.
  apply preserves_bind; [apply preserves_gets|]. intros fo.
  destruct fo; [apply preserves_ret|].
  destruct (is_last_stage T (physical T l)) eqn:E; [apply preserves_ret|].
  apply preserves_bind; [unfold_ops; pres|]. intros ?.
  apply preserves_bind; [apply preserves_append_irecv, send_peer_named, E|].
  intros ?. unfold_ops. pres.
Qed.

Lemma preserves_send_backward l : preserves peers_named (_send_backward T l).
Proof.
  unfold _send_backward. cbv zeta.
  apply preserves_bind; [apply preserves_gets|]. intros fo.
  destruct fo; [apply preserves_ret|].
  destruct (is_first_stage T (physical T l)) eqn:E; [apply preserves_ret|].
  apply preserves_bind; [unfold_ops; pres|]. intros ?.
  apply preserves_bind; [unfold_ops; pres|]. intros ?.
  apply preserves_bind; [unfold_ops; pres|]. intros ?.
  apply preserves_bind; [unfold_ops; pres|]. intros ?.
  apply preserves_append_isend, recv_peer_named, E.
Qed.

Ltac pres_all :=
  cbv zeta;
  repeat first
    [ apply preserves_recv_forward
    | apply preserves_send_forward
    | apply preserves_recv_backward
    | apply preserves_send_backward
    | pres_step
    | progress unfold_ops ].

Lemma preserves_step grad_enabled num_chunks crit ro :
  preserves peers_named (step T grad_enabled num_chunks crit ro).
Proof.
  unfold step, validate, prepare, schedule, finish, phase_1, phase_2, phase_3,
    phase_4, phase_5, phase_6, phase_7, phase_8, loop, _forward_chunk,
    _backward_chunk, _forward_backward_chunk, _weight_chunk,
    _forward_backward_compute_chunk, _forward_compute_chunk,
    _backward_compute_chunk, fused_compute_chunk, _commit_and_wait_comm,
    _reset_states.
  pres_all.
Qed.

End Peers.

(** ** What a completed step leaves *)

Section Completed.

Variable T : topology.
Hypothesis HT : topo_ok T.

Lemma final_cursors_intro fo num_chunks cs :
  valid_chunks T num_chunks ->
  lview T cs = final_ids T fo num_chunks ->
  final_cursors T fo (half_chunks num_chunks) cs.
Proof.
  intros Hvalid Hl p.
  destruct (half_rank_spec T HT) as [_ Hc].
  destruct (steady_spec T HT num_chunks Hvalid) as (_ & Hd & _).
  pose proof (end_half_rank T HT) as Hend.
  rewrite <- (physical_involutive T p).
  set (l := xorb p (is_in_second_half T)).
  rewrite (first_stage_physical T HT), (last_stage_physical T HT).
  pose proof (fun c => lview_get T c cs l) as Hg.
  rewrite Hl in Hg.
  pose proof (Hg CF) as Hf. pose proof (Hg CB) as Hb.
  pose proof (Hg CSendF) as Hsf. pose proof (Hg CSendB) as Hsb.
  pose proof (Hg CRecvF) as Hrf. pose proof (Hg CRecvB) as Hrb.
  simpl cur_get in Hf, Hb, Hsf, Hsb, Hrf, Hrb.
  rewrite Hf, Hb, Hsf, Hsb, Hrf, Hrb.
  unfold final_ids, inv_8, cur12, z, t. simpl.
  destruct (is_end T); [specialize (Hend eq_refl)|];
    destruct fo, l; simpl; lia.
Qed.

Lemma step_completes (grad_enabled : bool) (num_chunks : Z)
    (crit : option callable) (ro : bool) (s0 : state) :
  valid_chunks T num_chunks -> ready s0 ->
  (grad_enabled = true -> is_end T = true -> is_not_None crit = true) ->
  exists s1 r s2,
    until_finish T grad_enabled num_chunks crit ro s0 = (Ok tt, s1)
    /\ finish T crit ro s1 = (Ok r, s2)
    /\ step T grad_enabled num_chunks crit ro s0 = (Ok r, s2)
    /\ final_cursors T (negb grad_enabled) (half_chunks num_chunks) (ids (ps s1))
    /\ funcs_queue (store s1) = []
    /\ Forall (cursors_ok T) (history s2)
    /\ marks_of (log s2)
       = all_marks (ramp T) (half_rank_of T) (steady T num_chunks)
    /\ backwards_of 6 0 (log s2)
       = (if negb grad_enabled then []
          else bwd_6 ((half_rank_of T + 1) / 2) (Nat.odd (half_rank_of T))
                 (physical T false) (physical T true) (half_rank_of T + 1))
    /\ ids (ps s2) = zero_ids
    /\ funcs_queue (store s2) = [].
Proof.
  intros Hvalid Hready Hcrit.
  destruct (step_run T HT grad_enabled num_chunks crit ro s0 Hvalid Hready Hcrit)
    as (s1 & r & s2 & Eu & Hrep & Ef & Es).
  assert (Hq : funcs_queue (store s1) = []).
  { pose proof (r_queue _ _ _ _ _ _ _ Hrep) as Hlen.
    unfold expand in Hlen. simpl s_ids in Hlen.
    destruct (final_ids _ _ _) as [[? ?] [? ?] [? ?] [? ?] [? ?] [? ?]].
    simpl in Hlen. destruct (funcs_queue (store s1)); [reflexivity|discriminate]. }
  destruct (finish_spec T crit ro s1 Hq)
    as (r' & s2' & Ef' & Hh & Hm & Hb & _ & Hids & Hq2 & _).
  rewrite Ef in Ef'. injection Ef' as <- <-.
  assert (Hrep' := Hrep). unfold Rep in Hrep'.
  pose proof (r_ids _ _ _ _ _ _ _ Hrep') as Hl.
  pose proof (r_hist _ _ _ _ _ _ _ Hrep') as Hhist.
  pose proof (r_marks _ _ _ _ _ _ _ Hrep') as Hmk.
  pose proof (r_bwd _ _ _ _ _ _ _ Hrep') as Hbw.
  unfold expand in Hl, Hmk, Hbw. simpl s_ids in Hl, Hmk, Hbw.
  destruct (final_ids T (negb grad_enabled) num_chunks)
    as [[? ?] [? ?] [? ?] [? ?] [? ?] [? ?]] eqn:Efin.
  simpl in Hl, Hmk, Hbw.
  exists s1, r, s2.
  split; [exact Eu|]. split; [exact Ef|]. split; [exact Es|].
  split; [apply final_cursors_intro; [assumption|]; rewrite Efin; exact Hl|].
  split; [exact Hq|]. split; [rewrite Hh; exact Hhist|].
  split; [rewrite Hm; exact Hmk|]. split; [rewrite Hb; exact Hbw|].
  split; assumption.
Qed.

End Completed.

(** ** Iteration counts *)

Lemma filter_marks_upto k k' i :
  List.filter (fun m : nat * Z => Nat.eqb (fst m) k) (marks_upto k' i)
  = if Nat.eqb k' k then marks_upto k' i else [].
Proof.
  unfold marks_upto. induction (range (Z.of_nat i)) as [|x xs IH].
  - destruct (Nat.eqb k' k); reflexivity.
  - simpl. rewrite IH. destruct (Nat.eqb k' k); reflexivity.
Qed.

Lemma length_marks_upto k i : length (marks_upto k i) = i.
Proof. unfold marks_upto. rewrite length_map. apply range_length. Qed.

Lemma counts_of_all_marks l c h d :
  marks_of l = all_marks c h d ->
  counts_of l
  = map Z.of_nat [2 * c; h + 1; c; d; c; h + 1; c; h + 1].
Proof.
  intros E. unfold counts_of, iterations. rewrite E. unfold all_marks.
  simpl seq. simpl map.
  rewrite !List.filter_app, !filter_marks_upto. simpl.
  rewrite !length_app, !length_marks_upto. simpl length.
  repeat (apply (f_equal2 cons); [apply f_equal; lia|]). reflexivity.
Qed.

Lemma marks_for_all_marks c h d :
  marks_for (map Z.of_nat [2 * c; h + 1; c; d; c; h + 1; c; h + 1])
  = all_marks c h d.
Proof.
  unfold marks_for, all_marks, marks_upto. simpl.
  rewrite app_nil_r, <- !app_assoc. reflexivity.
Qed.

Lemma claimed_counts_nat T num_chunks :
  topo_ok T -> valid_chunks T num_chunks ->
  claimed_counts T num_chunks
  = map Z.of_nat
      [2 * ramp T; half_rank_of T + 1; ramp T; steady T num_chunks; ramp T;
       half_rank_of T + 1; ramp T; half_rank_of T + 1].
Proof.
  intros HT Hvalid.
  destruct (half_ranks_spec T HT) as [HN HN2].
  destruct (half_rank_spec T HT) as [Hh Hc].
  destruct (steady_spec T HT num_chunks Hvalid) as (HH & Hd & _).
  unfold claimed_counts. cbv zeta. rewrite Hh, HN, HH. rewrite HN2.
  simpl map.
  repeat (apply (f_equal2 cons); [lia|]). reflexivity.
Qed.

(** ** The properties of the specification *)

(** C1, as the code has it: with 4 ranks and 8 chunks, whatever the mode, the
    ranks with half rank 0 (ranks 0 and 3) run their eight loops 2, 1, 1, 1,
    1, 1, 1, 1 times, and the ranks with half rank 1 (ranks 1 and 2) run them
    0, 2, 0, 2, 0, 2, 0, 2 times. *)
Theorem C1_counts_4_ranks_8_chunks (grad_enabled ro overlap : bool) :
  let counts group_rank :=
    let run := construct_and_step (twin_shards overlap) 4 group_rank None
                 grad_enabled 8 (Some 0) ro fresh_state in
    match fst run with
    | Ok _ => Some (counts_of (log (snd run)))
    | Raise _ => None
    end in
  counts 0%Z = Some [2; 1; 1; 1; 1; 1; 1; 1]%Z
  /\ counts 3%Z = Some [2; 1; 1; 1; 1; 1; 1; 1]%Z
  /\ counts 1%Z = Some [0; 2; 0; 2; 0; 2; 0; 2]%Z
  /\ counts 2%Z = Some [0; 2; 0; 2; 0; 2; 0; 2]%Z.
Proof.
  destruct grad_enabled, ro, overlap; vm_compute; repeat split; reflexivity.
Qed.

(** C1, as stated, fails: on rank 1 (half rank 1) of 4 ranks with 8 chunks the
    step completes and its counts are not 0, 2, 0, 1, 1, 2, 0, 2. *)
Lemma C1_counterexample :
  exists r s',
    construct_and_step (twin_shards false) 4 1 None true 8 (Some 0) false
      fresh_state = (Ok r, s')
    /\ counts_of (log s') <> [0; 2; 0; 1; 1; 2; 0; 2]%Z.
Proof.
  eexists _, _. split; [vm_compute; reflexivity|].
  vm_compute. discriminate.
Qed.

(** C2: on an instance built by [__init__] for an even number of ranks, a step
    with a valid number of chunks returns, and it has run exactly the loops of
    steps 1 to 8, in this order, with the iteration counts of the spec's
    table. *)
Theorem C2_iteration_counts modules group_size group_rank rank_mapping T
    grad_enabled num_chunks crit ro s :
  constructed modules group_size group_rank rank_mapping T ->
  (group_size mod 2 = 0)%Z ->
  valid_chunks T num_chunks -> ready s ->
  criterion_given T grad_enabled crit ->
  exists r s',
    step T grad_enabled num_chunks crit ro s = (Ok r, s')
    /\ marks_of (log s') = marks_for (claimed_counts T num_chunks)
    /\ counts_of (log s') = claimed_counts T num_chunks.
Proof.
  intros [Hmap Hinit] Heven Hvalid Hready Hcrit.
  pose proof (init_topo_ok _ _ _ _ _ Hmap Hinit Heven) as HT.
  destruct (step_completes T HT grad_enabled num_chunks crit ro s Hvalid
              Hready Hcrit)
    as (s1 & r & s2 & _ & _ & Es & _ & _ & _ & Hm & _).
  exists r, s2. split; [exact Es|].
  rewrite (claimed_counts_nat T num_chunks HT Hvalid). split.
  - rewrite marks_for_all_marks. exact Hm.
  - apply counts_of_all_marks. exact Hm.
Qed.

Lemma rank_2_of_6_constructed :
  constructed (twin_shards false) 6 2 None rank_2_of_6.
Proof. split; [exact I | vm_compute; reflexivity]. Defined.

Lemma valid_14_chunks : valid_chunks rank_2_of_6 14.
Proof. unfold valid_chunks. simpl. repeat split; try reflexivity; lia. Defined.

Lemma fresh_ready : ready fresh_state.
Proof. repeat split; reflexivity. Defined.

Lemma C2_witness :
  exists r s',
    step rank_2_of_6 true 14 None false fresh_state = (Ok r, s')
    /\ marks_of (log s') = marks_for (claimed_counts rank_2_of_6 14)
    /\ counts_of (log s') = claimed_counts rank_2_of_6 14.
Proof.
  apply (C2_iteration_counts (twin_shards false) 6 2 None).
  - exact rank_2_of_6_constructed.
  - reflexivity.
  - exact valid_14_chunks.
  - exact fresh_ready.
  - intros _ H. vm_compute in H. discriminate H.
Defined.

(** *** Cursors *)

Lemma rank_0_of_2_constructed overlap :
  constructed (twin_shards overlap) 2 0 None (rank_0_of_2 overlap).
Proof. split; [exact I | destruct overlap; vm_compute; reflexivity]. Defined.

Lemma valid_4_chunks overlap : valid_chunks (rank_0_of_2 overlap) 4.
Proof. unfold valid_chunks. simpl. repeat split; try reflexivity; lia. Defined.

(** C3, as stated, fails: on rank 0 of 2, a training step with 4 chunks
    completes; while it runs, the cursors do not always satisfy
    [send <= compute <= recv] (the first stage computes chunks it never
    received); and neither when phase 8 is over nor when [step] returns are all
    six cursors of each phase equal to 2. *)
Lemma C3_counterexample :
  let T := rank_0_of_2 false in
  let before_finish := snd (until_finish T true 4 (Some 0) false fresh_state) in
  let run := step T true 4 (Some 0) false fresh_state in
  DualPipe_init (twin_shards false) 2 0 None = Ok T
  /\ (exists r, fst run = Ok r)
  /\ forallb claimed_order (history (snd run)) = false
  /\ claimed_final 2 (ids (ps before_finish)) = false
  /\ claimed_final 2 (ids (ps (snd run))) = false.
Proof.
  cbv zeta. split; [vm_compute; reflexivity|].
  split; [eexists; vm_compute; reflexivity|].
  repeat split; vm_compute; reflexivity.
Qed.

(** C3, as the code has it: a step with valid arguments returns; after every
    cursor update of the step the cursors are ordered as [cursors_ok] says
    (nothing is sent before it is computed, and nothing is computed before it
    is received except on the first stage, for the forward pass, and on the
    last stage, for the backward pass, where nothing is received); when phase 8
    is over the cursors are those of [final_cursors] (the number of chunks of
    a half, except the cursors that never move); and the closing reset sets
    them all to 0. *)
Theorem C3_cursor_order modules group_size group_rank rank_mapping T
    grad_enabled num_chunks crit ro s :
  constructed modules group_size group_rank rank_mapping T ->
  (group_size mod 2 = 0)%Z ->
  valid_chunks T num_chunks -> ready s ->
  criterion_given T grad_enabled crit ->
  exists s1 r s',
    until_finish T grad_enabled num_chunks crit ro s = (Ok tt, s1)
    /\ finish T crit ro s1 = (Ok r, s')
    /\ step T grad_enabled num_chunks crit ro s = (Ok r, s')
    /\ Forall (cursors_ok T) (history s')
    /\ final_cursors T (negb grad_enabled) (half_chunks num_chunks)
         (ids (ps s1))
    /\ ids (ps s') = zero_ids.
Proof.
  intros [Hmap Hinit] Heven Hvalid Hready Hcrit.
  pose proof (init_topo_ok _ _ _ _ _ Hmap Hinit Heven) as HT.
  destruct (step_completes T HT grad_enabled num_chunks crit ro s Hvalid
              Hready Hcrit)
    as (s1 & r & s2 & E1 & E2 & Es & Hfin & _ & Hhist & _ & _ & Hz & _).
  exists s1, r, s2.
  split; [exact E1|]. split; [exact E2|]. split; [exact Es|].
  split; [exact Hhist|]. split; [exact Hfin | exact Hz].
Qed.

Lemma C3_witness :
  let T := rank_2_of_6 in
  exists s1 r s',
    until_finish T true 14 None false fresh_state = (Ok tt, s1)
    /\ finish T None false s1 = (Ok r, s')
    /\ step T true 14 None false fresh_state = (Ok r, s')
    /\ Forall (cursors_ok T) (history s')
    /\ final_cursors T false 7 (ids (ps s1))
    /\ ids (ps s') = zero_ids.
Proof.
  apply (C3_cursor_order (twin_shards false) 6 2 None rank_2_of_6 true 14).
  - exact rank_2_of_6_constructed.
  - reflexivity.
  - exact valid_14_chunks.
  - exact fresh_ready.
  - intros _ H. vm_compute in H. discriminate H.
Defined.

(** C4, as stated, fails: after a forward-only step with 4 chunks on rank 0 of
    2 the weight-gradient queue is empty, but the cursors are not all equal to
    2, neither when phase 8 is over (the backward cursors are 0, and so are
    the receive cursor of the first stage and the send cursor of the last
    stage) nor when [step] returns (they are all 0). *)
Lemma C4_counterexample :
  let T := rank_0_of_2 false in
  let before_finish := snd (until_finish T false 4 None false fresh_state) in
  let run := step T false 4 None false fresh_state in
  DualPipe_init (twin_shards false) 2 0 None = Ok T
  /\ (exists r, fst run = Ok r)
  /\ claimed_final 2 (ids (ps before_finish)) = false
  /\ claimed_final 2 (ids (ps (snd run))) = false
  /\ get2 (current_b_chunk_id (ids (ps before_finish))) false = 0.
Proof.
  cbv zeta. split; [vm_compute; reflexivity|].
  split; [eexists; vm_compute; reflexivity|].
  repeat split; vm_compute; reflexivity.
Qed.

(** C4, as the code has it: a forward-only step with valid arguments returns;
    when phase 8 is over the weight-gradient queue is empty, the forward
    compute cursor of each phase is the number of chunks of a half, and so are
    the forward receive cursor, except on the first stage, and the forward send
    cursor, except on the last stage, where they are 0; the three backward
    cursors are 0; when [step] returns the queue is empty and all the cursors
    are 0. *)
Theorem C4_forward_only modules group_size group_rank rank_mapping T
    num_chunks crit ro s :
  constructed modules group_size group_rank rank_mapping T ->
  (group_size mod 2 = 0)%Z ->
  valid_chunks T num_chunks -> ready s ->
  exists s1 r s',
    until_finish T false num_chunks crit ro s = (Ok tt, s1)
    /\ finish T crit ro s1 = (Ok r, s')
    /\ step T false num_chunks crit ro s = (Ok r, s')
    /\ (forall p : bool,
          get2 (current_f_chunk_id (ids (ps s1))) p = half_chunks num_chunks
          /\ get2 (current_recv_f_chunk_id (ids (ps s1))) p
             = (if is_first_stage T p then 0 else half_chunks num_chunks)
          /\ get2 (current_send_f_chunk_id (ids (ps s1))) p
             = (if is_last_stage T p then 0 else half_chunks num_chunks)
          /\ get2 (current_b_chunk_id (ids (ps s1))) p = 0
          /\ get2 (current_recv_b_chunk_id (ids (ps s1))) p = 0
          /\ get2 (current_send_b_chunk_id (ids (ps s1))) p = 0)
    /\ funcs_queue (store s1) = []
    /\ ids (ps s') = zero_ids
    /\ funcs_queue (store s') = [].
Proof.
  intros [Hmap Hinit] Heven Hvalid Hready.
  pose proof (init_topo_ok _ _ _ _ _ Hmap Hinit Heven) as HT.
  destruct (step_completes T HT false num_chunks crit ro s Hvalid Hready)
    as (s1 & r & s2 & E1 & E2 & Es & Hfin & Hq1 & _ & _ & _ & Hz & Hq2).
  { intros H. discriminate H. }
  exists s1, r, s2.
  split; [exact E1|]. split; [exact E2|]. split; [exact Es|].
  split; [exact Hfin|]. repeat split; assumption.
Qed.

Lemma C4_witness :
  let T := rank_0_of_2 false in
  exists s1 r s',
    until_finish T false 4 None false fresh_state = (Ok tt, s1)
    /\ finish T None false s1 = (Ok r, s')
    /\ step T false 4 None false fresh_state = (Ok r, s')
    /\ (forall p : bool,
          get2 (current_f_chunk_id (ids (ps s1))) p = 2
          /\ get2 (current_recv_f_chunk_id (ids (ps s1))) p
             = (if is_first_stage T p then 0 else 2)
          /\ get2 (current_send_f_chunk_id (ids (ps s1))) p
             = (if is_last_stage T p then 0 else 2)
          /\ get2 (current_b_chunk_id (ids (ps s1))) p = 0
          /\ get2 (current_recv_b_chunk_id (ids (ps s1))) p = 0
          /\ get2 (current_send_b_chunk_id (ids (ps s1))) p = 0)
    /\ funcs_queue (store s1) = []
    /\ ids (ps s') = zero_ids
    /\ funcs_queue (store s') = [].
Proof.
  apply (C4_forward_only (twin_shards false) 2 0 None (rank_0_of_2 false) 4).
  - exact (rank_0_of_2_constructed false).
  - reflexivity.
  - exact (valid_4_chunks false).
  - exact fresh_ready.
Defined.

(** *** The weight-gradient queue *)

Lemma prepare_clears T num_chunks crit s r s1 :
  prepare T num_chunks crit s = (r, s1) -> funcs_queue (store s1) = [].
Proof.
  unfold prepare, _reset_states, store_clear, bind, modify, ret. cbv zeta.
  destruct (is_first_rank T); [|destruct (is_last_rank T)]; simpl;
    intros [= _ <-]; reflexivity.
Qed.

Lemma finish_raise T crit ro s1 :
  funcs_queue (store s1) <> [] ->
  finish T crit ro s1 = (Raise (AssertionError QueueEmptyAtEnd), s1).
Proof.
  intros Hne. unfold finish, bind, gets, assert.
  rewrite bool_decide_eq_false_2 by exact Hne. reflexivity.
Qed.

(** C5: the weight-gradient queue is empty before the schedule starts, because
    [step] has cleared it; it is empty when [step] returns, and was empty when
    phase 8 was over; and if phase 8 leaves it non-empty, [step] raises the
    final assertion there and then, with nothing committed, returned or
    reset. *)
Theorem C5_queue_empty T grad_enabled num_chunks crit ro s :
  (forall s0,
     until_schedule T grad_enabled num_chunks crit ro s = (Ok tt, s0) ->
     funcs_queue (store s0) = [])
  /\ (forall r s',
        step T grad_enabled num_chunks crit ro s = (Ok r, s') ->
        funcs_queue (store s') = []
        /\ exists s1,
             until_finish T grad_enabled num_chunks crit ro s = (Ok tt, s1)
             /\ funcs_queue (store s1) = [])
  /\ (forall s1,
        until_finish T grad_enabled num_chunks crit ro s = (Ok tt, s1) ->
        funcs_queue (store s1) <> [] ->
        step T grad_enabled num_chunks crit ro s
        = (Raise (AssertionError QueueEmptyAtEnd), s1)).
Proof.
  split; [|split].
  - intros s0. unfold until_schedule, bind.
    destruct (validate T grad_enabled num_chunks crit ro s) as [[[]|e] sv];
      [|discriminate].
    apply prepare_clears.
  - intros r s'. rewrite step_until_finish. unfold bind.
    destruct (until_finish T grad_enabled num_chunks crit ro s)
      as [[[]|e] s1]; [|discriminate].
    intros Hf.
    destruct (decide (funcs_queue (store s1) = [])) as [Hq|Hq].
    + destruct (finish_spec T crit ro s1 Hq)
        as (r' & s2 & E & _ & _ & _ & _ & _ & Hq2 & _).
      rewrite E in Hf. injection Hf as <- <-.
      split; [exact Hq2|]. exists s1. split; [reflexivity | exact Hq].
    + rewrite (finish_raise T crit ro s1 Hq) in Hf. discriminate Hf.
  - intros s1 E Hq. rewrite step_until_finish. unfold bind. rewrite E.
    apply finish_raise. exact Hq.
Qed.

Lemma C5_witness :
  let T := rank_0_of_2 true in
  funcs_queue
    (store (snd (until_schedule T true 4 (Some 0) false stale_state))) = []
  /\ funcs_queue (store (snd (step T true 4 (Some 0) false fresh_state))) = []
  /\ step T true 4 (Some 0) false stale_state
     = (Raise (AssertionError QueueEmptyAtEnd),
        snd (until_finish T true 4 (Some 0) false stale_state)).
Proof.
  cbv zeta.
  destruct (C5_queue_empty (rank_0_of_2 true) true 4 (Some 0) false
              stale_state) as (H1 & _ & H3).
  destruct (C5_queue_empty (rank_0_of_2 true) true 4 (Some 0) false
              fresh_state) as (_ & H2 & _).
  split; [|split].
  - apply H1. vm_compute. reflexivity.
  - apply (H2 (Some [Loss true 0; Loss true 1], None)).
    vm_compute. reflexivity.
  - apply H3; [vm_compute; reflexivity | vm_compute; discriminate].
Defined.

(** *** Validation *)

(** C6: when a precondition of [step] does not hold, [step] raises an
    assertion error, having posted no descriptor and run no phase (the log is
    unchanged), and having left the per-step state (queues, cursors, labels,
    losses, pending descriptors), the weight-gradient store and the recorded
    cursor history as they were. *)
Theorem C6_fail_fast T grad_enabled num_chunks crit ro s :
  preconditions T grad_enabled num_chunks crit s = false ->
  exists a s',
    step T grad_enabled num_chunks crit ro s = (Raise (AssertionError a), s')
    /\ ps s' = ps s
    /\ store s' = store s
    /\ log s' = log s
    /\ history s' = history s
    /\ p2p_configured s' = p2p_configured s.
Proof.
  unfold preconditions. intros H.
  unfold step, validate, bind, gets, assert, modify, when, ret, raise.
  destruct (p2p_configured s) eqn:E1; simpl.
  2:{ eexists _, _. repeat split; try reflexivity. exact E1. }
  destruct (num_ranks T mod 2 =? 0)%Z; simpl.
  2:{ eexists _, _. repeat split; try reflexivity. exact E1. }
  destruct ((0 <? num_chunks)%Z && (num_chunks mod 2 =? 0)%Z
            && (num_ranks T * 2 <=? num_chunks)%Z); simpl.
  2:{ eexists _, _. repeat split; try reflexivity. exact E1. }
  simpl in H. rewrite negb_involutive.
  destruct (grad_enabled && (is_first_rank T || is_last_rank T)); simpl in H.
  2:{ discriminate H. }
  rewrite H. simpl. eexists _, _. repeat split; try reflexivity. exact E1.
Qed.

Lemma C6_witness :
  exists a s',
    step rank_2_of_6 true 10 None false fresh_state
    = (Raise (AssertionError a), s')
    /\ ps s' = ps fresh_state
    /\ store s' = store fresh_state
    /\ log s' = log fresh_state
    /\ history s' = history fresh_state
    /\ p2p_configured s' = p2p_configured fresh_state.
Proof.
  apply (C6_fail_fast rank_2_of_6 true 10 None false fresh_state).
  reflexivity.
Defined.

(** *** The fused computation *)

Lemma init_overlap modules group_size group_rank rank_mapping T :
  DualPipe_init modules group_size group_rank rank_mapping = Ok T ->
  overlaped_forward_backward T
  = Nat.eqb (shard_class (fst modules)) (shard_class (snd modules))
    && class_has_overlap (fst modules).
Proof.
  unfold DualPipe_init. intros H.
  repeat match type of H with
         | context [match ?x with _ => _ end] => destruct x; try discriminate H
         end.
  injection H as <-. reflexivity.
Qed.

(** C7, as stated, fails: both shards expose the fused operation, but they
    are of different classes, so [__init__] leaves the flag off, and a
    training step runs without a single fused computation. *)
Lemma C7_counterexample :
  class_has_overlap (fst unlike_shards) = true
  /\ class_has_overlap (snd unlike_shards) = true
  /\ exists T,
       DualPipe_init unlike_shards 2 0 None = Ok T
       /\ overlaped_forward_backward T = false
       /\ (exists r, fst (step T true 4 (Some 0) false fresh_state) = Ok r)
       /\ existsb is_fused
            (log (snd (step T true 4 (Some 0) false fresh_state))) = false.
Proof.
  split; [reflexivity|]. split; [reflexivity|].
  exists (rank_0_of_2 false).
  split; [vm_compute; reflexivity|]. split; [reflexivity|].
  split; [eexists; vm_compute; reflexivity | vm_compute; reflexivity].
Qed.

(** C7, as the code has it: the flag that [__init__] computes is on exactly
    when the two shards are of the same class and that class has the fused
    operation; [_forward_backward_compute_chunk] does the forward computation
    alone in forward-only mode, the forward computation followed by the
    backward computation (without zero bubble) when the flag is off, and the
    fused computation otherwise. *)
Theorem C7_fused_path modules group_size group_rank rank_mapping T
    (phase0 phase1 : bool) (s : state) :
  DualPipe_init modules group_size group_rank rank_mapping = Ok T ->
  (overlaped_forward_backward T = true
   <-> shard_class (fst modules) = shard_class (snd modules)
       /\ class_has_overlap (fst modules) = true)
  /\ _forward_backward_compute_chunk T phase0 phase1 s
     = (if forward_only (attrs s) then _forward_compute_chunk T phase0 s
        else if overlaped_forward_backward T
             then fused_compute_chunk T phase0 phase1 s
             else (_forward_compute_chunk T phase0 ;;
                   _backward_compute_chunk T phase1 false) s).
Proof.
  intros Hinit. split.
  - rewrite (init_overlap _ _ _ _ _ Hinit), andb_true_iff, Nat.eqb_eq.
    reflexivity.
  - unfold _forward_backward_compute_chunk at 1. unfold bind at 1, gets.
    destruct (forward_only (attrs s)); [reflexivity|].
    destruct (overlaped_forward_backward T); reflexivity.
Qed.

Lemma C7_witness :
  let T := rank_0_of_2 true in
  (overlaped_forward_backward T = true
   <-> shard_class (fst (twin_shards true)) = shard_class (snd (twin_shards true))
       /\ class_has_overlap (fst (twin_shards true)) = true)
  /\ _forward_backward_compute_chunk T false true fresh_state
     = fused_compute_chunk T false true fresh_state.
Proof.
  apply (C7_fused_path (twin_shards true) 2 0 None (rank_0_of_2 true) false
           true fresh_state).
  vm_compute. reflexivity.
Defined.

(** *** Zero bubble in step 6 *)

(** A loop whose local variable is a function of the iteration number. *)
Lemma for_each_with_flag {V} (f : nat -> V) (body : Z -> V -> M V)
    (body' : Z -> M unit) :
  (forall i s,
     body (Z.of_nat i) (f i) s
     = match body' (Z.of_nat i) s with
       | (Ok _, s') => (Ok (f (S i)), s')
       | (Raise e, s') => (Raise e, s')
       end) ->
  forall n a s,
    for_each_with (map Z.of_nat (seq a n)) (f a) body s
    = match for_each (map Z.of_nat (seq a n)) body' s with
      | (Ok _, s') => (Ok (f (a + n)), s')
      | (Raise e, s') => (Raise e, s')
      end.
Proof.
  intros Hbody. induction n as [|n IH]; intros a s; simpl.
  - rewrite Nat.add_0_r. reflexivity.
  - unfold bind. rewrite Hbody.
    destruct (body' (Z.of_nat a) s) as [[[]|e] s1]; [|reflexivity].
    rewrite IH. replace (S a + n) with (a + S n) by lia. reflexivity.
Qed.

Lemma midpoint_test (h i : nat) :
  (Z.of_nat i =? (Z.of_nat h + 1) / 2)%Z = (i =? (h + 1) / 2).
Proof.
  replace (Z.of_nat h + 1)%Z with (Z.of_nat (h + 1)) by lia.
  change 2%Z with (Z.of_nat 2). rewrite <- Nat2Z.inj_div.
  destruct (Nat.eqb_spec i ((h + 1) / 2)),
    (Z.eqb_spec (Z.of_nat i) (Z.of_nat ((h + 1) / 2)));
    try reflexivity; lia.
Qed.

Lemma parity_test (h : nat) :
  (Z.of_nat h mod 2 =? 1)%Z = Nat.odd h
  /\ (Z.of_nat h mod 2 =? 0)%Z = negb (Nat.odd h).
Proof.
  pose proof (mid_spec h) as Hm.
  assert (E : (Z.of_nat h mod 2 = if Nat.odd h then 1 else 0)%Z).
  { symmetry.
    apply Z.mod_unique
      with (q := (Z.of_nat ((h + 1) / 2) - if Nat.odd h then 1 else 0)%Z);
      destruct (Nat.odd h); lia. }
  rewrite E. destruct (Nat.odd h); split; reflexivity.
Qed.

Lemma claimed_zero_bubble_1 (h i : nat) :
  claimed_zero_bubble h i true = zb_1 ((h + 1) / 2) (Nat.odd h) i.
Proof.
  unfold claimed_zero_bubble, zb_1. cbv zeta.
  destruct (Nat.ltb_spec i ((h + 1) / 2)), (Nat.ltb_spec ((h + 1) / 2) i),
    (Nat.leb_spec ((h + 1) / 2) i), (Nat.odd h); try reflexivity; lia.
Qed.

Lemma claimed_zero_bubble_0 (h i : nat) :
  claimed_zero_bubble h i false = zb_0 ((h + 1) / 2) i.
Proof.
  unfold claimed_zero_bubble, zb_0. cbv zeta.
  destruct (Nat.ltb_spec i ((h + 1) / 2)), (Nat.ltb_spec ((h + 1) / 2) i),
    (Nat.leb_spec ((h + 1) / 2) i); try reflexivity; lia.
Qed.

Lemma phase_6_flags (T : topology) (h : nat) (s : state) :
  phase_6 T (Z.of_nat h + 1) (Z.of_nat h) s = phase_6_claimed T h s.
Proof.
  unfold phase_6, phase_6_claimed, loop, range. unfold bind at 1.
  rewrite (for_each_with_flag (fun i => (h + 1) / 2 <? i) _
             (fun i => emit (EStepIter 6 i) ;;
                _backward_chunk T true
                  (claimed_zero_bubble h (Z.to_nat i) true) true true ;;
                _backward_chunk T false
                  (claimed_zero_bubble h (Z.to_nat i) false) true true)).
  - destruct (for_each _ _ s) as [[[]|e] s1]; reflexivity.
  - intros i s0. rewrite midpoint_test, Nat2Z.id.
    destruct (parity_test h) as [-> ->].
    rewrite claimed_zero_bubble_1, claimed_zero_bubble_0.
    unfold zb_1, zb_0.
    assert (E1 : (if (i =? (h + 1) / 2) && Nat.odd h then true
                  else (h + 1) / 2 <? i)
                 = (if Nat.odd h then (h + 1) / 2 <=? i
                    else (h + 1) / 2 <? i)).
    { destruct (Nat.eqb_spec i ((h + 1) / 2)), (Nat.ltb_spec ((h + 1) / 2) i),
        (Nat.leb_spec ((h + 1) / 2) i), (Nat.odd h); try reflexivity; lia. }
    rewrite E1.
    assert (E0 : (if (i =? (h + 1) / 2) && negb (Nat.odd h) then true
                  else if Nat.odd h then (h + 1) / 2 <=? i
                       else (h + 1) / 2 <? i)
                 = ((h + 1) / 2 <=? i)).
    { destruct (Nat.eqb_spec i ((h + 1) / 2)), (Nat.ltb_spec ((h + 1) / 2) i),
        (Nat.leb_spec ((h + 1) / 2) i), (Nat.odd h); try reflexivity; lia. }
    rewrite E0.
    assert (ES : ((h + 1) / 2 <? S i) = ((h + 1) / 2 <=? i)).
    { destruct (Nat.ltb_spec ((h + 1) / 2) (S i)),
        (Nat.leb_spec ((h + 1) / 2) i); try reflexivity; lia. }
    rewrite ES. unfold bind.
    destruct (emit (EStepIter 6 (Z.of_nat i)) s0) as [[[]|e] s1];
      [|reflexivity].
    destruct (_backward_chunk T true _ true true s1) as [[[]|e] s2];
      [|reflexivity].
    destruct (_backward_chunk T false _ true true s2) as [[[]|e] s3];
      reflexivity.
Qed.

Lemma claimed_backwards_bwd_6 (T : topology) (h : nat) :
  bwd_6 ((h + 1) / 2) (Nat.odd h) (physical T false) (physical T true) (h + 1)
  = claimed_backwards T h.
Proof.
  unfold bwd_6, claimed_backwards. apply flat_map_ext. intros i.
  rewrite claimed_zero_bubble_1, claimed_zero_bubble_0. reflexivity.
Qed.

(** C8: step 6 is a loop of [half_rank + 1] iterations, each a backward of
    direction 1 followed by a backward of direction 0, in which zero bubble is
    off before iteration [(half_rank + 1) / 2] and on after it, and in that
    iteration is on from the backward of direction 1 when [half_rank] is odd
    and from the backward of direction 0 when it is even; and a training step
    with valid arguments returns having run step 6 that many times, with
    exactly these backward passes. *)
Theorem C8_zero_bubble_switch modules group_size group_rank rank_mapping T
    num_chunks crit ro s :
  constructed modules group_size group_rank rank_mapping T ->
  (group_size mod 2 = 0)%Z ->
  valid_chunks T num_chunks -> ready s ->
  criterion_given T true crit ->
  let h := half_rank_of T in
  Z.min (rank T) (num_ranks T - 1 - rank T) = Z.of_nat h
  /\ (forall s0,
        phase_6 T (Z.of_nat h + 1) (Z.of_nat h) s0 = phase_6_claimed T h s0)
  /\ exists r s',
       step T true num_chunks crit ro s = (Ok r, s')
       /\ iterations 6 (log s') = h + 1
       /\ backwards_of 6 0 (log s') = claimed_backwards T h.
Proof.
  intros [Hmap Hinit] Heven Hvalid Hready Hcrit h.
  pose proof (init_topo_ok _ _ _ _ _ Hmap Hinit Heven) as HT.
  split; [exact (proj1 (half_rank_spec T HT))|].
  split; [intros s0; apply phase_6_flags|].
  destruct (step_completes T HT true num_chunks crit ro s Hvalid Hready Hcrit)
    as (s1 & r & s2 & _ & _ & Es & _ & _ & _ & Hm & Hb & _).
  exists r, s2. split; [exact Es|]. split.
  - pose proof (counts_of_all_marks _ _ _ _ Hm) as Hc.
    unfold counts_of in Hc. simpl in Hc.
    injection Hc as _ _ _ _ _ H6 _ _. fold h in H6. lia.
  - rewrite Hb. simpl. apply claimed_backwards_bwd_6.
Qed.

Lemma rank_1_of_4_constructed :
  constructed (twin_shards false) 4 1 None rank_1_of_4.
Proof. split; [exact I | vm_compute; reflexivity]. Defined.

Lemma valid_8_chunks : valid_chunks rank_1_of_4 8.
Proof. unfold valid_chunks. simpl. repeat split; try reflexivity; lia. Defined.

Lemma C8_witness :
  let T := rank_1_of_4 in
  Z.min (rank T) (num_ranks T - 1 - rank T) = 1%Z
  /\ (forall s0, phase_6 T 2 1 s0 = phase_6_claimed T 1 s0)
  /\ exists r s',
       step T true 8 None false fresh_state = (Ok r, s')
       /\ iterations 6 (log s') = 2
       /\ backwards_of 6 0 (log s')
          = [(true, false); (false, false); (true, true); (false, true)].
Proof.
  apply (C8_zero_bubble_switch (twin_shards false) 4 1 None rank_1_of_4 8).
  - exact rank_1_of_4_constructed.
  - reflexivity.
  - exact valid_8_chunks.
  - exact fresh_ready.
  - intros _ H. vm_compute in H. discriminate H.
Defined.

(** *** Middle ranks *)

Lemma init_middle modules group_size group_rank rank_mapping T :
  DualPipe_init modules group_size group_rank rank_mapping = Ok T ->
  is_middle_rank T
  = (2 <? num_ranks T)%Z
    && ((rank T =? num_ranks T / 2 - 1)%Z || (rank T =? num_ranks T / 2)%Z).
Proof.
  unfold DualPipe_init. intros H.
  repeat match type of H with
         | context [match ?x with _ => _ end] => destruct x; try discriminate H
         end.
  injection H as <-. reflexivity.
Qed.

(** C9: the rank that [__init__] builds is a middle rank exactly when there
    are more than 2 ranks and its logical rank is [num_ranks / 2 - 1] or
    [num_ranks / 2]; so with 2 ranks it is not a middle rank, and steps 2 and 4
    run as they are written without their middle-rank branches. *)
Theorem C9_middle_rank modules group_size group_rank rank_mapping T :
  DualPipe_init modules group_size group_rank rank_mapping = Ok T ->
  (is_middle_rank T = true
   <-> (2 < num_ranks T)%Z
       /\ (rank T = num_ranks T / 2 - 1 \/ rank T = num_ranks T / 2)%Z)
  /\ (num_ranks T = 2%Z ->
      is_middle_rank T = false
      /\ forall bound s,
           phase_2 T bound s = phase_2_plain T bound s
           /\ phase_4 T bound s = phase_4_plain T bound s).
Proof.
  intros Hinit. pose proof (init_middle _ _ _ _ _ Hinit) as Hm. split.
  - rewrite Hm, andb_true_iff, orb_true_iff, Z.ltb_lt, !Z.eqb_eq.
    reflexivity.
  - intros H2. rewrite H2 in Hm. simpl in Hm. split; [exact Hm|].
    intros bound s. unfold phase_2, phase_2_plain, phase_4, phase_4_plain.
    rewrite Hm. split; reflexivity.
Qed.

Lemma C9_witness :
  let T := rank_0_of_2 false in
  (is_middle_rank T = true
   <-> (2 < num_ranks T)%Z
       /\ (rank T = num_ranks T / 2 - 1 \/ rank T = num_ranks T / 2)%Z)
  /\ (num_ranks T = 2%Z ->
      is_middle_rank T = false
      /\ forall bound s,
           phase_2 T bound s = phase_2_plain T bound s
           /\ phase_4 T bound s = phase_4_plain T bound s).
Proof.
  apply (C9_middle_rank (twin_shards false) 2 0 None (rank_0_of_2 false)).
  vm_compute. reflexivity.
Defined.

(** *** Missing neighbours *)

(** C10: on an instance built by [__init__], the previous rank of logical
    rank 0 and the next rank of the last logical rank are [None];
    [_recv_forward] and [_send_backward] return at once on the first stage of
    the rank, [_send_forward] and [_recv_backward] on its last stage; and
    whatever [step] is called with and whatever state it finds, every
    descriptor it posts names a peer. *)
Theorem C10_no_missing_peer modules group_size group_rank rank_mapping T :
  constructed modules group_size group_rank rank_mapping T ->
  (rank T = 0%Z -> prev_rank T = None)
  /\ (rank T = (num_ranks T - 1)%Z -> next_rank T = None)
  /\ (forall phase s,
        is_first_stage T (physical T phase) = true ->
        _recv_forward T phase s = (Ok tt, s)
        /\ _send_backward T phase s = (Ok tt, s))
  /\ (forall phase s,
        is_last_stage T (physical T phase) = true ->
        _send_forward T phase s = (Ok tt, s)
        /\ _recv_backward T phase s = (Ok tt, s))
  /\ (forall grad_enabled num_chunks crit ro s,
        peers_named s ->
        peers_named (snd (step T grad_enabled num_chunks crit ro s))).
Proof.
  intros [Hmap Hinit].
  destruct (init_spec _ _ _ _ _ Hmap Hinit)
    as [Hranks _ Hfirst Hlast _ _ _ Hprev Hnext].
  split; [apply Hprev|]. split; [rewrite Hranks; apply Hnext|].
  split; [|split].
  - intros phase s Hst.
    unfold _recv_forward, _send_backward, bind, gets, ret. cbv zeta.
    rewrite Hst. destruct (forward_only (attrs s)); split; reflexivity.
  - intros phase s Hst.
    unfold _send_forward, _recv_backward, bind, gets, ret. cbv zeta.
    rewrite Hst. destruct (forward_only (attrs s)); split; reflexivity.
  - intros grad_enabled num_chunks crit ro. apply preserves_step.
    + intros Hn. rewrite Hfirst. apply Z.eqb_eq, Hprev, Hn.
    + intros Hn. rewrite Hlast. apply Z.eqb_eq, Hnext, Hn.
Qed.

Lemma C10_witness :
  let T := rank_0_of_2 false in
  (rank T = 0%Z -> prev_rank T = None)
  /\ (rank T = (num_ranks T - 1)%Z -> next_rank T = None)
  /\ (forall phase s,
        is_first_stage T (physical T phase) = true ->
        _recv_forward T phase s = (Ok tt, s)
        /\ _send_backward T phase s = (Ok tt, s))
  /\ (forall phase s,
        is_last_stage T (physical T phase) = true ->
        _send_forward T phase s = (Ok tt, s)
        /\ _recv_backward T phase s = (Ok tt, s))
  /\ (forall grad_enabled num_chunks crit ro s,
        peers_named s ->
        peers_named (snd (step T grad_enabled num_chunks crit ro s))).
Proof.
  apply (C10_no_missing_peer (twin_shards false) 2 0 None (rank_0_of_2 false)).
  exact (rank_0_of_2_constructed false).
Defined.

(** * Further properties of the code *)

(** ** More about [__init__] *)

(** What the loop of [__init__] writes is the inverse of the mapping. *)
Lemma fill_inverse_sound (m : list Z) (size : Z) :
  forall idxs inv inv',
    fill_inverse m inv idxs = Ok inv' ->
    (forall i r, i ∈ idxs -> py_get m i = Some r -> (0 <= r)%Z) ->
    (forall i, i ∈ idxs -> (0 <= i < size)%Z) ->
    (forall v j, inv !! v = Some (Some j) ->
       (0 <= j < size)%Z /\ py_get m j = Some (Z.of_nat v)) ->
    forall v j, inv' !! v = Some (Some j) ->
      (0 <= j < size)%Z /\ py_get m j = Some (Z.of_nat v).
Proof.
  induction idxs as [|i idxs IH]; intros inv inv' E Hpos Hin Hinv.
  - injection E as <-. exact Hinv.
  - simpl in E. destruct (py_get m i) as [r|] eqn:Er; [|discriminate E].
    assert (Hr : (0 <= r)%Z) by (apply (Hpos i); [left | exact Er]).
    unfold py_set, py_pos in E.
    rewrite (proj2 (Z.leb_le _ _) Hr) in E. simpl in E.
    destruct (r <? Z.of_nat (length inv))%Z eqn:Elt.
    2:{ destruct ((- Z.of_nat (length inv) <=? r)%Z && (r <? 0)%Z) eqn:E2;
          [|discriminate E].
        apply andb_true_iff in E2. destruct E2 as [_ E2%Z.ltb_lt]. lia. }
    apply Z.ltb_lt in Elt.
    apply (IH _ _ E).
    + intros k q Hk. apply Hpos. right. exact Hk.
    + intros k Hk. apply Hin. right. exact Hk.
    + intros v j Ev.
      destruct (decide (v = Z.to_nat r)) as [->|Hne].
      * rewrite list_lookup_insert_eq in Ev by lia. injection Ev as <-.
        split; [apply Hin; left|]. rewrite Z2Nat.id by lia. exact Er.
      * rewrite list_lookup_insert_ne in Ev by lia. apply Hinv, Ev.
Qed.

Lemma mapping_facts (group_size : Z) (rank_mapping : option (list Z)) :
  valid_mapping group_size rank_mapping ->
  let m := mapping_of group_size rank_mapping in
  Permutation m (range group_size)
  /\ (forall v, v ∈ m <-> (0 <= v < group_size)%Z)
  /\ length m = Z.to_nat group_size
  /\ NoDup m.
Proof.
  intros Hvalid m.
  assert (Hperm : Permutation m (range group_size)).
  { subst m. destruct rank_mapping; [exact Hvalid | reflexivity]. }
  split; [exact Hperm|]. split; [|split].
  - intros v. rewrite Hperm. apply elem_of_range.
  - rewrite (Permutation_length Hperm). unfold range.
    rewrite length_map, length_seq. reflexivity.
  - rewrite Hperm. unfold range. apply NoDup_fmap_2; [|apply NoDup_seq].
    intros x y H. lia.
Qed.

Lemma py_get_in_range {A} (l : list A) (i : Z) :
  (0 <= i < Z.of_nat (length l))%Z -> py_get l i = l !! Z.to_nat i.
Proof.
  intros Hi. rewrite <- (Z2Nat.id i) at 1 by lia. apply py_get_nonneg. lia.
Qed.

(** [__init__] on a permutation mapping: the ranks it records. *)
Lemma init_hosts modules group_size group_rank rank_mapping :
  valid_mapping group_size rank_mapping ->
  (0 <= group_rank < group_size)%Z ->
  let m := mapping_of group_size rank_mapping in
  exists T,
    DualPipe_init modules group_size group_rank rank_mapping = Ok T
    /\ py_get m group_rank = Some (rank T)
    /\ hosts m group_size (first_rank T) 0
    /\ hosts m group_size (last_rank T) (group_size - 1)
    /\ (rank T <> 0%Z -> hosts m group_size (prev_rank T) (rank T - 1))
    /\ (rank T <> (group_size - 1)%Z ->
        hosts m group_size (next_rank T) (rank T + 1)).
Proof.
  intros Hvalid Hg m.
  destruct (mapping_facts group_size rank_mapping Hvalid)
    as (Hperm & Hmem & Hlen & Hnd). fold m in Hperm, Hmem, Hlen, Hnd.
  unfold DualPipe_init. fold (mapping_of group_size rank_mapping). fold m.
  destruct (lookup_lt_is_Some_2 m (Z.to_nat group_rank) ltac:(lia)) as [r Er].
  assert (Eg : py_get m group_rank = Some r).
  { rewrite py_get_in_range by lia. exact Er. }
  assert (Hr : (0 <= r < group_size)%Z).
  { apply Hmem. apply (list_elem_of_lookup_2 _ _ _ Er). }
  set (sz := Z.to_nat group_size).
  set (inv0 := replicate (Z.to_nat (group_size + 1)) (@None Z)).
  assert (Hall : forall i, i ∈ range group_size ->
            exists v, py_get m i = Some v /\ (0 <= v < Z.of_nat sz)%Z).
  { intros i Hi. apply elem_of_range in Hi.
    destruct (lookup_lt_is_Some_2 m (Z.to_nat i) ltac:(lia)) as [v Ev].
    exists v. split.
    - rewrite py_get_in_range by lia. exact Ev.
    - apply list_elem_of_lookup_2 in Ev. apply Hmem in Ev. lia. }
  destruct (fill_inverse_ok m (S sz) sz ltac:(lia) (range group_size) inv0)
    as (inv & E & Hl & Hs & Hv).
  { subst inv0. rewrite length_replicate. lia. }
  { exact Hall. }
  rewrite E, Eg.
  assert (Hsound : forall v j, inv !! v = Some (Some j) ->
            (0 <= j < group_size)%Z /\ py_get m j = Some (Z.of_nat v)).
  { apply (fill_inverse_sound m group_size (range group_size) inv0 inv E).
    - intros i q Hi Eq. destruct (Hall i Hi) as (v & Ev & Hv').
      rewrite Ev in Eq. injection Eq as <-. lia.
    - intros i Hi. apply elem_of_range, Hi.
    - intros v j Ev. subst inv0. apply lookup_replicate in Ev.
      destruct Ev as [Ev _]. discriminate Ev. }
  assert (Hsome : forall v, (0 <= v < group_size)%Z ->
            exists j, opt_index inv v = Ok (Some j)
                      /\ hosts m group_size (Some j) v).
  { intros v Hv'.
    destruct (Hv (Z.to_nat v) ltac:(lia)) as [j Ej].
    { right. assert (Hin : v ∈ m) by (apply Hmem; lia).
      apply list_elem_of_lookup_1 in Hin. destruct Hin as [k Ek].
      pose proof (lookup_lt_Some _ _ _ Ek) as Hk.
      exists (Z.of_nat k). split; [apply elem_of_range; lia|].
      rewrite py_get_nonneg by lia. rewrite Z2Nat.id by lia. exact Ek. }
    exists j. split.
    - unfold opt_index. rewrite py_get_in_range by lia. rewrite Ej.
      reflexivity.
    - destruct (Hsound _ _ Ej) as [Hj Em]. exists j.
      split; [reflexivity|]. split; [exact Hj|].
      rewrite Em. rewrite Z2Nat.id by lia. reflexivity. }
  assert (Hnone : inv !! sz = Some None).
  { rewrite Hs. subst inv0. apply lookup_replicate_2. lia. }
  assert (Hend : opt_index inv group_size = Ok None).
  { unfold opt_index. rewrite py_get_in_range by lia. fold sz.
    rewrite Hnone. reflexivity. }
  assert (Hneg : opt_index inv (-1) = Ok None).
  { unfold opt_index. rewrite py_get_last by lia. rewrite Hl.
    replace (S sz - 1) with sz by lia. rewrite Hnone. reflexivity. }
  destruct (Hsome 0%Z ltac:(lia)) as (j0 & -> & H0).
  destruct (Hsome (group_size - 1)%Z ltac:(lia)) as (jl & El & Hlast).
  assert (Hprev : exists p, opt_index inv (r - 1) = Ok p
            /\ (r <> 0%Z -> hosts m group_size p (r - 1))).
  { destruct (Z.eq_dec r 0%Z) as [->|Hne].
    - exists None. split; [exact Hneg | intros H; contradiction].
    - destruct (Hsome (r - 1)%Z ltac:(lia)) as (j & Ej & Hj).
      exists (Some j). split; [exact Ej | intros _; exact Hj]. }
  assert (Hnext : exists p, opt_index inv (r + 1) = Ok p
            /\ (r <> (group_size - 1)%Z -> hosts m group_size p (r + 1))).
  { destruct (Z.eq_dec r (group_size - 1)%Z) as [->|Hne].
    - exists None. replace (group_size - 1 + 1)%Z with group_size by lia.
      split; [exact Hend | intros H; contradiction].
    - destruct (Hsome (r + 1)%Z ltac:(lia)) as (j & Ej & Hj).
      exists (Some j). split; [exact Ej | intros _; exact Hj]. }
  destruct Hprev as (p & -> & Hp). destruct Hnext as (q & -> & Hq).
  rewrite El. eexists. split; [reflexivity|]. simpl.
  repeat split; assumption.
Qed.


Lemma mapping_2031_valid : valid_mapping 4 (Some [2; 0; 3; 1]%Z).
Proof.
  unfold valid_mapping. apply (bool_decide_unpack _). vm_compute. reflexivity.
Defined.


Lemma mapping_injective (m : list Z) (i j : Z) (v : Z) :
  NoDup m ->
  (0 <= i < Z.of_nat (length m))%Z -> (0 <= j < Z.of_nat (length m))%Z ->
  py_get m i = Some v -> py_get m j = Some v -> i = j.
Proof.
  intros Hnd Hi Hj Ei Ej.
  rewrite py_get_in_range in Ei, Ej by assumption.
  pose proof (NoDup_lookup _ _ _ _ Hnd Ei Ej). lia.
Qed.

(** X2: two instances built over the same permutation mapping agree on who
    is next to whom: the first records the group rank of the second as its
    next rank exactly when the second is one stage after it, and exactly when
    the second records the group rank of the first as its previous rank. *)
Theorem neighbours_symmetric modules group_size rank_mapping g g' T T' :
  valid_mapping group_size rank_mapping ->
  (0 <= g < group_size)%Z -> (0 <= g' < group_size)%Z ->
  DualPipe_init modules group_size g rank_mapping = Ok T ->
  DualPipe_init modules group_size g' rank_mapping = Ok T' ->
  (next_rank T = Some g' <-> rank T' = (rank T + 1)%Z)
  /\ (prev_rank T' = Some g <-> rank T' = (rank T + 1)%Z).
Proof.
  intros Hvalid Hg Hg' E E'.
  destruct (mapping_facts group_size rank_mapping Hvalid)
    as (_ & Hmem & Hlen & Hnd).
  set (m := mapping_of group_size rank_mapping) in *.
  destruct (init_hosts modules group_size g rank_mapping Hvalid Hg)
    as (T0 & E0 & Em & _ & _ & _ & Hnext).
  rewrite E in E0. injection E0 as <-.
  destruct (init_hosts modules group_size g' rank_mapping Hvalid Hg')
    as (T0 & E0 & Em' & _ & _ & Hprev & _).
  rewrite E' in E0. injection E0 as <-.
  fold m in Em, Em', Hnext, Hprev.
  destruct (init_spec _ _ _ _ _ Hvalid E) as [_ Hr _ _ _ _ _ _ Hnn].
  destruct (init_spec _ _ _ _ _ Hvalid E') as [_ Hr' _ _ _ _ _ Hpn _].
  split; split.
  - intros Hn.
    assert (Hne : rank T <> (group_size - 1)%Z).
    { intros H. apply Hnn in H. rewrite H in Hn. discriminate Hn. }
    destruct (Hnext Hne) as (k & Ek & _ & Emk). rewrite Hn in Ek.
    injection Ek as <-. rewrite Emk in Em'. injection Em' as <-. reflexivity.
  - intros Hrk.
    assert (Hne : rank T <> (group_size - 1)%Z) by lia.
    destruct (Hnext Hne) as (k & Ek & Hk & Emk). rewrite Ek. f_equal.
    rewrite <- Hrk in Emk.
    apply (mapping_injective m k g' (rank T') Hnd); try assumption; lia.
  - intros Hp.
    assert (Hne : rank T' <> 0%Z).
    { intros H. apply Hpn in H. rewrite H in Hp. discriminate Hp. }
    destruct (Hprev Hne) as (k & Ek & _ & Emk). rewrite Hp in Ek.
    injection Ek as <-. rewrite Emk in Em. injection Em as Hrk. lia.
  - intros Hrk.
    assert (Hne : rank T' <> 0%Z) by lia.
    destruct (Hprev Hne) as (k & Ek & Hk & Emk). rewrite Ek. f_equal.
    replace (rank T' - 1)%Z with (rank T) in Emk by lia.
    apply (mapping_injective m k g (rank T) Hnd); try assumption; lia.
Qed.

Lemma neighbours_symmetric_witness :
  let mapping := Some [2; 0; 3; 1]%Z in
  exists T T',
    DualPipe_init (twin_shards false) 4 1 mapping = Ok T
    /\ DualPipe_init (twin_shards false) 4 3 mapping = Ok T'
    /\ (next_rank T = Some 3%Z <-> rank T' = (rank T + 1)%Z)
    /\ (prev_rank T' = Some 1%Z <-> rank T' = (rank T + 1)%Z).
Proof.
  cbv zeta. eexists _, _.
  split; [vm_compute; reflexivity|]. split; [vm_compute; reflexivity|].
  apply (neighbours_symmetric (twin_shards false) 4 (Some [2; 0; 3; 1]%Z) 1 3).
  - exact mapping_2031_valid.
  - lia.
  - lia.
  - vm_compute. reflexivity.
  - vm_compute. reflexivity.
Defined.

Lemma fill_inverse_needs (m : list Z) :
  forall idxs inv inv',
    fill_inverse m inv idxs = Ok inv' ->
    length inv' = length inv
    /\ forall i, i ∈ idxs ->
         exists r, py_get m i = Some r
                   /\ (- Z.of_nat (length inv) <= r < Z.of_nat (length inv))%Z.
Proof.
  induction idxs as [|i idxs IH]; intros inv inv' E.
  - injection E as <-. split; [reflexivity|]. intros i Hi. inversion Hi.
  - simpl in E. destruct (py_get m i) as [r|] eqn:Er; [|discriminate E].
    unfold py_set in E.
    destruct (py_pos inv r) as [k|] eqn:Ek; [|discriminate E].
    destruct (IH _ _ E) as [Hl Hall]. rewrite length_insert in Hl, Hall.
    split; [exact Hl|].
    intros j Hj. apply elem_of_cons in Hj. destruct Hj as [->|Hj].
    + exists r. split; [exact Er|]. unfold py_pos in Ek.
      destruct ((0 <=? r)%Z && (r <? Z.of_nat (length inv))%Z) eqn:E1.
      * apply andb_true_iff in E1. destruct E1 as [H1%Z.leb_le H2%Z.ltb_lt].
        lia.
      * destruct ((- Z.of_nat (length inv) <=? r)%Z && (r <? 0)%Z) eqn:E2;
          [|discriminate Ek].
        apply andb_true_iff in E2. destruct E2 as [H1%Z.leb_le H2%Z.ltb_lt].
        lia.
    + apply Hall, Hj.
Qed.

(** X3: [__init__] does not check the rank mapping, but it raises
    [IndexError] as soon as a rank of the group has no entry in the mapping,
    or an entry that falls outside the inverse table of [num_ranks + 1]
    slots. *)
Theorem init_index_error modules group_size group_rank (m : list Z) (i : Z) :
  (0 <= i < group_size)%Z ->
  (forall r, py_get m i = Some r ->
             (r < - (group_size + 1) \/ group_size < r)%Z) ->
  DualPipe_init modules group_size group_rank (Some m) = Raise IndexError.
Proof.
  intros Hi Hbad. unfold DualPipe_init.
  destruct (fill_inverse m _ (range group_size)) as [inv|e] eqn:E.
  - exfalso. destruct (fill_inverse_needs _ _ _ _ E) as [_ Hall].
    destruct (Hall i) as (r & Er & Hr); [apply elem_of_range, Hi|].
    rewrite length_replicate in Hr. specialize (Hbad r Er). lia.
  - clear Hbad. revert E. generalize (range group_size).
    generalize (replicate (Z.to_nat (group_size + 1)) (@None Z)).
    intros inv idxs. revert inv.
    induction idxs as [|k idxs IH]; intros inv E; [discriminate E|].
    simpl in E. destruct (py_get m k) as [r|]; [|injection E as <-; reflexivity].
    destruct (py_set inv r (Some k)) as [inv'|];
      [|injection E as <-; reflexivity].
    apply (IH _ E).
Qed.

Lemma init_index_error_witness :
  DualPipe_init (twin_shards false) 2 0 (Some [0]%Z) = Raise IndexError.
Proof.
  apply (init_index_error (twin_shards false) 2 0 [0]%Z 1).
  - lia.
  - intros r H. vm_compute in H. discriminate H.
Defined.

(** ** Invariants of the calls that return *)

Lemma wp_ret {A} (a : A) (Q : A -> state -> Prop) s : Q a s -> wp (ret a) Q s.
Proof. intros H. exact H. Qed.

Lemma wp_raise {A} (e : exn) (Q : A -> state -> Prop) s : wp (raise e) Q s.
Proof. exact I. Qed.

Lemma wp_gets {A} (f : state -> A) (Q : A -> state -> Prop) s :
  Q (f s) s -> wp (gets f) Q s.
Proof. intros H. exact H. Qed.

Lemma wp_modify (f : state -> state) (Q : unit -> state -> Prop) s :
  Q tt (f s) -> wp (modify f) Q s.
Proof. intros H. exact H. Qed.

Lemma wp_bind {A B} (m : M A) (k : A -> M B) (Q : B -> state -> Prop) s :
  wp m (fun a s' => wp (k a) Q s') s -> wp (bind m k) Q s.
Proof.
  unfold wp, bind. destruct (m s) as [[a|e] s']; intros H; exact H.
Qed.

Lemma wp_mono {A} (m : M A) (Q Q' : A -> state -> Prop) s :
  (forall a s', Q a s' -> Q' a s') -> wp m Q s -> wp m Q' s.
Proof.
  unfold wp. destruct (m s) as [[a|e] s']; intros H HQ; [apply H, HQ | exact I].
Qed.

Lemma wp_keeps {A B} (I : state -> Prop) (m : M A) (k : A -> M B)
    (Q : B -> state -> Prop) s :
  keeps I m -> I s -> (forall a s', I s' -> wp (k a) Q s') ->
  wp (bind m k) Q s.
Proof.
  intros Hm HI Hk. apply wp_bind. eapply wp_mono; [|apply Hm, HI].
  intros a s' HI'. apply Hk, HI'.
Qed.

Lemma wp_ok {A} (m : M A) (Q : A -> state -> Prop) s a s' :
  wp m Q s -> m s = (Ok a, s') -> Q a s'.
Proof. unfold wp. intros H E. rewrite E in H. exact H. Qed.

Lemma keeps_ret {A} (I : state -> Prop) (a : A) : keeps I (ret a).
Proof. intros s H. exact H. Qed.

Lemma keeps_raise {A} (I : state -> Prop) (e : exn) : keeps I (@raise A e).
Proof. intros s H. exact Logic.I. Qed.

Lemma keeps_gets {A} (I : state -> Prop) (f : state -> A) : keeps I (gets f).
Proof. intros s H. exact H. Qed.

Lemma keeps_bind {A B} (I : state -> Prop) (m : M A) (k : A -> M B) :
  keeps I m -> (forall a, keeps I (k a)) -> keeps I (bind m k).
Proof.
  intros Hm Hk s HI. apply (wp_keeps I); [exact Hm | exact HI|].
  intros a s' HI'. apply Hk, HI'.
Qed.

Lemma keeps_modify (I : state -> Prop) (f : state -> state) :
  (forall s, I s -> I (f s)) -> keeps I (modify f).
Proof. intros H s HI. apply H, HI. Qed.

Lemma keeps_for_each {A} (I : state -> Prop) (xs : list A) (body : A -> M unit) :
  (forall x, keeps I (body x)) -> keeps I (for_each xs body).
Proof.
  intros Hb. induction xs as [|x xs IH]; simpl.
  - apply keeps_ret.
  - apply keeps_bind; [apply Hb | intros _; exact IH].
Qed.

Lemma keeps_for_each_with {A V} (I : state -> Prop) (xs : list A) (v : V)
    (body : A -> V -> M V) :
  (forall x v, keeps I (body x v)) -> keeps I (for_each_with xs v body).
Proof.
  intros Hb. revert v. induction xs as [|x xs IH]; intros v; simpl.
  - apply keeps_ret.
  - apply keeps_bind; [apply Hb | intros v'; apply IH].
Qed.

Lemma keeps_and {A} (I J : state -> Prop) (m : M A) :
  keeps I m -> keeps J m -> keeps (fun s => I s /\ J s) m.
Proof.
  intros HI HJ s [H1 H2]. specialize (HI s H1). specialize (HJ s H2).
  unfold wp in *. destruct (m s) as [[a|e] s']; [split; assumption | exact Logic.I].
Qed.

(** One step of symbolic execution. *)
Ltac wp_step :=
  lazymatch goal with
  | |- wp (ret _) _ _ => apply wp_ret
  | |- wp (raise _) _ _ => apply wp_raise
  | |- wp (gets _) _ _ => apply wp_gets
  | |- wp (modify _) _ _ => apply wp_modify
  | |- wp (bind _ _) _ _ => apply wp_bind
  | |- wp (if ?b then _ else _) _ _ => destruct b eqn:?
  | |- wp (match ?o with _ => _ end) _ _ => destruct o eqn:?
  end.

Ltac unfold_prims :=
  unfold cursor_of, incr, q_index, q_release, q_append, q_list, q_put,
    loss_at, loss_append, labels_at, store_clear, store_set_enabled,
    store_put, store_flush, store_pop, backward_pass, when, need, assert,
    emit, append_irecv, append_isend, _free_tensors.

Ltac wp_run := repeat (cbv beta zeta; first [wp_step | progress unfold_prims]).

(** Structural decomposition of an invariant goal. *)
Ltac keeps_step :=
  lazymatch goal with
  | |- keeps _ (ret _) => apply keeps_ret
  | |- keeps _ (raise _) => apply keeps_raise
  | |- keeps _ (gets _) => apply keeps_gets
  | |- keeps _ (bind _ _) => apply keeps_bind; [|intros ?]
  | |- keeps _ (for_each _ _) => apply keeps_for_each; intros ?
  | |- keeps _ (for_each_with _ _ _) => apply keeps_for_each_with; intros ? ?
  | |- keeps _ (if ?b then _ else _) => destruct b
  | |- keeps _ (match ?o with _ => _ end) => destruct o
  end.

Ltac open_state s :=
  destruct s as [[x_fo x_ro x_nh x_hr]
                 [[[qi0 qi1] [qo0 qo1] [qg0 qg1] [qh0 qh1]] x_lb x_ls x_cr
                  [[f0 f1] [b0 b1] [sf0 sf1] [sb0 sb1] [rf0 rf1] [rb0 rb1]]
                  x_co x_tf]
                 [x_en x_ca x_qu] x_pc x_lg x_hi].

Ltac state_simpl :=
  cbn [with_attrs with_ps with_store with_log with_history with_chunks
       with_loss_chunks with_ids with_comm_ops with_to_free
       attrs ps store p2p_configured log history
       chunks labels loss_chunks criterion ids comm_ops to_free
       forward_only return_outputs num_half_ranks half_rank
       enabled cache funcs_queue
       input_chunks output_chunks input_grad_chunks output_grad_chunks
       current_f_chunk_id current_b_chunk_id current_send_f_chunk_id
       current_send_b_chunk_id current_recv_f_chunk_id current_recv_b_chunk_id
       get2 set2 at0 at1 cur_get cur_set q_get q_set negb andb orb is_not_None].

Ltac state_simpl_in H :=
  cbn [with_attrs with_ps with_store with_log with_history with_chunks
       with_loss_chunks with_ids with_comm_ops with_to_free
       attrs ps store p2p_configured log history
       chunks labels loss_chunks criterion ids comm_ops to_free
       forward_only return_outputs num_half_ranks half_rank
       enabled cache funcs_queue
       input_chunks output_chunks input_grad_chunks output_grad_chunks
       current_f_chunk_id current_b_chunk_id current_send_f_chunk_id
       current_send_b_chunk_id current_recv_f_chunk_id current_recv_b_chunk_id
       get2 set2 at0 at1 cur_get cur_set q_get q_set negb andb orb is_not_None]
    in H.

(** Symbolic execution of a method on an explicit state. *)
Ltac wp_exec :=
  repeat (cbv beta zeta; state_simpl; first [wp_step | progress unfold_prims]).

(** The methods on an explicit state, by physical phase. *)
Ltac open_method T s :=
  unfold _recv_forward, _send_forward, _recv_backward, _send_backward,
    _forward_compute_chunk, _backward_compute_chunk, fused_compute_chunk,
    _weight_chunk, _commit_and_wait_comm, is_first_stage, is_last_stage;
  cbv zeta;
  repeat match goal with
         | |- context [physical T ?l] => generalize (physical T l); intros []
         end;
  open_state s.

Ltac exec_method T s := open_method T s; wp_exec.

Section Schedule.

Variable T : topology.
Variable I : state -> Prop.

Hypothesis I_recv_forward : forall l, keeps I (_recv_forward T l).
Hypothesis I_send_forward : forall l, keeps I (_send_forward T l).
Hypothesis I_recv_backward : forall l, keeps I (_recv_backward T l).
Hypothesis I_send_backward : forall l, keeps I (_send_backward T l).
Hypothesis I_forward : forall l, keeps I (_forward_compute_chunk T l).
Hypothesis I_backward : forall l zb, keeps I (_backward_compute_chunk T l zb).
Hypothesis I_both :
  forall l0 l1, keeps I (_forward_backward_compute_chunk T l0 l1).
Hypothesis I_weight : keeps I _weight_chunk.
Hypothesis I_commit : keeps I _commit_and_wait_comm.
Hypothesis I_mark : forall k i, keeps I (emit (EStepIter k i)).

Ltac methods :=
  repeat first
    [ apply I_recv_forward | apply I_send_forward | apply I_recv_backward
    | apply I_send_backward | apply I_forward | apply I_backward
    | apply I_both | apply I_weight | apply I_commit | apply I_mark
    | keeps_step ].

Lemma keeps_forward_chunk l recv send : keeps I (_forward_chunk T l recv send).
Proof. unfold _forward_chunk, when. methods. Qed.

Lemma keeps_backward_chunk l zb recv send :
  keeps I (_backward_chunk T l zb recv send).
Proof. unfold _backward_chunk, when. methods. Qed.

Lemma keeps_forward_backward_chunk l0 l1 recv0 :
  keeps I (_forward_backward_chunk T l0 l1 recv0).
Proof. unfold _forward_backward_chunk, when. methods. Qed.

Ltac chunks :=
  repeat first
    [ apply keeps_forward_chunk | apply keeps_backward_chunk
    | apply keeps_forward_backward_chunk | progress methods ].

(** An invariant of the methods is an invariant of the eight phases. *)
Lemma keeps_schedule_of_methods num_chunks : keeps I (schedule T num_chunks).
Proof.
  unfold schedule, phase_1, phase_2, phase_3, phase_4, phase_5, phase_6,
    phase_7, phase_8, loop, when. cbv zeta. chunks.
Qed.

End Schedule.

(** The same when the invariant is kept by the fused computation in either
    mode. *)
Lemma keeps_schedule T (I : state -> Prop) :
  (forall l, keeps I (_recv_forward T l)) ->
  (forall l, keeps I (_send_forward T l)) ->
  (forall l, keeps I (_recv_backward T l)) ->
  (forall l, keeps I (_send_backward T l)) ->
  (forall l, keeps I (_forward_compute_chunk T l)) ->
  (forall l zb, keeps I (_backward_compute_chunk T l zb)) ->
  (forall l0 l1, keeps I (fused_compute_chunk T l0 l1)) ->
  keeps I _weight_chunk ->
  keeps I _commit_and_wait_comm ->
  (forall k i, keeps I (emit (EStepIter k i))) ->
  forall num_chunks, keeps I (schedule T num_chunks).
Proof.
  intros Hrf Hsf Hrb Hsb Hf Hb Hfused Hw Hc Hm.
  apply keeps_schedule_of_methods; try assumption.
  intros l0 l1. unfold _forward_backward_compute_chunk.
  apply keeps_bind; [apply keeps_gets|]. intros fo.
  repeat first [apply Hf | apply Hb | apply Hfused | keeps_step].
Qed.

(** ** Every chunk is computed once, in order *)

Lemma forwards_of_app p l l' :
  forwards_of p (l ++ l') = forwards_of p l ++ forwards_of p l'.
Proof. apply flat_map_app. Qed.

Lemma backward_ids_app p l l' :
  backward_ids p (l ++ l') = backward_ids p l ++ backward_ids p l'.
Proof. apply flat_map_app. Qed.

Ltac once_done H :=
  unfold each_once in *; intros q; specialize (H q);
  state_simpl_in H; state_simpl;
  rewrite ?forwards_of_app, ?backward_ids_app;
  destruct H as [Hf Hb]; rewrite ?Hf, ?Hb;
  destruct q;
  cbn [forwards_of backward_ids flat_map app Bool.eqb get2 at0 at1];
  rewrite ?app_nil_r;
  (split; first [reflexivity | rewrite seq_S; reflexivity]).

Section EachOnce.

Variable T : topology.

Lemma once_recv_forward l : keeps each_once (_recv_forward T l).
Proof. intros s H. exec_method T s; once_done H. Qed.

Lemma once_send_forward l : keeps each_once (_send_forward T l).
Proof. intros s H. exec_method T s; once_done H. Qed.

Lemma once_recv_backward l : keeps each_once (_recv_backward T l).
Proof. intros s H. exec_method T s; once_done H. Qed.

Lemma once_send_backward l : keeps each_once (_send_backward T l).
Proof. intros s H. exec_method T s; once_done H. Qed.

Lemma once_forward l : keeps each_once (_forward_compute_chunk T l).
Proof. intros s H. exec_method T s; once_done H. Qed.

Lemma once_backward l zb : keeps each_once (_backward_compute_chunk T l zb).
Proof. intros s H. exec_method T s; once_done H. Qed.

Lemma once_fused l0 l1 : keeps each_once (fused_compute_chunk T l0 l1).
Proof. intros s H. exec_method T s; once_done H. Qed.

Lemma once_weight : keeps each_once _weight_chunk.
Proof. intros s H. exec_method T s; once_done H. Qed.

Lemma once_commit : keeps each_once _commit_and_wait_comm.
Proof. intros s H. exec_method T s; once_done H. Qed.

Lemma once_mark k i : keeps each_once (emit (EStepIter k i)).
Proof. intros s H. exec_method T s; once_done H. Qed.

Lemma once_schedule num_chunks : keeps each_once (schedule T num_chunks).
Proof.
  apply keeps_schedule.
  - apply once_recv_forward.
  - apply once_send_forward.
  - apply once_recv_backward.
  - apply once_send_backward.
  - apply once_forward.
  - apply once_backward.
  - apply once_fused.
  - apply once_weight.
  - apply once_commit.
  - apply once_mark.
Qed.

End EachOnce.

Lemma wp_until_finish (I : state -> Prop) T grad_enabled num_chunks crit ro s :
  wp (until_schedule T grad_enabled num_chunks crit ro) (fun _ => I) s ->
  keeps I (schedule T num_chunks) ->
  wp (until_finish T grad_enabled num_chunks crit ro) (fun _ => I) s.
Proof.
  unfold until_schedule, until_finish, wp, bind. intros H HI.
  destruct (validate T grad_enabled num_chunks crit ro s) as [[[]|e] s1];
    [|exact Logic.I].
  destruct (prepare T num_chunks crit s1) as [[[]|e] s2]; [|exact Logic.I].
  apply (HI s2 H).
Qed.

Ltac exec_start s :=
  unfold until_schedule, validate, prepare, _reset_states; cbv zeta;
  open_state s; wp_exec.

Lemma once_until_schedule T grad_enabled num_chunks crit ro s :
  log s = [] ->
  wp (until_schedule T grad_enabled num_chunks crit ro) (fun _ => each_once) s.
Proof.
  intros Hlog. exec_start s; simpl in Hlog; subst x_lg;
    intros []; split; reflexivity.
Qed.

(** What [finish] adds to the log is at most the last commit. *)
Lemma finish_log T crit ro s1 r s2 :
  finish T crit ro s1 = (Ok r, s2) ->
  log s2 = log s1 \/ exists n, log s2 = log s1 ++ [ECommit n].
Proof.
  unfold finish, bind, gets, assert.
  destruct (bool_decide (funcs_queue (store s1) = [])); [|discriminate].
  simpl. unfold _commit_and_wait_comm, bind, gets.
  destruct (comm_ops (ps s1)) as [|o ops]; simpl.
  - intros [= _ <-]. left. reflexivity.
  - intros [= _ <-]. right. eexists. reflexivity.
Qed.

Lemma forwards_of_finish T crit ro s1 r s2 p :
  finish T crit ro s1 = (Ok r, s2) ->
  forwards_of p (log s2) = forwards_of p (log s1)
  /\ backward_ids p (log s2) = backward_ids p (log s1).
Proof.
  intros E. destruct (finish_log _ _ _ _ _ _ E) as [->|[n ->]].
  - split; reflexivity.
  - rewrite forwards_of_app, backward_ids_app. simpl.
    rewrite !app_nil_r. split; reflexivity.
Qed.

(** X4: in a step with valid arguments, on each physical phase the forward
    pass is computed for the chunks 0, 1, ..., [num_chunks / 2 - 1], each once
    and in this order, alone or fused with a backward pass; in a training step
    so is the backward pass; a forward-only step computes no backward pass. *)
Theorem chunks_computed_once modules group_size group_rank rank_mapping T
    grad_enabled num_chunks crit ro s :
  constructed modules group_size group_rank rank_mapping T ->
  (group_size mod 2 = 0)%Z ->
  valid_chunks T num_chunks -> ready s ->
  criterion_given T grad_enabled crit ->
  exists r s',
    step T grad_enabled num_chunks crit ro s = (Ok r, s')
    /\ forall p : bool,
         forwards_of p (log s') = seq 0 (half_chunks num_chunks)
         /\ backward_ids p (log s')
            = if grad_enabled then seq 0 (half_chunks num_chunks) else [].
Proof.
  intros [Hmap Hinit] Heven Hvalid Hready Hcrit.
  pose proof (init_topo_ok _ _ _ _ _ Hmap Hinit Heven) as HT.
  destruct (step_completes T HT grad_enabled num_chunks crit ro s Hvalid
              Hready Hcrit)
    as (s1 & r & s2 & E1 & E2 & Es & Hfin & _).
  exists r, s2. split; [exact Es|]. intros p.
  destruct (forwards_of_finish _ _ _ _ _ _ p E2) as [-> ->].
  assert (Honce : each_once s1).
  { apply (wp_ok _ (fun _ => each_once) _ _ _) with (2 := E1).
    apply wp_until_finish; [|apply once_schedule].
    apply once_until_schedule. apply Hready. }
  destruct (Honce p) as [Hf Hb]. rewrite Hf, Hb.
  destruct (Hfin p) as (-> & _ & _ & -> & _).
  destruct grad_enabled; split; reflexivity.
Qed.

Lemma chunks_computed_once_witness :
  exists r s',
    step rank_1_of_4 true 8 None false fresh_state = (Ok r, s')
    /\ forall p : bool,
         forwards_of p (log s') = seq 0 (half_chunks 8)
         /\ backward_ids p (log s') = seq 0 (half_chunks 8).
Proof.
  apply (chunks_computed_once (twin_shards false) 4 1 None rank_1_of_4 true 8).
  - exact rank_1_of_4_constructed.
  - reflexivity.
  - exact valid_8_chunks.
  - exact fresh_ready.
  - intros _ H. vm_compute in H. discriminate H.
Defined.

(** ** What [step] returns *)

Ltac res_open H :=
  destruct H as (Hc & Hr & Hl & Ho);
  state_simpl_in Hc; state_simpl_in Hr; state_simpl_in Hl; state_simpl_in Ho;
  unfold losses_upto in *; state_simpl_in Hl.

Ltac res_done Hl Ho :=
  state_simpl;
  split; [reflexivity|]; split; [reflexivity|]; split;
  [ cbn [is_not_None] in *; subst; rewrite ?seq_S, ?map_app; reflexivity
  | first
      [ intros Hro; discriminate Hro
      | let q := fresh "q" in
        intros _ q;
        pose proof (Ho eq_refl true) as Ho1;
        pose proof (Ho eq_refl false) as Ho0;
        unfold outputs_upto in *; state_simpl_in Ho1; state_simpl_in Ho0;
        destruct q; state_simpl; rewrite ?Ho1, ?Ho0;
        rewrite ?seq_S, ?map_app; first [reflexivity | assumption] ] ].

Ltac res_method T Hexcl crit ro :=
  let s := fresh "s" in
  let H := fresh "H" in
  intros s H; unfold results_inv, losses_upto in *; open_method T s;
  destruct H as (Hc & Hr & Hl & Ho);
  state_simpl_in Hc; state_simpl_in Hr; state_simpl_in Hl; state_simpl_in Ho;
  subst;
  destruct (is_first_rank T), (is_last_rank T); try discriminate Hexcl;
  destruct ro;
  wp_exec; res_done Hl Ho.

Section Results.

Variable T : topology.
Hypothesis Hexcl : is_first_rank T && is_last_rank T = false.
Variables (crit : option callable) (ro : bool).

Lemma res_recv_forward l : keeps (results_inv T crit ro) (_recv_forward T l).
Proof. res_method T Hexcl crit ro. Qed.

Lemma res_send_forward l : keeps (results_inv T crit ro) (_send_forward T l).
Proof. res_method T Hexcl crit ro. Qed.

Lemma res_recv_backward l : keeps (results_inv T crit ro) (_recv_backward T l).
Proof. res_method T Hexcl crit ro. Qed.

Lemma res_send_backward l : keeps (results_inv T crit ro) (_send_backward T l).
Proof. res_method T Hexcl crit ro. Qed.

Lemma res_forward l :
  keeps (results_inv T crit ro) (_forward_compute_chunk T l).
Proof. res_method T Hexcl crit ro. Qed.

Lemma res_backward l zb :
  keeps (results_inv T crit ro) (_backward_compute_chunk T l zb).
Proof. res_method T Hexcl crit ro. Qed.

Lemma res_fused l0 l1 :
  keeps (results_inv T crit ro) (fused_compute_chunk T l0 l1).
Proof. res_method T Hexcl crit ro. Qed.

Lemma res_weight : keeps (results_inv T crit ro) _weight_chunk.
Proof. res_method T Hexcl crit ro. Qed.

Lemma res_commit : keeps (results_inv T crit ro) _commit_and_wait_comm.
Proof. res_method T Hexcl crit ro. Qed.

Lemma res_mark k i : keeps (results_inv T crit ro) (emit (EStepIter k i)).
Proof. res_method T Hexcl crit ro. Qed.

Lemma res_schedule num_chunks :
  keeps (results_inv T crit ro) (schedule T num_chunks).
Proof.
  apply keeps_schedule.
  - apply res_recv_forward.
  - apply res_send_forward.
  - apply res_recv_backward.
  - apply res_send_backward.
  - apply res_forward.
  - apply res_backward.
  - apply res_fused.
  - apply res_weight.
  - apply res_commit.
  - apply res_mark.
Qed.

Lemma res_until_schedule grad_enabled num_chunks s :
  wp (until_schedule T grad_enabled num_chunks crit ro)
    (fun _ => results_inv T crit ro) s.
Proof.
  unfold results_inv, losses_upto. exec_start s;
    (split; [reflexivity|]; split; [reflexivity|]; split;
     [ state_simpl; destruct (is_not_None crit), (is_first_rank T),
         (is_last_rank T); reflexivity
     | intros _ []; reflexivity ]).
Qed.

End Results.

(** What [finish] returns is read off the loss and output stores. *)
Lemma finish_result T crit ro s1 r s2 :
  finish T crit ro s1 = (Ok r, s2) ->
  r = (if is_end T && is_not_None crit
       then Some (loss_chunks (ps s1)) else None,
       if is_end T && ro
       then Some (get2 (output_chunks (chunks (ps s1))) (is_first_rank T))
       else None).
Proof.
  unfold finish, bind, gets, assert, is_end.
  destruct (bool_decide (funcs_queue (store s1) = [])); [|discriminate].
  simpl. unfold _commit_and_wait_comm, bind, gets.
  destruct (comm_ops (ps s1)) as [|o ops]; simpl; intros [= <- _];
    reflexivity.
Qed.

Lemma ends_exclusive T :
  topo_ok T -> is_first_rank T && is_last_rank T = false.
Proof.
  intros HT. destruct (topo_flags T HT) as [H1 _].
  destruct (is_first_rank T); [|reflexivity].
  destruct (H1 eq_refl) as [_ ->]. reflexivity.
Qed.

(** X5: a step with valid arguments returns, on the first and on the last
    rank, the losses of the [num_chunks / 2] chunks of the direction that ends
    there, in chunk order, if a criterion was given, and the outputs of these
    chunks, in chunk order, if [return_outputs] was set; it returns [None]
    for what was not asked, and [(None, None)] on every other rank. *)
Theorem step_returns modules group_size group_rank rank_mapping T
    grad_enabled num_chunks crit ro s :
  constructed modules group_size group_rank rank_mapping T ->
  (group_size mod 2 = 0)%Z ->
  valid_chunks T num_chunks -> ready s ->
  criterion_given T grad_enabled crit ->
  exists s',
    step T grad_enabled num_chunks crit ro s
    = (Ok (if is_end T && is_not_None crit
           then Some (map (Loss (is_first_rank T))
                        (seq 0 (half_chunks num_chunks)))
           else None,
           if is_end T && ro
           then Some (outputs_upto (is_first_rank T) (half_chunks num_chunks))
           else None),
       s').
Proof.
  intros [Hmap Hinit] Heven Hvalid Hready Hcrit.
  pose proof (init_topo_ok _ _ _ _ _ Hmap Hinit Heven) as HT.
  pose proof (ends_exclusive T HT) as Hexcl.
  destruct (step_completes T HT grad_enabled num_chunks crit ro s Hvalid
              Hready Hcrit)
    as (s1 & r & s2 & E1 & E2 & Es & Hfin & _).
  exists s2. rewrite Es. f_equal. f_equal.
  rewrite (finish_result _ _ _ _ _ _ E2).
  assert (Hres : results_inv T crit ro s1).
  { apply (wp_ok _ (fun _ => results_inv T crit ro) _ _ _) with (2 := E1).
    apply wp_until_finish; [|apply res_schedule, Hexcl].
    apply res_until_schedule, Hexcl. }
  destruct Hres as (_ & _ & Hl & Ho).
  pose proof (Hfin true) as (Hf1 & _). pose proof (Hfin false) as (Hf0 & _).
  f_equal.
  - destruct (is_end T && is_not_None crit) eqn:E; [|reflexivity].
    apply andb_true_iff in E. destruct E as [Hend Hc].
    rewrite Hl. unfold losses_upto. rewrite Hc, Hf1, Hf0.
    unfold is_end in Hend.
    destruct (is_first_rank T); [reflexivity|].
    simpl in Hend. rewrite Hend. reflexivity.
  - destruct (is_end T && ro) eqn:E; [|reflexivity].
    apply andb_true_iff in E. destruct E as [_ ->].
    rewrite (Ho eq_refl), (proj1 (Hfin (is_first_rank T))). reflexivity.
Qed.

Lemma step_returns_witness :
  exists s',
    step (rank_0_of_2 false) true 4 (Some 0) true fresh_state
    = (Ok (Some [Loss true 0; Loss true 1],
           Some [Some (Outputs true 0); Some (Outputs true 1)]), s').
Proof.
  apply (step_returns (twin_shards false) 2 0 None (rank_0_of_2 false) true 4
           (Some 0) true fresh_state).
  - exact (rank_0_of_2_constructed false).
  - reflexivity.
  - exact (valid_4_chunks false).
  - exact fresh_ready.
  - intros _ _. reflexivity.
Defined.

(** ** Neighbouring ranks *)



(** ** Forward-only steps *)

Lemma preserves_when_forward_only {A} l en (k : bool -> M A) :
  preserves (forward_only_with l en) (k true) ->
  preserves (forward_only_with l en)
    (bind (gets (fun s => forward_only (attrs s))) k).
Proof.
  intros Hk s Hs. unfold bind, gets. rewrite (proj1 Hs). apply Hk, Hs.
Qed.

Ltac fo_modify :=
  apply preserves_modify;
  let s := fresh "s" in
  let H1 := fresh "H" in
  let H2 := fresh "H" in
  let H3 := fresh "H" in
  intros s (H1 & H2 & H3);
  split; [exact H1|]; split; [|exact H3];
  cbn [log with_log with_ps with_attrs with_store with_history];
  rewrite ?List.filter_app; cbn [List.filter is_training_event];
  rewrite ?app_nil_r; exact H2.

Ltac fo_step :=
  lazymatch goal with
  | |- preserves _ (bind (gets (fun s => forward_only (attrs s))) _) =>
      apply preserves_when_forward_only; cbv beta iota
  | |- preserves _ (ret _) => apply preserves_ret
  | |- preserves _ (raise _) => apply preserves_raise
  | |- preserves _ (gets _) => apply preserves_gets
  | |- preserves _ (modify _) => fo_modify
  | |- preserves _ (bind _ _) => apply preserves_bind; [|intros ?]
  | |- preserves _ (for_each _ _) => apply preserves_for_each; intros ?
  | |- preserves _ (for_each_with _ _ _) =>
      apply preserves_for_each_with; intros ? ?
  | |- preserves _ (if ?b then _ else _) => destruct b
  | |- preserves _ (match ?o with _ => _ end) => destruct o
  end.

Ltac fo_all :=
  repeat (cbv zeta;
          first [ fo_step
                | progress unfold_prims
                | progress unfold _recv_forward, _send_forward,
                    _recv_backward, _send_backward, _forward_compute_chunk,
                    _backward_compute_chunk, _weight_chunk,
                    _commit_and_wait_comm, _forward_backward_compute_chunk,
                    _forward_chunk, _backward_chunk, _forward_backward_chunk,
                    _reset_states ]).

Lemma forward_only_rest T l en num_chunks crit ro :
  preserves (forward_only_with l en)
    (prepare T num_chunks crit ;; schedule T num_chunks ;; finish T crit ro).
Proof.
  unfold prepare, schedule, finish, phase_1, phase_2, phase_3, phase_4,
    phase_5, phase_6, phase_7, phase_8, loop.
  fo_all.
Qed.

Lemma preserves_assoc {A B C} (I : state -> Prop) (m : M A) (k : A -> M B)
    (k' : B -> M C) :
  preserves I (bind m (fun a => bind (k a) k')) ->
  preserves I (bind (bind m k) k').
Proof.
  intros H s Hs. specialize (H s Hs). unfold bind in *.
  destruct (m s) as [[a|e] s1]; exact H.
Qed.

Lemma preserves_switch {A} (I I' : state -> Prop) (f : state -> state)
    (k : unit -> M A) :
  (forall s, I' s -> I (f s)) -> (forall s, I s -> I' s) ->
  preserves I (k tt) -> preserves I' (bind (modify f) k).
Proof.
  intros Hin Hout Hk s Hs. unfold bind, modify. apply Hout, Hk, Hin, Hs.
Qed.

(** X7: a step run with gradient tracking off computes no backward pass,
    alone or fused, and no deferred weight gradient, and leaves the switch of
    the weight-gradient store as it found it, whatever its arguments, the
    state it starts from and the way it ends. *)
Theorem forward_only_step_never_trains T num_chunks crit ro s :
  let s' := snd (step T false num_chunks crit ro s) in
  List.filter is_training_event (log s')
  = List.filter is_training_event (log s)
  /\ enabled (store s') = enabled (store s).
Proof.
  cbv zeta.
  set (l := List.filter is_training_event (log s)).
  set (en := enabled (store s)).
  assert (H : preserves (untrained l en) (step T false num_chunks crit ro)).
  { unfold step, validate.
    apply preserves_assoc. apply preserves_bind; [apply preserves_gets|].
    intros c. apply preserves_assoc.
    apply preserves_bind.
    { unfold assert. destruct c; [apply preserves_ret | apply preserves_raise]. }
    intros _. apply preserves_assoc.
    apply (preserves_switch (forward_only_with l en)).
    - intros s0 H0. split; [reflexivity | exact H0].
    - intros s0 H0. apply H0.
    - apply preserves_bind; [|intros _; apply forward_only_rest].
      fo_all. }
  apply (H s). split; reflexivity.
Qed.

(** ** The records are write-only *)

Lemma unobserved_ret {A} (a : A) : unobserved (ret a).
Proof. intros s s' H. split; [reflexivity | exact H]. Qed.

Lemma unobserved_raise {A} (e : exn) : unobserved (@raise A e).
Proof. intros s s' H. split; [reflexivity | exact H]. Qed.

Lemma unobserved_gets {A} (f : state -> A) :
  (forall s s', same_instance s s' -> f s = f s') -> unobserved (gets f).
Proof.
  intros Hf s s' H. split; [simpl; f_equal; apply Hf, H | exact H].
Qed.

Lemma unobserved_modify (f : state -> state) :
  (forall s s', same_instance s s' -> same_instance (f s) (f s')) ->
  unobserved (modify f).
Proof. intros Hf s s' H. split; [reflexivity | apply Hf, H]. Qed.

Lemma unobserved_bind {A B} (m : M A) (k : A -> M B) :
  unobserved m -> (forall a, unobserved (k a)) -> unobserved (bind m k).
Proof.
  intros Hm Hk s s' H. destruct (Hm s s' H) as [E Hs]. unfold bind.
  destruct (m s) as [[a|e] s1], (m s') as [[a'|e'] s1']; simpl in E;
    try discriminate E.
  - injection E as <-. apply Hk, Hs.
  - injection E as <-. split; [reflexivity | exact Hs].
Qed.

Lemma unobserved_for_each {A} (xs : list A) (body : A -> M unit) :
  (forall x, unobserved (body x)) -> unobserved (for_each xs body).
Proof.
  intros Hb. induction xs as [|x xs IH]; simpl.
  - apply unobserved_ret.
  - apply unobserved_bind; [apply Hb | intros _; exact IH].
Qed.

Lemma unobserved_for_each_with {A V} (xs : list A) (v : V)
    (body : A -> V -> M V) :
  (forall x v, unobserved (body x v)) -> unobserved (for_each_with xs v body).
Proof.
  intros Hb. revert v. induction xs as [|x xs IH]; intros v; simpl.
  - apply unobserved_ret.
  - apply unobserved_bind; [apply Hb | intros v'; apply IH].
Qed.

(** Reading the whole state, to use what is not a record. *)
Lemma unobserved_gets_state {A} (k : state -> M A) :
  (forall s s', same_instance s s' -> k s = k s') ->
  (forall s, unobserved (k s)) ->
  unobserved (bind (gets (fun s => s)) k).
Proof.
  intros Hk Hu s s' H. unfold bind, gets. rewrite (Hk s s' H).
  apply Hu, H.
Qed.

Ltac same_side :=
  let s := fresh "s" in
  let s' := fresh "s" in
  let Ha := fresh "H" in
  let Hp := fresh "H" in
  let Hs := fresh "H" in
  let Hc := fresh "H" in
  intros s s' (Ha & Hp & Hs & Hc);
  unfold same_instance;
  cbn [attrs ps store p2p_configured log history
       with_attrs with_ps with_store with_log with_history];
  rewrite ?Ha, ?Hp, ?Hs, ?Hc; repeat split; reflexivity.

Ltac unobs_step :=
  lazymatch goal with
  | |- unobserved (ret _) => apply unobserved_ret
  | |- unobserved (raise _) => apply unobserved_raise
  | |- unobserved (bind (gets (fun s => s)) _) =>
      apply unobserved_gets_state;
      [ let s := fresh "s" in
        let s' := fresh "s" in
        let Ha := fresh "H" in
        let Hp := fresh "H" in
        intros s s' (Ha & Hp & _); rewrite ?Ha, ?Hp; reflexivity
      | intros ? ]
  | |- unobserved (gets _) => apply unobserved_gets; same_side
  | |- unobserved (modify _) => apply unobserved_modify; same_side
  | |- unobserved (bind _ _) => apply unobserved_bind; [|intros ?]
  | |- unobserved (for_each _ _) => apply unobserved_for_each; intros ?
  | |- unobserved (for_each_with _ _ _) =>
      apply unobserved_for_each_with; intros ? ?
  | |- unobserved (if ?b then _ else _) => destruct b
  | |- unobserved (match ?o with _ => _ end) => destruct o
  end.

Ltac unobs_all :=
  repeat (cbv zeta;
          first [ unobs_step
                | progress unfold_prims
                | progress unfold _recv_forward, _send_forward,
                    _recv_backward, _send_backward, _forward_compute_chunk,
                    _backward_compute_chunk, fused_compute_chunk,
                    _weight_chunk, _commit_and_wait_comm,
                    _forward_backward_compute_chunk,
                    _forward_chunk, _backward_chunk, _forward_backward_chunk,
                    _reset_states ]).

Lemma unobserved_schedule T num_chunks : unobserved (schedule T num_chunks).
Proof.
  unfold schedule, phase_1, phase_2, phase_3, phase_4, phase_5, phase_6,
    phase_7, phase_8, loop.
  unobs_all.
Qed.

Lemma unobserved_finish T crit ro : unobserved (finish T crit ro).
Proof. unfold finish. unobs_all. Qed.

Lemma step_in_two T grad_enabled num_chunks crit ro s :
  step T grad_enabled num_chunks crit ro s
  = bind (until_schedule T grad_enabled num_chunks crit ro)
      (fun _ => schedule T num_chunks ;; finish T crit ro) s.
Proof.
  unfold step, until_schedule, bind.
  destruct (validate T grad_enabled num_chunks crit ro s) as [[[]|e] s1];
    [|reflexivity].
  destruct (prepare T num_chunks crit s1) as [[[]|e] s2]; reflexivity.
Qed.

(** The checks and the reset leave nothing of the per-step state that they
    found. *)
Lemma until_schedule_forgets T grad_enabled num_chunks crit ro s s' :
  same_setup s s' ->
  fst (until_schedule T grad_enabled num_chunks crit ro s)
  = fst (until_schedule T grad_enabled num_chunks crit ro s')
  /\ (forall u,
        fst (until_schedule T grad_enabled num_chunks crit ro s) = Ok u ->
        same_instance
          (snd (until_schedule T grad_enabled num_chunks crit ro s))
          (snd (until_schedule T grad_enabled num_chunks crit ro s'))).
Proof.
  intros [Hp He].
  unfold until_schedule, validate, prepare, _reset_states, store_clear, bind,
    gets, modify, assert, when, ret, raise.
  destruct s as [a p w c lg hi], s' as [a' p' w' c' lg' hi'].
  simpl in Hp, He. subst c'. cbn.
  destruct c; cbn; [|split; [reflexivity | intros u H; discriminate H]].
  destruct (num_ranks T mod 2 =? 0)%Z; cbn;
    [|split; [reflexivity | intros u H; discriminate H]].
  destruct ((0 <? num_chunks)%Z && (num_chunks mod 2 =? 0)%Z
            && (num_ranks T * 2 <=? num_chunks)%Z); cbn;
    [|split; [reflexivity | intros u H; discriminate H]].
  destruct (negb (negb grad_enabled) && (is_first_rank T || is_last_rank T));
    cbn.
  - destruct (is_not_None crit); cbn;
      [|split; [reflexivity | intros u H; discriminate H]].
    destruct (is_first_rank T); [|destruct (is_last_rank T)]; cbn;
      (split; [reflexivity|]); intros u _; unfold same_instance; cbn;
      rewrite He; repeat split; reflexivity.
  - destruct (is_first_rank T); [|destruct (is_last_rank T)]; cbn;
      (split; [reflexivity|]); intros u _; unfold same_instance; cbn;
      rewrite He; repeat split; reflexivity.
Qed.

(** [step] reads nothing of what an earlier step left in the instance. *)
Lemma step_unobserved T grad_enabled num_chunks crit ro s s' :
  same_setup s s' ->
  fst (step T grad_enabled num_chunks crit ro s)
  = fst (step T grad_enabled num_chunks crit ro s')
  /\ (forall r,
        fst (step T grad_enabled num_chunks crit ro s) = Ok r ->
        same_instance (snd (step T grad_enabled num_chunks crit ro s))
          (snd (step T grad_enabled num_chunks crit ro s'))).
Proof.
  intros Hsetup. rewrite !step_in_two. unfold bind.
  destruct (until_schedule_forgets T grad_enabled num_chunks crit ro s s'
              Hsetup) as [E Hs].
  destruct (until_schedule T grad_enabled num_chunks crit ro s)
    as [[u|e] s1],
    (until_schedule T grad_enabled num_chunks crit ro s') as [[u'|e'] s1'];
    simpl in E; try discriminate E.
  - specialize (Hs u eq_refl). simpl in Hs.
    assert (Hu : unobserved (schedule T num_chunks ;; finish T crit ro)).
    { apply unobserved_bind; [apply unobserved_schedule|].
      intros _. apply unobserved_finish. }
    destruct (Hu s1 s1' Hs) as [E2 Hs2]. unfold bind in E2, Hs2.
    split; [exact E2 | intros r _; exact Hs2].
  - injection E as <-. split; [reflexivity|]. intros r H. discriminate H.
Qed.

(** X8: what a step returns or raises, and the state it leaves when it
    returns, do not depend on the queues, cursors, losses, labels and pending
    descriptors that it finds, nor on the mode attributes of an earlier step:
    two instances that agree on the configuration of the transport and on the
    switch of the weight-gradient store behave alike. *)
Theorem step_forgets_leftovers T grad_enabled num_chunks crit ro s s' :
  same_setup s s' ->
  fst (step T grad_enabled num_chunks crit ro s)
  = fst (step T grad_enabled num_chunks crit ro s')
  /\ (forall r,
        fst (step T grad_enabled num_chunks crit ro s) = Ok r ->
        same_instance (snd (step T grad_enabled num_chunks crit ro s))
          (snd (step T grad_enabled num_chunks crit ro s'))).
Proof. exact (step_unobserved T grad_enabled num_chunks crit ro s s'). Qed.

Lemma step_forgets_leftovers_witness :
  fst (step rank_1_of_4 true 8 None false littered_state)
  = fst (step rank_1_of_4 true 8 None false fresh_state)
  /\ (forall r,
        fst (step rank_1_of_4 true 8 None false littered_state) = Ok r ->
        same_instance (snd (step rank_1_of_4 true 8 None false littered_state))
          (snd (step rank_1_of_4 true 8 None false fresh_state))).
Proof.
  apply (step_forgets_leftovers rank_1_of_4 true 8 None false littered_state
           fresh_state).
  split; reflexivity.
Defined.

Ltac setup_step :=
  lazymatch goal with
  | |- preserves _ (ret _) => apply preserves_ret
  | |- preserves _ (raise _) => apply preserves_raise
  | |- preserves _ (gets _) => apply preserves_gets
  | |- preserves _ (modify _) =>
      apply preserves_modify; let H := fresh "H" in intros ? H; exact H
  | |- preserves _ (bind _ _) => apply preserves_bind; [|intros ?]
  | |- preserves _ (for_each _ _) => apply preserves_for_each; intros ?
  | |- preserves _ (for_each_with _ _ _) =>
      apply preserves_for_each_with; intros ? ?
  | |- preserves _ (if ?b then _ else _) => destruct b
  | |- preserves _ (match ?o with _ => _ end) => destruct o
  end.

Ltac setup_all :=
  repeat (cbv zeta;
          first [ setup_step
                | progress unfold_prims
                | progress unfold _recv_forward, _send_forward,
                    _recv_backward, _send_backward, _forward_compute_chunk,
                    _backward_compute_chunk, fused_compute_chunk,
                    _weight_chunk, _commit_and_wait_comm,
                    _forward_backward_compute_chunk,
                    _forward_chunk, _backward_chunk, _forward_backward_chunk,
                    _reset_states ]).

(** Nothing in a step touches the configuration of the transport. *)
Lemma step_keeps_p2p T grad_enabled num_chunks crit ro b :
  preserves (fun s => p2p_configured s = b)
    (step T grad_enabled num_chunks crit ro).
Proof.
  unfold step, validate, prepare, schedule, finish, phase_1, phase_2, phase_3,
    phase_4, phase_5, phase_6, phase_7, phase_8, loop.
  setup_all.
Qed.

Lemma finish_keeps_switch T crit ro s1 r s2 :
  finish T crit ro s1 = (Ok r, s2) ->
  enabled (store s2) = enabled (store s1).
Proof.
  unfold finish, bind, gets, assert.
  destruct (bool_decide (funcs_queue (store s1) = [])); [|discriminate].
  simpl. unfold _commit_and_wait_comm, bind, gets.
  destruct (comm_ops (ps s1)) as [|o ops]; simpl; intros [= _ <-];
    reflexivity.
Qed.

(** A step with valid arguments leaves the instance ready for the next one,
    up to what was recorded. *)
Lemma step_leaves_setup T (HT : topo_ok T) grad_enabled num_chunks crit ro s :
  valid_chunks T num_chunks -> ready s ->
  criterion_given T grad_enabled crit ->
  exists r s',
    step T grad_enabled num_chunks crit ro s = (Ok r, s')
    /\ same_setup s' fresh_state.
Proof.
  intros Hvalid Hready Hcrit.
  destruct (step_run T HT grad_enabled num_chunks crit ro s Hvalid Hready
              Hcrit) as (s1 & r & s2 & E1 & Hrep & E2 & Es).
  exists r, s2. split; [exact Es|]. split.
  - pose proof (step_keeps_p2p T grad_enabled num_chunks crit ro true s
                  (proj1 Hready)) as Hp.
    rewrite Es in Hp. exact Hp.
  - rewrite (finish_keeps_switch _ _ _ _ _ _ E2).
    pose proof (r_enabled _ _ _ _ _ _ _ Hrep) as He. rewrite He.
    unfold final_sched, expand. simpl.
    destruct (final_ids T (negb grad_enabled) num_chunks)
      as [[? ?] [? ?] [? ?] [? ?] [? ?] [? ?]]. reflexivity.
Qed.

(** X9: steps can follow one another: after a step with valid arguments has
    returned, a second step with valid arguments, the same or others, returns
    too, and returns what it would on a new instance. *)
Theorem step_after_step modules group_size group_rank rank_mapping T
    grad_enabled num_chunks crit ro grad_enabled' num_chunks' crit' ro' s :
  constructed modules group_size group_rank rank_mapping T ->
  (group_size mod 2 = 0)%Z ->
  valid_chunks T num_chunks -> valid_chunks T num_chunks' -> ready s ->
  criterion_given T grad_enabled crit ->
  criterion_given T grad_enabled' crit' ->
  exists r s1 r' s2,
    step T grad_enabled num_chunks crit ro s = (Ok r, s1)
    /\ step T grad_enabled' num_chunks' crit' ro' s1 = (Ok r', s2)
    /\ fst (step T grad_enabled' num_chunks' crit' ro' fresh_state) = Ok r'
    /\ same_setup s2 fresh_state.
Proof.
  intros [Hmap Hinit] Heven Hvalid Hvalid' Hready Hcrit Hcrit'.
  pose proof (init_topo_ok _ _ _ _ _ Hmap Hinit Heven) as HT.
  destruct (step_leaves_setup T HT grad_enabled num_chunks crit ro s Hvalid
              Hready Hcrit) as (r & s1 & E1 & Hs1).
  destruct (step_leaves_setup T HT grad_enabled' num_chunks' crit' ro'
              fresh_state Hvalid' fresh_ready Hcrit')
    as (r' & sf & Ef & H3p & H3e).
  destruct (step_unobserved T grad_enabled' num_chunks' crit' ro' s1
              fresh_state Hs1) as [E Hsame].
  rewrite Ef in E. simpl in E.
  destruct (step T grad_enabled' num_chunks' crit' ro' s1) as [r2 s2] eqn:E2.
  simpl in E. subst r2.
  exists r, s1, r', s2. split; [exact E1|]. split; [exact E2|].
  split; [rewrite Ef; reflexivity|].
  specialize (Hsame r'). rewrite Ef in Hsame. simpl in Hsame.
  destruct (Hsame eq_refl) as (_ & _ & Hst & Hp).
  split.
  - rewrite Hp. exact H3p.
  - rewrite Hst. exact H3e.
Qed.

Lemma step_after_step_witness :
  exists r s1 r' s2,
    step rank_1_of_4 true 8 None false fresh_state = (Ok r, s1)
    /\ step rank_1_of_4 false 12 None true s1 = (Ok r', s2)
    /\ fst (step rank_1_of_4 false 12 None true fresh_state) = Ok r'
    /\ same_setup s2 fresh_state.
Proof.
  apply (step_after_step (twin_shards false) 4 1 None rank_1_of_4).
  - exact rank_1_of_4_constructed.
  - reflexivity.
  - exact valid_8_chunks.
  - unfold valid_chunks. simpl. repeat split; try reflexivity; lia.
  - exact fresh_ready.
  - intros _ H. vm_compute in H. discriminate H.
  - intros H. discriminate H.
Defined.

(** ** Communication *)

Lemma posted_app l l' : posted (l ++ l') = posted l + posted l'.
Proof. unfold posted. rewrite peers_of_app, length_app. reflexivity. Qed.

Lemma committed_app l l' : committed (l ++ l') = committed l + committed l'.
Proof.
  unfold committed. rewrite flat_map_app, list_sum_app. reflexivity.
Qed.

Lemma posted_one e :
  posted [e] = match e with EIrecv _ | EIsend _ => 1 | _ => 0 end.
Proof. destruct e; reflexivity. Qed.

Lemma committed_one e :
  committed [e] = match e with ECommit n => n | _ => 0 end.
Proof. destruct e; unfold committed; simpl; lia. Qed.

Ltac comm_done H :=
  unfold comm_inv, transfers in *; state_simpl_in H; state_simpl;
  rewrite ?posted_app, ?committed_app, ?length_app;
  rewrite ?posted_one, ?committed_one; cbn [length] in *;
  destruct H as [H1 H2]; split; lia.

Section Communication.

Variable T : topology.

Lemma comm_recv_forward l : keeps comm_inv (_recv_forward T l).
Proof. intros s H. exec_method T s; comm_done H. Qed.

Lemma comm_send_forward l : keeps comm_inv (_send_forward T l).
Proof. intros s H. exec_method T s; comm_done H. Qed.

Lemma comm_recv_backward l : keeps comm_inv (_recv_backward T l).
Proof. intros s H. exec_method T s; comm_done H. Qed.

Lemma comm_send_backward l : keeps comm_inv (_send_backward T l).
Proof. intros s H. exec_method T s; comm_done H. Qed.

Lemma comm_forward l : keeps comm_inv (_forward_compute_chunk T l).
Proof. intros s H. exec_method T s; comm_done H. Qed.

Lemma comm_backward l zb : keeps comm_inv (_backward_compute_chunk T l zb).
Proof. intros s H. exec_method T s; comm_done H. Qed.

Lemma comm_fused l0 l1 : keeps comm_inv (fused_compute_chunk T l0 l1).
Proof. intros s H. exec_method T s; comm_done H. Qed.

Lemma comm_weight : keeps comm_inv _weight_chunk.
Proof. intros s H. exec_method T s; comm_done H. Qed.

Lemma comm_commit : keeps comm_inv _commit_and_wait_comm.
Proof. intros s H. exec_method T s; comm_done H. Qed.

Lemma comm_mark k i : keeps comm_inv (emit (EStepIter k i)).
Proof. intros s H. exec_method T s; comm_done H. Qed.

Lemma comm_schedule num_chunks : keeps comm_inv (schedule T num_chunks).
Proof.
  apply keeps_schedule.
  - apply comm_recv_forward.
  - apply comm_send_forward.
  - apply comm_recv_backward.
  - apply comm_send_backward.
  - apply comm_forward.
  - apply comm_backward.
  - apply comm_fused.
  - apply comm_weight.
  - apply comm_commit.
  - apply comm_mark.
Qed.

Lemma comm_until_schedule grad_enabled num_chunks crit ro s :
  log s = [] ->
  wp (until_schedule T grad_enabled num_chunks crit ro) (fun _ => comm_inv) s.
Proof.
  intros Hlog. exec_start s; simpl in Hlog; subst x_lg;
    split; reflexivity.
Qed.

End Communication.

Lemma finish_commits T crit ro s1 r s2 :
  finish T crit ro s1 = (Ok r, s2) ->
  posted (log s2) = posted (log s1)
  /\ committed (log s2) = committed (log s1) + length (comm_ops (ps s1)).
Proof.
  unfold finish, bind, gets, assert.
  destruct (bool_decide (funcs_queue (store s1) = [])); [|discriminate].
  simpl. unfold _commit_and_wait_comm, bind, gets.
  destruct (comm_ops (ps s1)) as [|o ops]; simpl; intros [= _ <-]; simpl.
  - split; [reflexivity | lia].
  - rewrite posted_app, committed_app, posted_one, committed_one.
    simpl. split; lia.
Qed.

Lemma final_transfers T (Hexcl : is_first_rank T && is_last_rank T = false)
    fo Hn cs :
  final_cursors T fo Hn cs ->
  transfers cs = (if is_end T then 2 else 4) * Hn * (if fo then 1 else 2).
Proof.
  intros Hfin.
  destruct (Hfin false) as (_ & Hrf0 & Hsf0 & _ & Hrb0 & Hsb0).
  destruct (Hfin true) as (_ & Hrf1 & Hsf1 & _ & Hrb1 & Hsb1).
  unfold is_first_stage, is_last_stage, is_end in *.
  destruct cs as [f b [sf0 sf1] [sb0 sb1] [rf0 rf1] [rb0 rb1]].
  cbn [get2 at0 at1 current_send_f_chunk_id current_send_b_chunk_id
       current_recv_f_chunk_id current_recv_b_chunk_id] in *.
  unfold transfers.
  destruct (is_first_rank T), (is_last_rank T), fo;
    try discriminate Hexcl; cbn in *; subst; lia.
Qed.

(** X10: in a step with valid arguments, every descriptor that was posted
    has been handed to a batched exchange by the time the step returns: the
    batches add up to the number of descriptors posted, which is
    [num_chunks / 2] for each stream that the rank takes part in, two streams
    on the first and the last rank and four elsewhere, and twice as many when
    gradients flow back. *)
Theorem descriptors_all_committed modules group_size group_rank rank_mapping T
    grad_enabled num_chunks crit ro s :
  constructed modules group_size group_rank rank_mapping T ->
  (group_size mod 2 = 0)%Z ->
  valid_chunks T num_chunks -> ready s ->
  criterion_given T grad_enabled crit ->
  exists r s',
    step T grad_enabled num_chunks crit ro s = (Ok r, s')
    /\ committed (log s') = posted (log s')
    /\ posted (log s')
       = (if is_end T then 2 else 4) * half_chunks num_chunks
         * (if grad_enabled then 2 else 1).
Proof.
  intros [Hmap Hinit] Heven Hvalid Hready Hcrit.
  pose proof (init_topo_ok _ _ _ _ _ Hmap Hinit Heven) as HT.
  destruct (step_completes T HT grad_enabled num_chunks crit ro s Hvalid
              Hready Hcrit)
    as (s1 & r & s2 & E1 & E2 & Es & Hfin & _).
  exists r, s2. split; [exact Es|].
  assert (Hinv : comm_inv s1).
  { apply (wp_ok _ (fun _ => comm_inv) _ _ _) with (2 := E1).
    apply wp_until_finish; [|apply comm_schedule].
    apply comm_until_schedule, Hready. }
  destruct Hinv as [H1 H2].
  destruct (finish_commits _ _ _ _ _ _ E2) as [-> ->].
  split; [lia|]. rewrite H2.
  rewrite (final_transfers T (ends_exclusive T HT) _ _ _ Hfin).
  destruct grad_enabled; reflexivity.
Qed.

Lemma descriptors_all_committed_witness :
  exists r s',
    step rank_1_of_4 true 8 None false fresh_state = (Ok r, s')
    /\ committed (log s') = posted (log s')
    /\ posted (log s') = 32.
Proof.
  apply (descriptors_all_committed (twin_shards false) 4 1 None rank_1_of_4
           true 8).
  - exact rank_1_of_4_constructed.
  - reflexivity.
  - exact valid_8_chunks.
  - exact fresh_ready.
  - intros _ H. vm_compute in H. discriminate H.
Defined.








(** ** Deferred weight gradients *)

Lemma pending_after_app k l l' :
  pending_after k (l ++ l')
  = match pending_after k l with
    | Some k' => pending_after k' l'
    | None => None
    end.
Proof.
  revert k. induction l as [|e l IH]; intros k; [reflexivity|].
  destruct e as [| | | | |p c [|]| |]; simpl; try apply IH.
  destruct k; [reflexivity | apply IH].
Qed.

Ltac zb_done H :=
  unfold zb_inv in *; state_simpl_in H; state_simpl;
  destruct H as (He & Hc & Hq); subst;
  cbn [app] in *;
  rewrite ?pending_after_app, ?Hq; cbn [pending_after length];
  rewrite ?length_app; cbn [length];
  repeat split; try reflexivity; try (f_equal; lia).

Section ZeroBubble.

Variable T : topology.

Lemma zb_recv_forward l : keeps zb_inv (_recv_forward T l).
Proof. intros s H. exec_method T s; zb_done H. Qed.

Lemma zb_send_forward l : keeps zb_inv (_send_forward T l).
Proof. intros s H. exec_method T s; zb_done H. Qed.

Lemma zb_recv_backward l : keeps zb_inv (_recv_backward T l).
Proof. intros s H. exec_method T s; zb_done H. Qed.

Lemma zb_send_backward l : keeps zb_inv (_send_backward T l).
Proof. intros s H. exec_method T s; zb_done H. Qed.

Lemma zb_forward l : keeps zb_inv (_forward_compute_chunk T l).
Proof. intros s H. exec_method T s; zb_done H. Qed.

Lemma zb_backward l zb : keeps zb_inv (_backward_compute_chunk T l zb).
Proof. intros s H. exec_method T s; zb_done H. Qed.

Lemma zb_fused l0 l1 : keeps zb_inv (fused_compute_chunk T l0 l1).
Proof. intros s H. exec_method T s; zb_done H. Qed.

Lemma zb_weight : keeps zb_inv _weight_chunk.
Proof. intros s H. exec_method T s; zb_done H. Qed.

Lemma zb_commit : keeps zb_inv _commit_and_wait_comm.
Proof. intros s H. exec_method T s; zb_done H. Qed.

Lemma zb_mark k i : keeps zb_inv (emit (EStepIter k i)).
Proof. intros s H. exec_method T s; zb_done H. Qed.

Lemma zb_schedule num_chunks : keeps zb_inv (schedule T num_chunks).
Proof.
  apply keeps_schedule.
  - apply zb_recv_forward.
  - apply zb_send_forward.
  - apply zb_recv_backward.
  - apply zb_send_backward.
  - apply zb_forward.
  - apply zb_backward.
  - apply zb_fused.
  - apply zb_weight.
  - apply zb_commit.
  - apply zb_mark.
Qed.

Lemma zb_until_schedule grad_enabled num_chunks crit ro s :
  log s = [] -> enabled (store s) = false ->
  wp (until_schedule T grad_enabled num_chunks crit ro) (fun _ => zb_inv) s.
Proof.
  intros Hlog Hen. exec_start s; simpl in Hlog, Hen; subst x_lg x_en;
    repeat split; reflexivity.
Qed.

End ZeroBubble.

(** X12: in the log of a step with valid arguments, the weight-gradient
    computations and the backward passes run under zero bubble are matched
    like brackets: each weight-gradient computation comes after a backward
    pass that deferred it and that no earlier one has used up, and when the
    step returns none is left waiting. *)
Theorem deferred_weights_all_computed modules group_size group_rank
    rank_mapping T grad_enabled num_chunks crit ro s :
  constructed modules group_size group_rank rank_mapping T ->
  (group_size mod 2 = 0)%Z ->
  valid_chunks T num_chunks -> ready s ->
  criterion_given T grad_enabled crit ->
  exists r s',
    step T grad_enabled num_chunks crit ro s = (Ok r, s')
    /\ pending_after 0 (log s') = Some 0.
Proof.
  intros [Hmap Hinit] Heven Hvalid Hready Hcrit.
  pose proof (init_topo_ok _ _ _ _ _ Hmap Hinit Heven) as HT.
  destruct (step_completes T HT grad_enabled num_chunks crit ro s Hvalid
              Hready Hcrit)
    as (s1 & r & s2 & E1 & E2 & Es & _ & Hq & _).
  exists r, s2. split; [exact Es|].
  assert (Hinv : zb_inv s1).
  { apply (wp_ok _ (fun _ => zb_inv) _ _ _) with (2 := E1).
    apply wp_until_finish; [|apply zb_schedule].
    apply zb_until_schedule; apply Hready. }
  destruct Hinv as (_ & _ & Hp). rewrite Hq in Hp.
  destruct (finish_log _ _ _ _ _ _ E2) as [->|[n ->]]; [exact Hp|].
  rewrite pending_after_app, Hp. reflexivity.
Qed.

Lemma deferred_weights_all_computed_witness :
  exists r s',
    step rank_1_of_4 true 8 None false fresh_state = (Ok r, s')
    /\ pending_after 0 (log s') = Some 0.
Proof.
  apply (deferred_weights_all_computed (twin_shards false) 4 1 None
           rank_1_of_4 true 8).
  - exact rank_1_of_4_constructed.
  - reflexivity.
  - exact valid_8_chunks.
  - exact fresh_ready.
  - intros _ H. vm_compute in H. discriminate H.
Defined.

(** ** The backward pass stays behind the forward pass *)

Lemma lag_app p k l l' :
  lag p k (l ++ l')
  = match lag p k l with
    | Some k' => lag p k' l'
    | None => None
    end.
Proof.
  revert k. induction l as [|e l IH]; intros k; [reflexivity|].
  destruct e as [| | | |p0 c|p0 c zb|p0 c0 p1 c1|]; simpl; try apply IH.
  - destruct (Bool.eqb p0 p); [destruct k|]; try reflexivity; apply IH.
  - destruct (Bool.eqb p1 p); [destruct k|]; try reflexivity; apply IH.
Qed.

Ltac order_lag Hg1 Hg0 :=
  state_simpl; rewrite ?lag_app, ?Hg1, ?Hg0; cbn [lag Bool.eqb];
  repeat match goal with
         | |- context [match ?k with 0 => _ | S _ => _ end] =>
             let E := fresh "E" in
             destruct k eqn:E; [exfalso; lia|]; cbn [lag Bool.eqb]
         end;
  first [reflexivity | f_equal; lia].

Ltac order_method T Hexcl :=
  let s := fresh "s" in
  let H := fresh "H" in
  intros s H; unfold order_inv, loss_bound, behind in *;
  open_method T s;
  destruct (is_first_rank T), (is_last_rank T); try discriminate Hexcl;
  wp_exec;
  state_simpl_in H; state_simpl;
  destruct H as (Ho & Hl & Hb & Hh & Hg);
  pose proof (Ho true) as Ho1; pose proof (Ho false) as Ho0;
  pose proof (Hb true) as Hb1; pose proof (Hb false) as Hb0;
  pose proof (Hg true) as Hg1; pose proof (Hg false) as Hg0;
  state_simpl_in Ho1; state_simpl_in Ho0; state_simpl_in Hb1;
  state_simpl_in Hb0; state_simpl_in Hg1; state_simpl_in Hg0;
  repeat match goal with
         | E : _ !! _ = Some _ |- _ => apply lookup_lt_Some in E
         end;
  rewrite ?length_insert in *;
  (split; [intros []; state_simpl;
           rewrite ?length_app, ?length_insert; cbn [length]; lia|]);
  (split; [rewrite ?length_app; cbn [length]; lia|]);
  (split; [intros []; state_simpl; lia|]);
  (split;
   [ repeat (apply Forall_app; split); try exact Hh;
     (constructor; [intros []; state_simpl; lia | constructor])
   | intros []; order_lag Hg1 Hg0 ]).

Section Order.

Variable T : topology.
Hypothesis Hexcl : is_first_rank T && is_last_rank T = false.

Lemma order_recv_forward l : keeps (order_inv T) (_recv_forward T l).
Proof. order_method T Hexcl. Qed.

Lemma order_send_forward l : keeps (order_inv T) (_send_forward T l).
Proof. order_method T Hexcl. Qed.

Lemma order_recv_backward l : keeps (order_inv T) (_recv_backward T l).
Proof. order_method T Hexcl. Qed.

Lemma order_send_backward l : keeps (order_inv T) (_send_backward T l).
Proof. order_method T Hexcl. Qed.

Lemma order_forward l : keeps (order_inv T) (_forward_compute_chunk T l).
Proof. order_method T Hexcl. Qed.

Lemma order_backward l zb :
  keeps (order_inv T) (_backward_compute_chunk T l zb).
Proof. order_method T Hexcl. Qed.

Lemma order_fused l0 l1 : keeps (order_inv T) (fused_compute_chunk T l0 l1).
Proof. order_method T Hexcl. Qed.

Lemma order_weight : keeps (order_inv T) _weight_chunk.
Proof. order_method T Hexcl. Qed.

Lemma order_commit : keeps (order_inv T) _commit_and_wait_comm.
Proof. order_method T Hexcl. Qed.

Lemma order_mark k i : keeps (order_inv T) (emit (EStepIter k i)).
Proof. order_method T Hexcl. Qed.

Lemma order_schedule num_chunks : keeps (order_inv T) (schedule T num_chunks).
Proof.
  apply keeps_schedule.
  - apply order_recv_forward.
  - apply order_send_forward.
  - apply order_recv_backward.
  - apply order_send_backward.
  - apply order_forward.
  - apply order_backward.
  - apply order_fused.
  - apply order_weight.
  - apply order_commit.
  - apply order_mark.
Qed.

Lemma order_until_schedule grad_enabled num_chunks crit ro s :
  log s = [] -> history s = [] ->
  wp (until_schedule T grad_enabled num_chunks crit ro)
    (fun _ => order_inv T) s.
Proof.
  intros Hlog Hhist. unfold order_inv, loss_bound, behind.
  exec_start s; simpl in Hlog, Hhist; subst x_lg x_hi;
    (split; [intros []; simpl; lia|]);
    (split; [destruct (is_first_rank T), (is_last_rank T); simpl; lia|]);
    (split; [intros []; simpl; lia|]);
    (split; [constructor | intros []; reflexivity]).
Qed.

End Order.

(** X13: throughout a step with valid arguments the backward cursor of each
    physical phase stays at or below its forward cursor, and in the log the
    backward passes of a phase follow its forward passes one for one: each
    backward pass, alone or fused, comes after a forward pass of its phase
    that no earlier backward pass has answered; a training step leaves no
    forward pass unanswered, a forward-only step leaves them all. *)
Theorem backward_follows_forward modules group_size group_rank rank_mapping T
    grad_enabled num_chunks crit ro s :
  constructed modules group_size group_rank rank_mapping T ->
  (group_size mod 2 = 0)%Z ->
  valid_chunks T num_chunks -> ready s ->
  criterion_given T grad_enabled crit ->
  exists r s',
    step T grad_enabled num_chunks crit ro s = (Ok r, s')
    /\ Forall behind (history s')
    /\ forall p : bool,
         lag p 0 (log s')
         = Some (if grad_enabled then 0 else half_chunks num_chunks).
Proof.
  intros [Hmap Hinit] Heven Hvalid Hready Hcrit.
  pose proof (init_topo_ok _ _ _ _ _ Hmap Hinit Heven) as HT.
  destruct (step_completes T HT grad_enabled num_chunks crit ro s Hvalid
              Hready Hcrit)
    as (s1 & r & s2 & E1 & E2 & Es & Hfin & Hq & _).
  exists r, s2. split; [exact Es|].
  assert (Hinv : order_inv T s1).
  { apply (wp_ok _ (fun _ => order_inv T) _ _ _) with (2 := E1).
    apply wp_until_finish; [|apply order_schedule, (ends_exclusive T HT)].
    apply (order_until_schedule T (ends_exclusive T HT)); apply Hready. }
  destruct Hinv as (_ & _ & _ & Hh & Hg).
  destruct (finish_spec T crit ro s1 Hq) as (r' & s2' & E2' & Hhist & _).
  rewrite E2 in E2'. injection E2' as <- <-.
  split; [rewrite Hhist; exact Hh|].
  intros p. specialize (Hg p).
  destruct (Hfin p) as (Hf & _ & _ & Hb & _). rewrite Hf, Hb in Hg.
  assert (Hlag : lag p 0 (log s1)
                 = Some (if grad_enabled then 0 else half_chunks num_chunks)).
  { rewrite Hg. destruct grad_enabled; simpl; f_equal; lia. }
  destruct (finish_log _ _ _ _ _ _ E2) as [->|[n ->]]; [exact Hlag|].
  rewrite lag_app, Hlag. reflexivity.
Qed.

Lemma backward_follows_forward_witness :
  exists r s',
    step rank_1_of_4 true 8 None false fresh_state = (Ok r, s')
    /\ Forall behind (history s')
    /\ forall p : bool, lag p 0 (log s') = Some 0.
Proof.
  apply (backward_follows_forward (twin_shards false) 4 1 None rank_1_of_4
           true 8).
  - exact rank_1_of_4_constructed.
  - reflexivity.
  - exact valid_8_chunks.
  - exact fresh_ready.
  - intros _ H. vm_compute in H. discriminate H.
Defined.

(** ** Releasing the stored tensors *)

Lemma released_insert c l :
  released_upto c l -> released_upto (S c) (<[c := None]> l).
Proof.
  intros H i x Hi Hlt. destruct (decide (i = c)) as [->|Hne].
  - pose proof (lookup_lt_Some _ _ _ Hi) as Hlen.
    rewrite length_insert in Hlen.
    rewrite list_lookup_insert_eq in Hi by exact Hlen. congruence.
  - rewrite list_lookup_insert_ne in Hi by congruence.
    apply (H i x Hi). lia.
Qed.

Lemma released_insert_same k c l :
  released_upto k l -> released_upto k (<[c := None]> l).
Proof.
  intros H i x Hi Hlt. destruct (decide (i = c)) as [->|Hne].
  - pose proof (lookup_lt_Some _ _ _ Hi) as Hlen.
    rewrite length_insert in Hlen.
    rewrite list_lookup_insert_eq in Hi by exact Hlen. congruence.
  - rewrite list_lookup_insert_ne in Hi by congruence. apply (H i x Hi Hlt).
Qed.

Lemma released_app k l v :
  released_upto k l -> k <= length l -> released_upto k (l ++ [v]).
Proof.
  intros H Hk i x Hi Hlt. rewrite lookup_app_l in Hi by lia.
  apply (H i x Hi Hlt).
Qed.

Lemma released_nil k : released_upto k [].
Proof. intros i x Hi. rewrite lookup_nil in Hi. discriminate Hi. Qed.

Lemma released_none l : released_upto 0 l.
Proof. intros i x _ Hi. lia. Qed.

Lemma released_beyond k k' l :
  released_upto k l -> length l <= k -> released_upto k' l.
Proof.
  intros H Hk i x Hi _. apply (H i x Hi).
  pose proof (lookup_lt_Some _ _ _ Hi). lia.
Qed.

Lemma released_all l :
  released_upto (length l) l -> all_released l.
Proof.
  intros H. apply Forall_lookup_2. intros i x Hi.
  apply (H i x Hi), (lookup_lt_Some _ _ _ Hi).
Qed.

Ltac released :=
  repeat lazymatch goal with
         | |- released_upto _ [] => apply released_nil
         | |- released_upto 0 _ => apply released_none
         | |- released_upto _ (_ ++ [_]) =>
             apply released_app;
             [|rewrite ?length_app, ?length_insert; cbn [length]; lia]
         | |- released_upto (S ?c) (<[?c := None]> _) => apply released_insert
         | |- released_upto _ (<[_ := None]> _) => apply released_insert_same
         | |- released_upto _ ?l =>
             first
               [ assumption
               | match goal with
                 | H : released_upto ?k l |- _ =>
                     apply (released_beyond k); [exact H | lia]
                 end ]
         end.

Ltac release_arith :=
  rewrite ?length_app, ?length_insert; cbn [length]; lia.

Ltac release_side :=
  first
    [ solve [released]
    | solve [release_arith]
    | let H := fresh "H" in
      intros H;
      first [ discriminate H | solve [released] | solve [release_arith] ] ].

Ltac release_method T Hexcl fo ro :=
  let s := fresh "s" in
  let H := fresh "H" in
  intros s H; unfold release_inv, release_at in *;
  unfold is_first_stage, is_last_stage in H;
  open_method T s;
  destruct H as (Hfo & Hro & H0 & H1);
  state_simpl_in Hfo; state_simpl_in Hro; subst;
  destruct (is_first_rank T), (is_last_rank T); try discriminate Hexcl;
  tryif is_var fo then destruct fo else idtac;
  destruct ro;
  cbv zeta in H0, H1; state_simpl_in H0; state_simpl_in H1;
  cbn [andb orb negb] in H0, H1;
  destruct H0 as ((Ha0 & Hb0 & Hc0 & Hd0) & (He0 & Hf0 & Hg0)
                  & (Hh0 & Hi0 & Hj0) & (Hk0 & Hl0 & Hm0));
  destruct H1 as ((Ha1 & Hb1 & Hc1 & Hd1) & (He1 & Hf1 & Hg1)
                  & (Hh1 & Hi1 & Hj1) & (Hk1 & Hl1 & Hm1));
  cbn [andb orb negb] in *;
  wp_exec;
  repeat match goal with
         | E : _ !! _ = Some _ |- _ => apply lookup_lt_Some in E
         end;
  rewrite ?length_insert in *;
  cbv zeta; state_simpl;
  repeat match goal with
         | H : ?a = ?a -> _ |- _ => specialize (H eq_refl)
         | H : false = true -> _ |- _ => clear H
         | H : true = false -> _ |- _ => clear H
         end;
  repeat split; release_side.

Section Release.

Variable T : topology.
Hypothesis Hexcl : is_first_rank T && is_last_rank T = false.
Variables (fo ro : bool) (Hn : nat).

Lemma release_recv_forward l :
  keeps (release_inv T fo ro Hn) (_recv_forward T l).
Proof. release_method T Hexcl fo ro. Qed.

Lemma release_send_forward l :
  keeps (release_inv T fo ro Hn) (_send_forward T l).
Proof. release_method T Hexcl fo ro. Qed.

Lemma release_recv_backward l :
  keeps (release_inv T fo ro Hn) (_recv_backward T l).
Proof. release_method T Hexcl fo ro. Qed.

Lemma release_send_backward l :
  keeps (release_inv T fo ro Hn) (_send_backward T l).
Proof. release_method T Hexcl fo ro. Qed.

Lemma release_forward l :
  keeps (release_inv T fo ro Hn) (_forward_compute_chunk T l).
Proof. release_method T Hexcl fo ro. Qed.

Lemma release_backward l zb :
  keeps (release_inv T fo ro Hn) (_backward_compute_chunk T l zb).
Proof. release_method T Hexcl fo ro. Qed.

Lemma release_fused l0 l1 :
  keeps (release_inv T false ro Hn) (fused_compute_chunk T l0 l1).
Proof. release_method T Hexcl false ro. Qed.

Lemma release_both l0 l1 :
  keeps (release_inv T fo ro Hn) (_forward_backward_compute_chunk T l0 l1).
Proof.
  intros s H. unfold _forward_backward_compute_chunk.
  apply wp_bind, wp_gets.
  replace (forward_only (attrs s)) with fo by (symmetry; apply H).
  destruct (bool_dec fo false) as [Hfo|Hfo].
  - rewrite Hfo at 1. destruct (negb _).
    + apply (wp_keeps (release_inv T fo ro Hn));
        [apply release_forward | exact H |].
      intros _ s' H'. apply release_backward, H'.
    + rewrite Hfo in H |- *. apply release_fused, H.
  - apply not_false_is_true in Hfo. rewrite Hfo at 1.
    apply release_forward, H.
Qed.

Lemma release_weight : keeps (release_inv T fo ro Hn) _weight_chunk.
Proof. release_method T Hexcl fo ro. Qed.

Lemma release_commit : keeps (release_inv T fo ro Hn) _commit_and_wait_comm.
Proof. release_method T Hexcl fo ro. Qed.

Lemma release_mark k i :
  keeps (release_inv T fo ro Hn) (emit (EStepIter k i)).
Proof. release_method T Hexcl fo ro. Qed.

Lemma release_schedule num_chunks :
  keeps (release_inv T fo ro Hn) (schedule T num_chunks).
Proof.
  apply keeps_schedule_of_methods.
  - apply release_recv_forward.
  - apply release_send_forward.
  - apply release_recv_backward.
  - apply release_send_backward.
  - apply release_forward.
  - apply release_backward.
  - apply release_both.
  - apply release_weight.
  - apply release_commit.
  - apply release_mark.
Qed.

End Release.

Lemma release_until_schedule T grad_enabled num_chunks crit ro s :
  is_first_rank T && is_last_rank T = false ->
  wp (until_schedule T grad_enabled num_chunks crit ro)
    (fun _ => release_inv T (negb grad_enabled) ro (half_chunks num_chunks))
    s.
Proof.
  intros Hexcl.
  unfold release_inv, release_at, half_chunks, is_first_stage, is_last_stage.
  exec_start s; cbv zeta; unfold both, scatter; state_simpl;
    destruct (is_first_rank T), (is_last_rank T); try discriminate Hexcl;
    destruct grad_enabled, ro;
    cbn [andb orb negb length];
    rewrite ?length_map, ?length_seq;
    repeat split; release_side.
Qed.

(** X14: when the eight phases of a step with valid arguments are over, and
    before the closing reset, each physical phase holds one input slot per
    micro-batch of its direction and every one of them has been set to
    [None]; so has every received output gradient; in a training step that
    does not return the outputs so has every stored output; and the input
    gradients have all been released after sending, except on a first stage,
    which sends none. *)
Theorem stored_tensors_released modules group_size group_rank rank_mapping T
    grad_enabled num_chunks crit ro s :
  constructed modules group_size group_rank rank_mapping T ->
  (group_size mod 2 = 0)%Z ->
  valid_chunks T num_chunks -> ready s ->
  criterion_given T grad_enabled crit ->
  exists s1,
    until_finish T grad_enabled num_chunks crit ro s = (Ok tt, s1)
    /\ forall p : bool,
         let q := chunks (ps s1) in
         length (get2 (input_chunks q) p) = half_chunks num_chunks
         /\ all_released (get2 (input_chunks q) p)
         /\ all_released (get2 (output_grad_chunks q) p)
         /\ (grad_enabled = true -> ro = false ->
             all_released (get2 (output_chunks q) p))
         /\ (is_first_stage T p = false ->
             all_released (get2 (input_grad_chunks q) p)).
Proof.
  intros [Hmap Hinit] Heven Hvalid Hready Hcrit.
  pose proof (init_topo_ok _ _ _ _ _ Hmap Hinit Heven) as HT.
  destruct (step_completes T HT grad_enabled num_chunks crit ro s Hvalid
              Hready Hcrit)
    as (s1 & r & s2 & E1 & _ & _ & Hfin & _).
  exists s1. split; [exact E1|].
  assert (Hinv : release_inv T (negb grad_enabled) ro (half_chunks num_chunks)
                   s1).
  { apply (wp_ok _ (fun _ => release_inv T (negb grad_enabled) ro
                               (half_chunks num_chunks)) _ _ _) with (2 := E1).
    apply wp_until_finish; [|apply release_schedule, (ends_exclusive T HT)].
    apply release_until_schedule, (ends_exclusive T HT). }
  destruct Hinv as (_ & _ & H0 & H1).
  intros p.
  assert (Hp : release_at T (negb grad_enabled) ro (half_chunks num_chunks) p
                 s1) by (destruct p; assumption).
  destruct (Hfin p) as (Hf & Hrf & _ & Hb & Hrb & Hsb).
  unfold release_at in Hp. cbv zeta in Hp |- *.
  rewrite Hf, Hrf, Hb, Hrb, Hsb in Hp.
  destruct Hp as ((Ha & _ & _ & Hd) & (He & _ & Hg) & (Hh & _ & Hj)
                  & (Hk & _ & Hm)).
  assert (Hlen : length (get2 (input_chunks (chunks (ps s1))) p)
                 = half_chunks num_chunks)
    by (rewrite Ha; destruct (is_first_stage T p); reflexivity).
  split; [exact Hlen|].
  split.
  { apply released_all. rewrite Hlen.
    destruct grad_enabled; exact Hd. }
  split.
  { apply released_all.
    apply (released_beyond _ _ _ Hj). rewrite Hh.
    destruct grad_enabled, (is_last_stage T p); simpl; lia. }
  split.
  { intros -> ->. apply released_all.
    apply (released_beyond _ _ _ (Hg eq_refl)). rewrite He.
    destruct (is_last_stage T p); simpl; lia. }
  intros Hfirst. rewrite Hfirst in Hm. apply released_all.
  rewrite Hk. destruct grad_enabled; exact Hm.
Qed.

Lemma stored_tensors_released_witness :
  exists s1,
    until_finish rank_1_of_4 true 8 None false fresh_state = (Ok tt, s1)
    /\ forall p : bool,
         let q := chunks (ps s1) in
         length (get2 (input_chunks q) p) = half_chunks 8
         /\ all_released (get2 (input_chunks q) p)
         /\ all_released (get2 (output_grad_chunks q) p)
         /\ (true = true -> false = false ->
             all_released (get2 (output_chunks q) p))
         /\ (is_first_stage rank_1_of_4 p = false ->
             all_released (get2 (input_grad_chunks q) p)).
Proof.
  apply (stored_tensors_released (twin_shards false) 4 1 None rank_1_of_4
           true 8).
  - exact rank_1_of_4_constructed.
  - reflexivity.
  - exact valid_8_chunks.
  - exact fresh_ready.
  - intros _ H. vm_compute in H. discriminate H.
Defined.
